(** * torrent_mover: classification and relocation of finished torrents

    A shallow embedding of [torrent_mover.py].  Python strings are lists of
    characters (code points below 256), Python integers are [Z] / [N],
    Python floats are IEEE-754 binary64 values ([spec_float] with
    [prec = 53], [emax = 1024]), raised exceptions are the [Raise] outcome of
    a result type, and the file system and the Transmission client are an
    abstract world threaded through a state-and-exception monad that records
    every external call in a trace.  [load_config] is modelled from the
    Python value that [yaml.safe_load] returned for the configuration
    file. *)

From Stdlib Require Import List Ascii String ZArith NArith PeanoNat Bool Lia.
From Stdlib Require Import SpecFloat.
Import ListNotations.

(* ================================================================= *)
(** ** Strings *)

Module Str.

Definition str := list ascii.

Definition of_string : string -> str := list_ascii_of_string.

Fixpoint eqb (a b : str) : bool :=
  match a, b with
  | [], [] => true
  | x :: a', y :: b' => Ascii.eqb x y && eqb a' b'
  | _, _ => false
  end.

Definition sep : ascii := "/"%char.
Definition extsep : ascii := "."%char.
Definition newline : ascii := "010"%char.

Definition is_sep (c : ascii) : bool := Ascii.eqb c sep.

(** [c in chars] for a character [c] and a string [chars]. *)
Definition mem (c : ascii) (chars : str) : bool := existsb (Ascii.eqb c) chars.

Definition startswith_sep (p : str) : bool :=
  match p with c :: _ => is_sep c | [] => false end.

Definition endswith_sep (p : str) : bool :=
  match rev p with c :: _ => is_sep c | [] => false end.

(** [str.lstrip(chars)], [str.rstrip(chars)], [str.strip(chars)]. *)
Fixpoint lstrip (chars s : str) : str :=
  match s with
  | c :: s' => if mem c chars then lstrip chars s' else s
  | [] => []
  end.

Definition rstrip (chars s : str) : str := rev (lstrip chars (rev s)).

Definition strip (chars s : str) : str := rstrip chars (lstrip chars s).

(** ASCII decimal digits: the only characters below code point 256 that
    [\d] and [int()] accept. *)
Definition is_digit (c : ascii) : bool :=
  let n := nat_of_ascii c in (48 <=? n)%nat && (n <=? 57)%nat.

Definition digit_val (c : ascii) : N := N.of_nat (nat_of_ascii c - 48).

(** [int(s)] for a string of decimal digits. *)
Definition int_of_digits (s : str) : N :=
  fold_left (fun acc c => (10 * acc + digit_val c)%N) s 0%N.

Definition digit_char (d : N) : ascii := ascii_of_nat (48 + N.to_nat d).

(** Decimal rendering of a natural number, most significant digit first. *)
Fixpoint decimal_fuel (fuel : nat) (n : N) (acc : str) : str :=
  match fuel with
  | O => acc
  | S fuel' =>
      let acc' := digit_char (n mod 10) :: acc in
      if (n <? 10)%N then acc' else decimal_fuel fuel' (n / 10)%N acc'
  end.

Definition decimal (n : N) : str := decimal_fuel (S (N.to_nat (N.log2 n))) n [].

(** [f"{n:02d}"] for [n >= 0]: decimal, left-padded with zeros to width 2. *)
Definition format_02d (n : N) : str :=
  let d := decimal n in
  repeat "0"%char (2 - List.length d) ++ d.

(** ASCII lower-casing; no other character below code point 256 case-folds
    onto a letter of the patterns. *)
Definition lower (c : ascii) : ascii :=
  let n := nat_of_ascii c in
  if (65 <=? n)%nat && (n <=? 90)%nat then ascii_of_nat (n + 32) else c.

End Str.

Import Str.

(* ================================================================= *)
(** ** [os.path] (POSIX flavour) *)

Module Path.

(** [os.path.basename(p)]: what follows the last separator. *)
Fixpoint basename (p : str) : str :=
  match p with
  | [] => []
  | c :: p' =>
      if existsb is_sep p' then basename p'
      else if is_sep c then p' else p
  end.

(** [os.path.join(a, b)]. *)
Definition join (a b : str) : str :=
  if startswith_sep b then b
  else if (match a with [] => true | _ => false end) || endswith_sep a then a ++ b
  else a ++ sep :: b.

Definition join3 (a b c : str) : str := join (join a b) c.

(** The extension part of [os.path.splitext(p)]: from the last dot of the
    basename on, unless that basename consists of leading dots up to it. *)
Fixpoint last_dot_suffix (s : str) : option str :=
  match s with
  | [] => None
  | c :: s' =>
      match last_dot_suffix s' with
      | Some e => Some e
      | None => if Ascii.eqb c extsep then Some s else None
      end
  end.

Definition splitext_ext (p : str) : str :=
  let b := basename p in
  match last_dot_suffix b with
  | Some e =>
      (* the dot must be preceded, in the basename, by a character that is
         not a dot *)
      let stem := firstn (List.length b - List.length e) b in
      if forallb (Ascii.eqb extsep) stem then [] else e
  | None => []
  end.

End Path.

(* ================================================================= *)
(** ** Regular expressions ([re]), for the fragment the patterns use

    Every pattern of [SERIES_PATTERNS] is a sequence of quantified
    single-character classes, some of them wrapped in a capturing group.
    Matching is the backtracking search of [re]: a greedy quantifier tries
    the longest run first, a lazy one the shortest, and the first complete
    match wins; [search] tries every start offset from the left. *)

Module Re.

Inductive cclass :=
| CAny                (* [.]  : anything but a newline *)
| CDigit              (* [\d] *)
| CChar (c : ascii).  (* a literal, compared under [re.IGNORECASE] *)

Definition cmatch (k : cclass) (c : ascii) : bool :=
  match k with
  | CAny => negb (Ascii.eqb c newline)
  | CDigit => is_digit c
  | CChar l => Ascii.eqb (lower c) (lower l)
  end.

Record item := Item {
  capture : bool;        (* wrapped in a capturing group *)
  cls : cclass;
  rmin : nat;
  rmax : option nat;     (* [None]: unbounded *)
  greedy : bool }.

Definition pattern := list item.

(** Length of the longest prefix of [s] made of characters of class [k]. *)
Fixpoint run_length (k : cclass) (s : str) : nat :=
  match s with
  | c :: s' => if cmatch k c then S (run_length k s') else 0
  | [] => 0
  end.

(** The repetition counts an item may consume at the head of [s], in the
    order in which the backtracking matcher tries them. *)
Definition counts (it : item) (s : str) : list nat :=
  let run := run_length (cls it) s in
  let hi := match rmax it with Some m => Nat.min m run | None => run end in
  let ascending := seq (rmin it) (S hi - rmin it) in
  if greedy it then rev ascending else ascending.

Fixpoint first_some {A B} (f : A -> option B) (l : list A) : option B :=
  match l with
  | [] => None
  | a :: l' => match f a with Some b => Some b | None => first_some f l' end
  end.

(** Match [p] at the head of [s]; the result lists the captured groups. *)
Fixpoint match_here (p : pattern) (s : str) : option (list str) :=
  match p with
  | [] => Some []
  | it :: p' =>
      first_some
        (fun n =>
           match match_here p' (skipn n s) with
           | Some groups =>
               Some (if capture it then firstn n s :: groups else groups)
           | None => None
           end)
        (counts it s)
  end.

(** [re.compile(p, re.IGNORECASE).search(s)]. *)
Fixpoint search (p : pattern) (s : str) : option (list str) :=
  match match_here p s with
  | Some groups => Some groups
  | None => match s with [] => None | _ :: s' => search p s' end
  end.

(** Pattern syntax. *)
Definition one (k : cclass) : item := Item false k 1 (Some 1) true.
Definition opt (k : cclass) : item := Item false k 0 (Some 1) true.
Definition star (k : cclass) : item := Item false k 0 None true.
Definition star_lazy (k : cclass) : item := Item false k 0 None false.
Definition rep (k : cclass) (lo hi : nat) : item := Item false k lo (Some hi) true.
Definition group (it : item) : item :=
  Item true (cls it) (rmin it) (rmax it) (greedy it).
Definition lit (s : string) : pattern := map (fun c => one (CChar c)) (of_string s).

End Re.

(* ================================================================= *)
(** ** Configuration, enumerations and records *)

(** The module-level settings that [load_config] may overwrite, and the
    [DRY_RUN] switch. *)
Record Config := {
  DIR_DOWNLOAD : str;
  DIR_FILM : str;
  DIR_SERIES : str;
  SEASON_PREFIX : str;
  STRIP_CHARS : str;
  DRY_RUN : bool }.

(** The settings as the script defines them, for a given [SCRIPT_PATH]. *)
Definition default_config (SCRIPT_PATH : str) : Config := {|
  DIR_DOWNLOAD := Path.join SCRIPT_PATH (of_string "downloads");
  DIR_FILM := Path.join SCRIPT_PATH (of_string "films");
  DIR_SERIES := Path.join SCRIPT_PATH (of_string "series");
  SEASON_PREFIX := of_string "s";
  STRIP_CHARS := of_string " ._-";
  DRY_RUN := false |}.

Definition with_dry_run (b : bool) (cfg : Config) : Config := {|
  DIR_DOWNLOAD := DIR_DOWNLOAD cfg;
  DIR_FILM := DIR_FILM cfg;
  DIR_SERIES := DIR_SERIES cfg;
  SEASON_PREFIX := SEASON_PREFIX cfg;
  STRIP_CHARS := STRIP_CHARS cfg;
  DRY_RUN := b |}.

Inductive TorrentStatus :=
| CHECK_PENDING | CHECKING | DOWNLOADING | DOWNLOAD_PENDING
| SEEDING | SEED_PENDING | STOPPED.

Inductive TorrentType :=
| UNKNOWN | MOVIE | MOVIE_WITH_SAMPLE | EPISODE | SEASON | SERIES.

Definition TORRENT_COMPLETE_STATUS : list TorrentStatus := [SEEDING; STOPPED].

Definition status_eqb (a b : TorrentStatus) : bool :=
  match a, b with
  | CHECK_PENDING, CHECK_PENDING | CHECKING, CHECKING
  | DOWNLOADING, DOWNLOADING | DOWNLOAD_PENDING, DOWNLOAD_PENDING
  | SEEDING, SEEDING | SEED_PENDING, SEED_PENDING | STOPPED, STOPPED => true
  | _, _ => false
  end.

Definition VIDEO_FILE_EXTENSIONS : list str :=
  [of_string ".mp4"; of_string ".mkv"; of_string ".avi"].

(** One entry of [torrent.files()]. *)
Record File := { name : str; size : N }.

(** The dictionary [get_episode_data] returns on a match. *)
Record EpisodeData := {
  series_name : str;
  season_num : str;
  episode_num : str;
  filename : str }.

(** A [seasons] dictionary: keys in insertion order, each with the list of
    its episodes in the order they were appended. *)
Definition Seasons := list (str * list EpisodeData).

(** The dictionary [get_series_data] returns on success. *)
Record SeriesData := {
  sd_series_name : option str;
  seasons : Seasons;
  seasons_count : nat }.

(** The second component of what [get_torrent_type] returns. *)
Inductive TypeData :=
| NoData
| EpisodeInfo (e : EpisodeData)
| SeriesInfo (s : SeriesData).

(** Exceptions the modelled code can raise. *)
Inductive Exn :=
| ZeroDivisionError | OverflowError | TypeError | IndexError | OSError.

Inductive result (A : Type) :=
| Ok (a : A)
| Raise (e : Exn).
Arguments Ok {A} a.
Arguments Raise {A} e.

Definition bind_result {A B} (r : result A) (k : A -> result B) : result B :=
  match r with
  | Ok a => k a
  | Raise e => Raise e
  end.

Notation "'do' x <- r ; k" := (bind_result r (fun x => k))
  (at level 10, x name, r at level 100, k at level 200).

(* ================================================================= *)
(** ** The series patterns and the pattern matcher *)

Import Re.

(** First pattern, token by token: [( .*? ) S ( \d{1,2} ) E ( \d{2} ) ( .* )]. *)
Definition PATTERN_SxxEyy : pattern :=
  [group (star_lazy CAny)] ++ lit "S" ++ [group (rep CDigit 1 2)]
  ++ lit "E" ++ [group (rep CDigit 2 2); group (star CAny)].

(** Second pattern: [( .*? ) \[? ( \d{1,2} ) x ( \d{2} ) \]? ( .* )]. *)
Definition PATTERN_NxNN : pattern :=
  [group (star_lazy CAny); opt (CChar "["); group (rep CDigit 1 2)]
  ++ lit "x" ++ [group (rep CDigit 2 2); opt (CChar "]"); group (star CAny)].

(** Third pattern:
    [( .*? ) Season .? ( \d{1,2} ) .*? Episode .? ( \d{1,2} ) ( .* )]. *)
Definition PATTERN_verbose : pattern :=
  [group (star_lazy CAny)] ++ lit "Season"
  ++ [opt CAny; group (rep CDigit 1 2); star_lazy CAny] ++ lit "Episode"
  ++ [opt CAny; group (rep CDigit 1 2); group (star CAny)].

Definition SERIES_PATTERNS : list pattern :=
  [PATTERN_SxxEyy; PATTERN_NxNN; PATTERN_verbose].

Definition get_video_files (files : list File) : list File :=
  filter (fun file_info =>
            existsb (Str.eqb (Path.splitext_ext (name file_info)))
                    VIDEO_FILE_EXTENSIONS)
         files.

(** The dictionary built from a match object; every pattern has at least
    three groups. *)
Definition episode_of_match (cfg : Config) (file : str) (groups : list str)
  : option EpisodeData :=
  match groups with
  | g1 :: g2 :: g3 :: _ =>
      Some {| series_name := strip (STRIP_CHARS cfg) g1;
              season_num := format_02d (int_of_digits g2);
              episode_num := format_02d (int_of_digits g3);
              filename := file |}
  | _ => None
  end.

(** [get_episode_data]; [None] stands for the [False] of the source. *)
Definition get_episode_data (cfg : Config) (file : str) : option EpisodeData :=
  first_some
    (fun pat =>
       match search pat (Path.basename file) with
       | Some groups => episode_of_match cfg file groups
       | None => None
       end)
    SERIES_PATTERNS.

(* ================================================================= *)
(** ** Python floats *)

Module Float.

Definition prec : Z := 53.
Definition emax : Z := 1024.

Definition float := spec_float.

(** [float(z)] for an integer [z]. *)
Definition of_Z (z : Z) : float := binary_normalize prec emax z 0 false.

Definition mul : float -> float -> float := SFmul prec emax.
Definition div : float -> float -> float := SFdiv prec emax.
Definition ltb : float -> float -> bool := SFltb.
Definition leb : float -> float -> bool := SFleb.

(** An integer as an exact (unrounded) operand of a division. *)
Definition exact_of_Z (z : Z) : float :=
  match z with
  | Z0 => S754_zero false
  | Zpos p => S754_finite false p 0
  | Zneg p => S754_finite true p 0
  end.

(** [x / y] on integers: the correctly rounded quotient, [ZeroDivisionError]
    on a zero divisor, [OverflowError] when the quotient exceeds the floats. *)
Definition int_truediv (x y : Z) : result float :=
  if (y =? 0)%Z then Raise ZeroDivisionError
  else match div (exact_of_Z x) (exact_of_Z y) with
       | S754_infinity _ => Raise OverflowError
       | q => Ok q
       end.

End Float.

(* ================================================================= *)
(** ** Rounding to nearest, as the float operations do it

    Vocabulary for the proofs about [SFdiv] and [SFmul]: a positive real is
    given as a fraction [A / B] scaled by a power of two, and the rounding
    of the format is described on such fractions. *)

Module Rounding.

Local Open Scope Z_scope.

Definition emin : Z := -1074.
Definition fexp (e : Z) : Z := Z.max (e - 53) emin.

(** The record that locates the fraction [A / B]: its integer part, whether
    the rest reaches one half, and whether something lies beyond that. *)
Definition code (A B : Z) : shr_record :=
  {| shr_m := A / B;
     shr_r := B <=? 2 * (A mod B);
     shr_s := negb (A mod B =? 0) && negb (2 * (A mod B) =? B) |}.

(** Where [A / B] lies between its integer part and the next integer. *)
Definition location_of (A B : Z) : location :=
  if A mod B =? 0 then loc_Exact else loc_Inexact (2 * (A mod B) ?= B).

(** [A / B] rounded to the nearest integer, ties to even. *)
Definition nearest_even (A B : Z) : Z :=
  round_nearest_even (A / B) (location_of A B).

(** The last stage of [binary_round_aux]: renormalise the rounded mantissa
    [m] at exponent [E] and detect overflow. *)
Definition finish (s : bool) (m E : Z) : spec_float :=
  let '(mrs, e) := shr_fexp Float.prec Float.emax m E loc_Exact in
  match shr_m mrs with
  | Z0 => S754_zero s
  | Zpos p =>
      if e <=? Float.emax - Float.prec then S754_finite s p e
      else S754_infinity s
  | Zneg _ => S754_nan
  end.

(** The fraction [A / B] at exponent [e] is a fit input of the rounding:
    its integer part is positive and has at least as many digits as the
    format keeps. *)
Definition raw_ok (A B e : Z) : Prop :=
  0 < B /\ 0 < A / B /\ e <= fexp (Zdigits2 (A / B) + e).

(** The exponent at which the value [A / B * 2 ^ e] is rounded. *)
Definition cexp (A B e : Z) : Z := fexp (Zdigits2 (A / B) + e).

(** [A / B * 2 ^ e <= A' / B' * 2 ^ e']. *)
Definition raw_le (A B e A' B' e' : Z) : Prop :=
  A * B' * 2 ^ (e - Z.min e e') <= A' * B * 2 ^ (e' - Z.min e e').

(** The exponent and the scaled numerator that the division picks for the
    quotient of [m1 * 2 ^ e1] by [m2 * 2 ^ e2]. *)
Definition div_exp (m1 e1 m2 e2 : Z) : Z :=
  Z.min (fexp (Zdigits2 m1 + e1 - (Zdigits2 m2 + e2))) (e1 - e2).

Definition div_num (m1 e1 m2 e2 : Z) : Z :=
  m1 * 2 ^ (e1 - e2 - div_exp m1 e1 m2 e2).

(** [m * 2 ^ e <= m' * 2 ^ e']. *)
Definition fin_le (m e m' e' : Z) : Prop :=
  m * 2 ^ (e - Z.min e e') <= m' * 2 ^ (e' - Z.min e e').

End Rounding.

Import Rounding.

(* ================================================================= *)
(** ** The classifier *)

(** [seasons[key].append(episode_data)], creating the key at the end of the
    dictionary when it is new. *)
Fixpoint seasons_append (key : str) (episode_data : EpisodeData)
  (seasons : Seasons) : Seasons :=
  match seasons with
  | [] => [(key, [episode_data])]
  | (k, episodes) :: rest =>
      if Str.eqb k key then (k, episodes ++ [episode_data]) :: rest
      else (k, episodes) :: seasons_append key episode_data rest
  end.

(** The [for] loop of [get_series_data], from the current values of its
    local variables; [Ok None] is the early [return False]. *)
Fixpoint get_series_loop (cfg : Config) (video_files : list File)
  (series_name_ : option str) (seasons_ : Seasons)
  : result (option (option str * Seasons)) :=
  match video_files with
  | [] => Ok (Some (series_name_, seasons_))
  | video_file :: rest =>
      match get_episode_data cfg (name video_file) with
      | None =>
          (* [episode_data] is [False]: subscripting it raises *)
          Raise TypeError
      | Some episode_data =>
          let continue series_name' :=
            get_series_loop cfg rest series_name'
              (seasons_append (season_num episode_data) episode_data seasons_) in
          match series_name_ with
          | None => continue (Some (series_name episode_data))
          | Some current =>
              if negb (Str.eqb (series_name episode_data) current)
              then Ok None
              else continue series_name_
          end
      end
  end.

Definition get_series_data (cfg : Config) (video_files : list File)
  : result (option SeriesData) :=
  do r <- get_series_loop cfg video_files None [];
  match r with
  | None => Ok None
  | Some (series_name_, seasons_) =>
      match List.length seasons_ with
      | O => Ok None
      | S _ => Ok (Some {| sd_series_name := series_name_;
                           seasons := seasons_;
                           seasons_count := List.length seasons_ |})
      end
  end.

Definition is_movie_with_sample (video_files : list File) : result bool :=
  match video_files with
  | [first; second] =>
      do quotient <- Float.int_truediv (Z.of_N (size second) - Z.of_N (size first))
                                       (Z.of_N (size first));
      let size_diff := Float.mul quotient (Float.of_Z 100) in
      let size_diff :=
        if Float.ltb size_diff (Float.of_Z 0)
        then Float.mul size_diff (Float.of_Z (-1))
        else if Float.ltb (Float.of_Z 100) size_diff
             then Float.div size_diff (Float.of_Z 10)
             else size_diff in
      Ok (Float.leb (Float.of_Z 90) size_diff)
  | _ => Ok false
  end.

Definition get_torrent_type (cfg : Config) (video_files : list File)
  : result (TorrentType * TypeData) :=
  match video_files with
  | [video_file] =>
      match get_episode_data cfg (name video_file) with
      | Some episode_data => Ok (EPISODE, EpisodeInfo episode_data)
      | None => Ok (MOVIE, NoData)
      end
  | _ =>
      do sample <- is_movie_with_sample video_files;
      if sample then Ok (MOVIE_WITH_SAMPLE, NoData)
      else
        do series_data <- get_series_data cfg video_files;
        match series_data with
        | Some data =>
            if (seasons_count data =? 1)%nat then Ok (SEASON, SeriesInfo data)
            else Ok (SERIES, SeriesInfo data)
        | None => Ok (UNKNOWN, NoData)
        end
  end.

(* ================================================================= *)
(** ** The outside world: file system and Transmission client

    The three file-system primitives and the removal request are parameters.
    Each call to a mutating primitive yields the world after the call and
    whether the call returned normally ([false]: it raised).  The state also
    carries a trace of the mutating calls made and of the log lines of the
    relocation steps, in order. *)

Inductive Event :=
| CallMakedirs (path : str)
| CallCopyfile (source target : str)
| CallRemoveTorrent (ids : list Z)
| LogMoving (source target : str)
| LogAlreadyExists (target : str)
| LogErrorMoving (target : str)
| LogCreatingSeasonDir
| LogSkippingDryRun
| LogTorrentFinished
| LogRemovingFinished.

(** The events that change something outside the process. *)
Definition is_mutation (e : Event) : bool :=
  match e with
  | CallMakedirs _ | CallCopyfile _ _ | CallRemoveTorrent _ => true
  | _ => false
  end.

Definition is_copy (e : Event) : bool :=
  match e with CallCopyfile _ _ => true | _ => false end.

(** A job of the remote client. *)
Record Torrent := {
  torrent_id : Z;
  torrent_name : str;
  status : TorrentStatus;
  files : list File;
  is_finished : bool }.

Record System := {
  World : Type;
  path_exists : World -> str -> bool;
  makedirs : World -> str -> World * bool;
  copyfile : World -> str -> str -> World * bool;
  remove_torrent : World -> list Z -> World * bool }.

Section Program.

Variable sys : System.

Record State := { world : World sys; trace : list Event }.

(** Computations that read and change the state and may raise. *)
Definition M (A : Type) : Type := State -> State * result A.

Definition ret {A} (a : A) : M A := fun st => (st, Ok a).

Definition bind {A B} (m : M A) (k : A -> M B) : M B :=
  fun st =>
    match m st with
    | (st', Ok a) => k a st'
    | (st', Raise e) => (st', Raise e)
    end.

Definition lift {A} (r : result A) : M A := fun st => (st, r).

Definition emit (e : Event) : M unit :=
  fun st => ({| world := world st; trace := trace st ++ [e] |}, Ok tt).

Definition exists_ (path : str) : M bool :=
  fun st => (st, Ok (path_exists sys (world st) path)).

(** A mutating primitive: the call is recorded, then the world moves on and
    the call either returns or raises [exn]. *)
Definition call (e : Event) (prim : World sys -> World sys * bool) (exn : Exn)
  : M unit :=
  fun st =>
    let '(w, ok) := prim (world st) in
    ({| world := w; trace := trace st ++ [e] |},
     if ok then Ok tt else Raise exn).

(** [try: body / except: handler]. *)
Definition try_except {A} (body : M A) (handler : M A) : M A :=
  fun st =>
    match body st with
    | (st', Ok a) => (st', Ok a)
    | (st', Raise _) => handler st'
    end.

Notation "x <- m ;; k" := (bind m (fun x => k))
  (at level 61, m at next level, right associativity).
Notation "m ;;; k" := (bind m (fun _ => k))
  (at level 61, right associativity).

Definition is_dry_run (cfg : Config) : M bool :=
  (if DRY_RUN cfg then emit LogSkippingDryRun else ret tt) ;;;
  ret (DRY_RUN cfg).

Definition get_season_dir (cfg : Config) (series_name_ season_num_ : str) : M str :=
  let season_dir :=
    Path.join3 (DIR_SERIES cfg) series_name_ (SEASON_PREFIX cfg ++ season_num_) in
  present <- exists_ season_dir ;;
  (if negb present then
     emit LogCreatingSeasonDir ;;;
     dry <- is_dry_run cfg ;;
     if negb dry
     then call (CallMakedirs season_dir) (fun w => makedirs sys w season_dir) OSError
     else ret tt
   else ret tt) ;;;
  ret season_dir.

Definition move_torrent_file (cfg : Config) (source_file target_dir : str) : M bool :=
  let target := Path.join target_dir (Path.basename source_file) in
  try_except
    (present <- exists_ target ;;
     if negb present then
       let source := Path.join (DIR_DOWNLOAD cfg) source_file in
       emit (LogMoving source target) ;;;
       dry <- is_dry_run cfg ;;
       (if negb dry
        then call (CallCopyfile source target)
                  (fun w => copyfile sys w source target) OSError
        else ret tt) ;;;
       ret true
     else
       emit (LogAlreadyExists target) ;;;
       ret true)
    (emit (LogErrorMoving target) ;;;
     ret false).

(** The loop over the episodes of one season: the value of [moved] when the
    loop ends, and whether it ended on [break]. *)
Fixpoint move_episodes (cfg : Config) (episodes : list EpisodeData) (moved : bool)
  : M (bool * bool) :=
  match episodes with
  | [] => ret (moved, false)
  | episode :: rest =>
      season_dir <- get_season_dir cfg (series_name episode) (season_num episode) ;;
      moved' <- move_torrent_file cfg (filename episode) season_dir ;;
      if negb moved' then ret (moved', true)
      else move_episodes cfg rest moved'
  end.

(** The loop over the seasons, which stops as soon as an inner loop ended on
    [break]. *)
Fixpoint move_seasons (cfg : Config) (seasons_ : Seasons) (moved : bool) : M bool :=
  match seasons_ with
  | [] => ret moved
  | (_, episodes) :: rest =>
      r <- move_episodes cfg episodes moved ;;
      let '(moved', broke) := r in
      if broke then ret moved' else move_seasons cfg rest moved'
  end.

(** The chain of [if]/[elif] on the torrent type in [main]: the final value
    of [moved]. *)
Definition relocate (cfg : Config) (video_files : list File)
  (torrent_type : TorrentType) (type_data : TypeData) : M bool :=
  match torrent_type with
  | MOVIE =>
      match video_files with
      | first :: _ => move_torrent_file cfg (name first) (DIR_FILM cfg)
      | [] => lift (Raise IndexError)
      end
  | MOVIE_WITH_SAMPLE =>
      match video_files with
      | first :: second :: _ =>
          let video_file :=
            if (size first <? size second)%N then second else first in
          move_torrent_file cfg (name video_file) (DIR_FILM cfg)
      | _ => lift (Raise IndexError)
      end
  | EPISODE =>
      match type_data with
      | EpisodeInfo data =>
          season_dir <- get_season_dir cfg (series_name data) (season_num data) ;;
          move_torrent_file cfg (filename data) season_dir
      | _ => lift (Raise TypeError)
      end
  | SEASON | SERIES =>
      match type_data with
      | SeriesInfo data => move_seasons cfg (seasons data) false
      | _ => lift (Raise TypeError)
      end
  | UNKNOWN => ret false
  end.

(** The body of the [for torrent in ...] loop up to the test on [moved]:
    the final value of [moved]. *)
Definition process_torrent (cfg : Config) (torrent : Torrent) : M bool :=
  if existsb (status_eqb (status torrent)) TORRENT_COMPLETE_STATUS then
    let video_files := get_video_files (files torrent) in
    match video_files with
    | [] => ret false
    | _ :: _ =>
        classified <- lift (get_torrent_type cfg video_files) ;;
        let '(torrent_type, type_data) := classified in
        relocate cfg video_files torrent_type type_data
    end
  else ret false.

(** The [for torrent in ...] loop: [ids_to_remove] when it ends. *)
Fixpoint collect_ids (cfg : Config) (torrents : list Torrent) (ids_to_remove : list Z)
  : M (list Z) :=
  match torrents with
  | [] => ret ids_to_remove
  | torrent :: rest =>
      moved <- process_torrent cfg torrent ;;
      (if moved && is_finished torrent then
         emit LogTorrentFinished ;;;
         collect_ids cfg rest (ids_to_remove ++ [torrent_id torrent])
       else collect_ids cfg rest ids_to_remove)
  end.

(** [main], given what connecting to the client and listing its torrents
    yields ([None]: the connection failed). *)
Definition main (cfg : Config) (client : option (list Torrent)) : M Z :=
  match client with
  | None => ret 0%Z
  | Some torrents =>
      ids_to_remove <- collect_ids cfg torrents [] ;;
      (match ids_to_remove with
       | [] => ret tt
       | _ :: _ =>
           emit LogRemovingFinished ;;;
           dry <- is_dry_run cfg ;;
           if negb dry
           then call (CallRemoveTorrent ids_to_remove)
                     (fun w => remove_torrent sys w ids_to_remove) OSError
           else ret tt
       end) ;;;
      ret 0%Z
  end.

End Program.

Arguments world {sys} _.
Arguments trace {sys} _.
Arguments Build_State {sys} _ _.
Arguments ret {sys A} a st.
Arguments bind {sys A B} m k st.
Arguments lift {sys A} r st.
Arguments emit {sys} e st.
Arguments exists_ {sys} path st.
Arguments call {sys} e prim exn st.
Arguments try_except {sys A} body handler st.

(* ================================================================= *)
(** ** A concrete world, for running the model

    The world is the list of paths that exist.  Creating a directory and
    copying a file add a path; copying raises when the source is missing;
    removal requests always return. *)

Module Sim.

Definition paths := list str.

Definition has (w : paths) (path : str) : bool := existsb (Str.eqb path) w.

Definition sys : System := {|
  World := paths;
  path_exists := has;
  makedirs := fun w path => (path :: w, true);
  copyfile := fun w source target =>
                if has w source then (target :: w, true) else (w, false);
  remove_torrent := fun w ids => (w, true) |}.

Definition start (existing : list string) : State sys :=
  {| world := (map of_string existing : World sys); trace := [] |}.

Definition cfg : Config := default_config (of_string "/srv").

Definition file (n : string) (sz : N) : File := {| name := of_string n; size := sz |}.

End Sim.

(* ================================================================= *)
(** ** Vocabulary for traces and paths *)

Definition is_error (e : Event) : bool :=
  match e with LogErrorMoving _ => true | _ => false end.

(** No "Error moving" line among the events. *)
Definition quiet (evs : list Event) : Prop :=
  forallb (fun e => negb (is_error e)) evs = true.

(** No call to a mutating primitive among the events. *)
Definition harmless (evs : list Event) : Prop :=
  forallb (fun e => negb (is_mutation e)) evs = true.

(** An "Error moving" line, if any, is the last event. *)
Fixpoint error_only_last (evs : list Event) : bool :=
  match evs with
  | [] => true
  | e :: rest =>
      if is_error e then match rest with [] => true | _ :: _ => false end
      else error_only_last rest
  end.

Definition target_of (cfg : Config) (source_file target_dir : str) : str :=
  Path.join target_dir (Path.basename source_file).

Definition source_of (cfg : Config) (source_file : str) : str :=
  Path.join (DIR_DOWNLOAD cfg) source_file.

Definition season_dir_of (cfg : Config) (series_name_ season_num_ : str) : str :=
  Path.join3 (DIR_SERIES cfg) series_name_ (SEASON_PREFIX cfg ++ season_num_).

(** The state [st'] is what a relocation attempt that returned [True] left
    behind: the last thing done before [st'] was a successful
    [move_torrent_file]. *)
Definition last_attempt_succeeded (sys : System) (cfg : Config)
  (st' : State sys) : Prop :=
  exists source_file target_dir st,
    move_torrent_file sys cfg source_file target_dir st = (st', Ok true).

(** A computation that leaves the world alone and calls no mutating
    primitive, whatever it returns. *)
Definition dry_safe {sys : System} {A : Type} (m : M sys A) : Prop :=
  forall st st' r, m st = (st', r) ->
    world st' = world st /\
    exists evs, trace st' = trace st ++ evs /\ harmless evs.

(** A digit string left-padded with zeros to width two. *)
Definition zero_pad2 (digits : str) : str :=
  repeat "0"%char (2 - List.length digits) ++ digits.

Definition is_S (c : ascii) : bool := Ascii.eqb (lower c) "s"%char.
Definition is_E (c : ascii) : bool := Ascii.eqb (lower c) "e"%char.

(** [s] begins with an E (either case) and two digits. *)
Definition starts_with_Eyy (s : str) : bool :=
  match s with
  | e :: a :: b :: _ => is_E e && is_digit a && is_digit b
  | _ => false
  end.

(** [s] begins with an "SxxEyy" marker: an S (either case), one or two
    digits, an E and two digits. *)
Definition starts_with_SxxEyy (s : str) : bool :=
  match s with
  | c :: d1 :: r =>
      is_S c && is_digit d1
      && (starts_with_Eyy r
          || match r with
             | d2 :: r' => is_digit d2 && starts_with_Eyy r'
             | [] => false
             end)
  | _ => false
  end.

(** The first pattern without its leading lazy group. *)
Definition MARKER_SxxEyy : Re.pattern := tl PATTERN_SxxEyy.

(** The groups captured once the season digits [season] have been read and
    [rest] follows them: an E, the two episode digits and the rest of the
    line. *)
Definition groups_after_season (season rest : str) : option (list str) :=
  match rest with
  | e :: a :: b :: post =>
      if is_E e && is_digit a && is_digit b
      then Some [season; [a; b]; firstn (Re.run_length Re.CAny post) post]
      else None
  | _ => None
  end.

(** The groups captured by a marker at the head of [s]: the two-digit
    reading of the season is preferred to the one-digit reading. *)
Definition groups_of_marker (s : str) : option (list str) :=
  match s with
  | c :: d1 :: r =>
      if is_S c && is_digit d1 then
        match r with
        | d2 :: r' =>
            if is_digit d2 then
              match groups_after_season [d1; d2] r' with
              | Some g => Some g
              | None => groups_after_season [d1] r
              end
            else groups_after_season [d1] r
        | [] => None
        end
      else None
  | _ => None
  end.

(** The normalized size difference in the words of the specification:
    the difference of the sizes over the first size, times 100; its absolute
    value when it is negative; its tenth when it exceeds 100. *)
Definition normalized_size_diff (first second : N) : result Float.float :=
  do ratio <- Float.int_truediv (Z.of_N second - Z.of_N first) (Z.of_N first);
  let diff := Float.mul ratio (Float.of_Z 100) in
  Ok (if Float.ltb diff (Float.of_Z 0) then SFabs diff
      else if Float.ltb (Float.of_Z 100) diff
           then Float.div diff (Float.of_Z 10)
           else diff).

(** The raw percentage of the sample heuristic for a positive difference
    [x] and a first size [y], and its tenth. *)
Definition percent (x y : positive) : Float.float :=
  Float.mul (Float.div (Float.exact_of_Z (Zpos x)) (Float.exact_of_Z (Zpos y)))
            (Float.of_Z 100).

Definition tenth (p : Float.float) : Float.float := Float.div p (Float.of_Z 10).

(** A positive finite float in canonical form whose exponent is moderate. *)
Definition moderate (x : Float.float) : Prop :=
  exists m e, x = S754_finite false m e
              /\ bounded Float.prec Float.emax m e = true
              /\ (-200 <= e <= 200)%Z.

(** The verdict of the sample heuristic in exact integer arithmetic, for a
    first size [a > 0] and a second size [b]: with [d = (b - a) / a * 100],
    either [d < 0] and [|d| >= 90], or [0 <= d <= 100] and [d >= 90], or
    [d > 100] and [d / 10 >= 90]. *)
Definition exact_verdict (a b : Z) : bool :=
  ((10 * b <=? a) || ((19 * a <=? 10 * b) && (b <=? 2 * a)) || (10 * a <=? b))%Z.

(* ================================================================= *)
(** ** Vocabulary for the matcher *)

(** A piece of text fits an item: each of its characters is of the item's
    class, and its length is within the item's bounds. *)
Definition fits (it : Re.item) (chunk : str) : Prop :=
  forallb (Re.cmatch (Re.cls it)) chunk = true
  /\ Re.rmin it <= List.length chunk
  /\ match Re.rmax it with
     | Some m => List.length chunk <= m
     | None => True
     end.

(** Of the pieces read by the items of a pattern, those read by its
    capturing groups. *)
Fixpoint captured (p : Re.pattern) (chunks : list str) : list str :=
  match p, chunks with
  | it :: p', chunk :: chunks' =>
      if Re.capture it then chunk :: captured p' chunks'
      else captured p' chunks'
  | _, _ => []
  end.

(** What [get_episode_data] found in a name, without the name itself: the
    show, the season and the episode. *)
Definition identity (found : option EpisodeData) : option (str * str * str) :=
  match found with
  | Some d => Some (series_name d, season_num d, episode_num d)
  | None => None
  end.

(** A name with its ASCII capitals replaced by small letters. *)
Definition lower_case (s : str) : str := map lower s.

Definition is_x (c : ascii) : bool := Ascii.eqb (lower c) "x"%char.

(** No character of [s] is a newline: the class [.] accepts all of [s]. *)
Definition no_newline (s : str) : bool :=
  forallb (fun c => negb (Ascii.eqb c newline)) s.

(** [w] is the word [word], in any mix of capitals and small letters. *)
Definition spells (w : str) (word : string) : Prop :=
  lower_case w = lower_case (of_string word).

(* ================================================================= *)
(** ** Vocabulary for the grouping of episodes *)

(** The distinct elements of [l], each at the place of its first
    occurrence: the keys of a dictionary filled in the order of [l]. *)
Fixpoint first_occurrences (l : list str) : list str :=
  match l with
  | [] => []
  | k :: l' => k :: filter (fun k' => negb (Str.eqb k' k)) (first_occurrences l')
  end.

Definition in_season (key : str) (e : EpisodeData) : bool :=
  Str.eqb (season_num e) key.

(** The episodes grouped by season: the seasons in the order in which they
    first occur, each with its episodes in the order of the list. *)
Definition group_by_season (episodes : list EpisodeData) : Seasons :=
  map (fun key => (key, filter (in_season key) episodes))
      (first_occurrences (map season_num episodes)).

(** [get_episode_data] on the name of every file, when every name matches. *)
Fixpoint parse_all (cfg : Config) (video_files : list File)
  : option (list EpisodeData) :=
  match video_files with
  | [] => Some []
  | video_file :: rest =>
      match get_episode_data cfg (name video_file), parse_all cfg rest with
      | Some d, Some ds => Some (d :: ds)
      | _, _ => None
      end
  end.

(** Every episode is of the show [show]. *)
Definition all_of_show (show : str) (episodes : list EpisodeData) : Prop :=
  Forall (fun e => series_name e = show) episodes.

(** All the episodes are of the show of the first one. *)
Definition one_show (episodes : list EpisodeData) : Prop :=
  match episodes with
  | [] => True
  | first :: rest => all_of_show (series_name first) rest
  end.

(* ================================================================= *)
(** ** Vocabulary for paths and for the events of a job *)

(** A directory path ready to take a component: as it is when it is empty
    or ends with a separator, with a separator added otherwise. *)
Definition with_slash (dir : str) : str :=
  if (match dir with [] => true | _ => false end) || endswith_sep dir
  then dir else dir ++ [sep].

(** A path component that names an entry of the directory it is joined to:
    not empty, free of separators, and neither [.] nor [..]. *)
Definition is_plain_name (component : str) : bool :=
  negb (Str.eqb component [])
  && negb (existsb is_sep component)
  && negb (Str.eqb component (of_string "."))
  && negb (Str.eqb component (of_string "..")).

Definition is_removal (e : Event) : bool :=
  match e with CallRemoveTorrent _ => true | _ => false end.

(** The season directory of the episode found in the name of [f]. *)
Definition season_dir_of_file (cfg : Config) (f : File) (dir : str) : Prop :=
  exists d, get_episode_data cfg (name f) = Some d
            /\ dir = season_dir_of cfg (series_name d) (season_num d).

(** What relocating a job with the video files [video_files] may do: copy
    one of these files from the download directory, under its base name,
    into the film directory or into the season directory of its episode,
    and create such a season directory; it requests no removal. *)
Definition job_event (cfg : Config) (video_files : list File) (e : Event) : Prop :=
  match e with
  | CallCopyfile source target =>
      exists f, In f video_files
        /\ source = source_of cfg (name f)
        /\ (target = target_of cfg (name f) (DIR_FILM cfg)
            \/ exists dir, season_dir_of_file cfg f dir
                           /\ target = target_of cfg (name f) dir)
  | CallMakedirs path =>
      exists f, In f video_files /\ season_dir_of_file cfg f path
  | CallRemoveTorrent _ => False
  | _ => True
  end.

(** [l1] is [l2] with some elements left out. *)
Inductive subsequence {A : Type} : list A -> list A -> Prop :=
| subsequence_nil : subsequence [] []
| subsequence_skip (x : A) (l1 l2 : list A) :
    subsequence l1 l2 -> subsequence l1 (x :: l2)
| subsequence_keep (x : A) (l1 l2 : list A) :
    subsequence l1 l2 -> subsequence (x :: l1) (x :: l2).

(** The torrents that [main] looks at: complete, with a video file. *)
Definition is_candidate (torrent : Torrent) : bool :=
  existsb (status_eqb (status torrent)) TORRENT_COMPLETE_STATUS
  && match get_video_files (files torrent) with [] => false | _ :: _ => true end.

(** Every event of the computation satisfies [allowed]. *)
Definition emits {sys : System} {A : Type} (allowed : Event -> Prop)
  (m : M sys A) : Prop :=
  forall st st' r, m st = (st', r) ->
    exists evs, trace st' = trace st ++ evs /\ Forall allowed evs.

(** The last event of a trace is a call to [makedirs]. *)
Definition ends_with_makedirs (events : list Event) : Prop :=
  exists before dir, events = before ++ [CallMakedirs dir].

(** The episode [e] was found in the name of a file of [video_files]. *)
Definition episode_of_job (cfg : Config) (video_files : list File)
  (e : EpisodeData) : Prop :=
  exists f, In f video_files /\ get_episode_data cfg (name f) = Some e.

(** The log line that opens each relocation attempt of
    [move_torrent_file]: "Moving ..." or "... already exists". *)
Definition is_attempt (e : Event) : bool :=
  match e with
  | LogMoving _ _ | LogAlreadyExists _ => true
  | _ => false
  end.

(** The number of relocation attempts among the events. *)
Definition attempts (events : list Event) : nat :=
  List.length (filter is_attempt events).

(* ================================================================= *)
(** ** Loading the configuration

    [load_config] reads [config.yml] with [yaml.safe_load] and overwrites
    the module-level settings found in it.  The model starts from what
    [yaml.safe_load] returned: a Python value.  The operators [in] and
    [[...]] are modelled on such values, with the exceptions they raise. *)

Module Loader.

(** The values [yaml.safe_load] returns.  [VScalar] stands for a float, a
    date or a byte string: like [None], a boolean and an integer, none of
    them can be searched for a string nor subscripted by one. *)
Unset Elimination Schemes.

Inductive Value :=
| VNone
| VBool (b : bool)
| VInt (z : Z)
| VScalar
| VStr (s : str)
| VList (items : list Value)
| VSet (items : list Value)
| VDict (items : list (Value * Value)).

Set Elimination Schemes.

Inductive PyExn := PyTypeError | PyKeyError.

(** [v == key] for a string [key]. *)
Definition is_str (key : str) (v : Value) : bool :=
  match v with
  | VStr s => Str.eqb s key
  | _ => false
  end.

Fixpoint is_prefix (a s : str) : bool :=
  match a, s with
  | [], _ => true
  | x :: a', y :: s' => Ascii.eqb x y && is_prefix a' s'
  | _ :: _, [] => false
  end.

(** [a in s] on strings. *)
Fixpoint is_substring (a s : str) : bool :=
  is_prefix a s
  || match s with
     | [] => false
     | _ :: s' => is_substring a s'
     end.

(** [key in v]. *)
Definition contains (v : Value) (key : str) : bool + PyExn :=
  match v with
  | VDict items => inl (existsb (fun item => is_str key (fst item)) items)
  | VList items | VSet items => inl (existsb (is_str key) items)
  | VStr s => inl (is_substring key s)
  | VNone | VBool _ | VInt _ | VScalar => inr PyTypeError
  end.

(** [v[key]]. *)
Definition subscript (v : Value) (key : str) : Value + PyExn :=
  match v with
  | VDict items =>
      match find (fun item => is_str key (fst item)) items with
      | Some item => inl (snd item)
      | None => inr PyKeyError
      end
  | _ => inr PyTypeError
  end.

(** The module-level settings [load_config] declares [global]. *)
Record Settings := {
  TRANS_HOST : Value;
  TRANS_PORT : Value;
  TRANS_USER : Value;
  TRANS_PASS : Value;
  DIR_DOWNLOAD : Value;
  DIR_FILM : Value;
  DIR_SERIES : Value;
  SEASON_PREFIX : Value;
  STRIP_CHARS : Value }.

(** The settings as the script defines them, for a given [SCRIPT_PATH]. *)
Definition defaults (SCRIPT_PATH : str) : Settings := {|
  TRANS_HOST := VStr (of_string "localhost");
  TRANS_PORT := VInt 9091;
  TRANS_USER := VStr [];
  TRANS_PASS := VStr [];
  DIR_DOWNLOAD := VStr (Path.join SCRIPT_PATH (of_string "downloads"));
  DIR_FILM := VStr (Path.join SCRIPT_PATH (of_string "films"));
  DIR_SERIES := VStr (Path.join SCRIPT_PATH (of_string "series"));
  SEASON_PREFIX := VStr (of_string "s");
  STRIP_CHARS := VStr (of_string " ._-") |}.

Inductive Setting :=
| SetHost | SetPort | SetUser | SetPass
| SetDownload | SetFilm | SetSeries
| SetSeasonPrefix | SetStripChars.

Definition setting_eqb (a b : Setting) : bool :=
  match a, b with
  | SetHost, SetHost | SetPort, SetPort | SetUser, SetUser | SetPass, SetPass
  | SetDownload, SetDownload | SetFilm, SetFilm | SetSeries, SetSeries
  | SetSeasonPrefix, SetSeasonPrefix | SetStripChars, SetStripChars => true
  | _, _ => false
  end.

Definition get (which : Setting) (g : Settings) : Value :=
  match which with
  | SetHost => TRANS_HOST g
  | SetPort => TRANS_PORT g
  | SetUser => TRANS_USER g
  | SetPass => TRANS_PASS g
  | SetDownload => DIR_DOWNLOAD g
  | SetFilm => DIR_FILM g
  | SetSeries => DIR_SERIES g
  | SetSeasonPrefix => SEASON_PREFIX g
  | SetStripChars => STRIP_CHARS g
  end.

(** The assignment to one setting. *)
Definition assign (which : Setting) (v : Value) (g : Settings) : Settings :=
  match which with
  | SetHost =>
      Build_Settings v (TRANS_PORT g) (TRANS_USER g) (TRANS_PASS g)
        (DIR_DOWNLOAD g) (DIR_FILM g) (DIR_SERIES g) (SEASON_PREFIX g) (STRIP_CHARS g)
  | SetPort =>
      Build_Settings (TRANS_HOST g) v (TRANS_USER g) (TRANS_PASS g)
        (DIR_DOWNLOAD g) (DIR_FILM g) (DIR_SERIES g) (SEASON_PREFIX g) (STRIP_CHARS g)
  | SetUser =>
      Build_Settings (TRANS_HOST g) (TRANS_PORT g) v (TRANS_PASS g)
        (DIR_DOWNLOAD g) (DIR_FILM g) (DIR_SERIES g) (SEASON_PREFIX g) (STRIP_CHARS g)
  | SetPass =>
      Build_Settings (TRANS_HOST g) (TRANS_PORT g) (TRANS_USER g) v
        (DIR_DOWNLOAD g) (DIR_FILM g) (DIR_SERIES g) (SEASON_PREFIX g) (STRIP_CHARS g)
  | SetDownload =>
      Build_Settings (TRANS_HOST g) (TRANS_PORT g) (TRANS_USER g) (TRANS_PASS g)
        v (DIR_FILM g) (DIR_SERIES g) (SEASON_PREFIX g) (STRIP_CHARS g)
  | SetFilm =>
      Build_Settings (TRANS_HOST g) (TRANS_PORT g) (TRANS_USER g) (TRANS_PASS g)
        (DIR_DOWNLOAD g) v (DIR_SERIES g) (SEASON_PREFIX g) (STRIP_CHARS g)
  | SetSeries =>
      Build_Settings (TRANS_HOST g) (TRANS_PORT g) (TRANS_USER g) (TRANS_PASS g)
        (DIR_DOWNLOAD g) (DIR_FILM g) v (SEASON_PREFIX g) (STRIP_CHARS g)
  | SetSeasonPrefix =>
      Build_Settings (TRANS_HOST g) (TRANS_PORT g) (TRANS_USER g) (TRANS_PASS g)
        (DIR_DOWNLOAD g) (DIR_FILM g) (DIR_SERIES g) v (STRIP_CHARS g)
  | SetStripChars =>
      Build_Settings (TRANS_HOST g) (TRANS_PORT g) (TRANS_USER g) (TRANS_PASS g)
        (DIR_DOWNLOAD g) (DIR_FILM g) (DIR_SERIES g) (SEASON_PREFIX g) v
  end.

(** Statements that change the settings and may raise: the settings after
    the statement, and the exception if one was raised. *)
Definition Stmt := Settings -> Settings * option PyExn.

Definition skip : Stmt := fun g => (g, None).

Definition seq (a b : Stmt) : Stmt :=
  fun g =>
    match a g with
    | (g', None) => b g'
    | (g', Some e) => (g', Some e)
    end.

(** Evaluate [e], then run [k] on its value. *)
Definition eval {A : Type} (e : A + PyExn) (k : A -> Stmt) : Stmt :=
  fun g =>
    match e with
    | inl a => k a g
    | inr exn => (g, Some exn)
    end.

(** [if key in config[section]: SETTING = config[section][key]]. *)
Definition load_key (config : Value) (section key : str) (which : Setting) : Stmt :=
  eval (subscript config section) (fun table =>
  eval (contains table key) (fun present =>
  if present then
    eval (subscript config section) (fun table' =>
    eval (subscript table' key) (fun v =>
    fun g => (assign which v g, None)))
  else skip)).

(** The guarded assignments of one section, one after the other. *)
Definition load_keys (config : Value) (section : str)
  (keys : list (str * Setting)) : Stmt :=
  fold_right (fun key rest => seq (load_key config section (fst key) (snd key)) rest)
             skip keys.

(** [if section in config: ...]. *)
Definition load_section (config : Value) (section : str)
  (keys : list (str * Setting)) : Stmt :=
  eval (contains config section) (fun present =>
  if present then load_keys config section keys else skip).

Definition SECTIONS : list (str * list (str * Setting)) :=
  [(of_string "transmission",
    [(of_string "host", SetHost); (of_string "port", SetPort);
     (of_string "user", SetUser); (of_string "pass", SetPass)]);
   (of_string "directories",
    [(of_string "download", SetDownload); (of_string "film", SetFilm);
     (of_string "series", SetSeries)]);
   (of_string "misc",
    [(of_string "season_prefix", SetSeasonPrefix);
     (of_string "strip_chars", SetStripChars)])].

(** [load_config], given what [yaml.safe_load] returned for the
    configuration file ([None]: there is no such file). *)
Definition load_config (document : option Value) : Stmt :=
  match document with
  | None => skip
  | Some config =>
      fold_right (fun section rest =>
                    seq (load_section config (fst section) (snd section)) rest)
                 skip SECTIONS
  end.

(** The settings the classifier and the relocator read, when they are
    strings as the code expects, together with the [DRY_RUN] switch of the
    script. *)
Definition to_config (g : Settings) (dry_run : bool) : option Config :=
  match DIR_DOWNLOAD g, DIR_FILM g, DIR_SERIES g, SEASON_PREFIX g, STRIP_CHARS g with
  | VStr download, VStr film, VStr series, VStr prefix, VStr chars =>
      Some (Build_Config download film series prefix chars dry_run)
  | _, _, _, _, _ => None
  end.

(** The value at [section] / [key] of a configuration, if it is there. *)
Definition lookup (config : Value) (section key : str) : option Value :=
  match subscript config section with
  | inl table =>
      match contains table key with
      | inl true =>
          match subscript table key with
          | inl v => Some v
          | inr _ => None
          end
      | _ => None
      end
  | inr _ => None
  end.

(** [None], a boolean, a number and the like: [in] raises on them. *)
Definition is_scalar (v : Value) : bool :=
  match v with
  | VNone | VBool _ | VInt _ | VScalar => true
  | _ => false
  end.

(** A list, a set or a string: [in] searches them, [[...]] with a string
    raises on them. *)
Definition searchable (table : Value) : bool :=
  match table with
  | VList _ | VSet _ | VStr _ => true
  | _ => false
  end.

(** [key in v] is true. *)
Definition holds (v : Value) (key : str) : bool :=
  match contains v key with
  | inl present => present
  | inr _ => false
  end.

(** What the statements [if key in v: ... v[key] ...] need of [v], for the
    keys of [keys]: [v] is a mapping, or it is a list, a set or a string
    that holds none of the keys. *)
Definition loadable (v : Value) (keys : list str) : bool :=
  match v with
  | VDict _ => true
  | VList _ | VSet _ | VStr _ => forallb (fun key => negb (holds v key)) keys
  | VNone | VBool _ | VInt _ | VScalar => false
  end.

(** The section can be looked for in the configuration, and when it is
    found it is a table that can be searched for its keys. *)
Definition section_ok (config : Value) (section : str) (keys : list str) : bool :=
  match contains config section with
  | inr _ => false
  | inl false => true
  | inl true =>
      match subscript config section with
      | inl table => loadable table keys
      | inr _ => false
      end
  end.

Definition well_formed (config : Value) : bool :=
  forallb (fun section => section_ok config (fst section) (map fst (snd section)))
          SECTIONS.

(** The settings with the value of one key written over them, when the
    configuration holds that key. *)
Definition apply_key (config : Value) (section : str) (g : Settings)
  (key : str * Setting) : Settings :=
  match lookup config section (fst key) with
  | Some v => assign (snd key) v g
  | None => g
  end.

(** The settings with the values of one section written over them. *)
Definition apply_keys (config : Value) (section : str)
  (keys : list (str * Setting)) (g : Settings) : Settings :=
  fold_left (apply_key config section) keys g.

(** The settings with the values of the configuration written over them. *)
Definition overridden (config : Value) (g : Settings) : Settings :=
  fold_left (fun g section => apply_keys config (fst section) (snd section) g)
            SECTIONS g.

End Loader.

(* ================================================================= *)
(** ** Scenarios: concrete jobs, disks and runs *)

Module Scenario.

Import Sim.

Definition sample_job : list File := [file "sample.mkv" 100; file "movie.mkv" 1000].

(** A finished torrent of three episodes in two seasons. *)
Definition show_torrent : Torrent := {|
  torrent_id := 7;
  torrent_name := of_string "Show";
  status := SEEDING;
  files := [file "Show/Show.S01E01.mkv" 10; file "Show/Show.S01E02.mkv" 10;
            file "Show/Show.S02E01.mkv" 10; file "Show/Show.nfo" 1];
  is_finished := true |}.

(** All three downloads are on disk. *)
Definition complete_disk : State sys :=
  start ["/srv/downloads/Show/Show.S01E01.mkv"%string;
         "/srv/downloads/Show/Show.S01E02.mkv"%string;
         "/srv/downloads/Show/Show.S02E01.mkv"%string].

(** The second episode is missing from the download directory. *)
Definition incomplete_disk : State sys :=
  start ["/srv/downloads/Show/Show.S01E01.mkv"%string;
         "/srv/downloads/Show/Show.S02E01.mkv"%string].

Definition show_data : SeriesData :=
  match get_torrent_type cfg (get_video_files (files show_torrent)) with
  | Ok (_, SeriesInfo data) => data
  | _ => {| sd_series_name := None; seasons := []; seasons_count := 0 |}
  end.

Definition after_complete_run : State sys * result (list Z) :=
  collect_ids sys cfg [show_torrent] [] complete_disk.

Definition after_failed_run : State sys * result bool :=
  relocate sys cfg (get_video_files (files show_torrent)) SERIES
    (SeriesInfo show_data) incomplete_disk.

Definition already_placed : State sys :=
  start ["/srv/downloads/film.mkv"%string; "/srv/films/film.mkv"%string].

(** Two files whose second is half as big again as the first. *)
Definition half_bigger_job : list File := [file "a.mkv" 100; file "b.mkv" 150].

(** Two files beyond the integers a float holds exactly: the second is one
    byte more than twice the first. *)
Definition huge_job : list File :=
  [file "a.mkv" (2 ^ 53); file "b.mkv" (2 ^ 54 + 1)].

(** A film whose name carries a frame size. *)
Definition resolution_film : str := of_string "films/Film.1920x1080.mkv".

(** An episode named by the words. *)
Definition verbose_episode : str := of_string "Show - season 2 - Episode 5.avi".

(** Three episodes whose show names differ by a capital. *)
Definition mixed_job : list File :=
  [file "Show.S01E01.mkv" 10; file "show.S01E02.mkv" 10; file "Show.S01E03.mkv" 10].

(** A complete torrent whose first video file is empty. *)
Definition empty_file_torrent : Torrent := {|
  torrent_id := 9;
  torrent_name := of_string "Film";
  status := STOPPED;
  files := [file "Film/film.mkv" 0; file "Film/sample.mkv" 5];
  is_finished := true |}.

(** A torrent that is still downloading. *)
Definition downloading_torrent : Torrent := {|
  torrent_id := 8;
  torrent_name := of_string "Other";
  status := DOWNLOADING;
  files := [file "Other/Other.S01E01.mkv" 10];
  is_finished := false |}.

(** Two files of one base name in two directories, the first on disk. *)
Definition first_disc : str := of_string "cd1/film.mkv".
Definition second_disc : str := of_string "cd2/film.mkv".

Definition disc_on_disk : State sys := start ["/srv/downloads/cd1/film.mkv"%string].

(** A configuration file that sets the film directory and the season
    prefix, and holds an entry the script does not know. *)
Definition custom_config : Loader.Value :=
  Loader.VDict
    [(Loader.VStr (of_string "directories"),
      Loader.VDict [(Loader.VStr (of_string "film"),
                     Loader.VStr (of_string "/media/films"))]);
     (Loader.VStr (of_string "misc"),
      Loader.VDict [(Loader.VStr (of_string "season_prefix"),
                     Loader.VStr (of_string "Season "));
                    (Loader.VStr (of_string "colour"), Loader.VBool true)]);
     (Loader.VStr (of_string "extra"), Loader.VInt 1)].

(** A configuration file whose [directories] section has no entries. *)
Definition hollow_config : Loader.Value :=
  Loader.VDict
    [(Loader.VStr (of_string "transmission"),
      Loader.VDict [(Loader.VStr (of_string "host"),
                     Loader.VStr (of_string "nas"))]);
     (Loader.VStr (of_string "directories"), Loader.VNone)].

(** What [get_episode_data] finds in [tv/Show.3x07.mkv]. *)
Definition Show_3x07 : EpisodeData :=
  {| series_name := of_string "Show"; season_num := of_string "03";
     episode_num := of_string "07"; filename := of_string "tv/Show.3x07.mkv" |}.

(** The default settings with a season prefix that climbs out of the
    directory of the show. *)
Definition climbing_prefix_config : Config := {|
  DIR_DOWNLOAD := DIR_DOWNLOAD cfg;
  DIR_FILM := DIR_FILM cfg;
  DIR_SERIES := DIR_SERIES cfg;
  SEASON_PREFIX := of_string "../../etc/x";
  STRIP_CHARS := STRIP_CHARS cfg;
  DRY_RUN := DRY_RUN cfg |}.

(** The default settings with a strip set that leaves dots in place. *)
Definition dots_kept_config : Config := {|
  DIR_DOWNLOAD := DIR_DOWNLOAD cfg;
  DIR_FILM := DIR_FILM cfg;
  DIR_SERIES := DIR_SERIES cfg;
  SEASON_PREFIX := SEASON_PREFIX cfg;
  STRIP_CHARS := of_string " _-";
  DRY_RUN := DRY_RUN cfg |}.

(** The settings after loading [custom_config] over the defaults. *)
Definition custom_settings : Loader.Settings :=
  fst (Loader.load_config (Some custom_config) (Loader.defaults (of_string "/srv"))).

(** The run of the client's list with a downloading torrent before the
    finished show. *)
Definition after_mixed_run : State sys * result (list Z) :=
  collect_ids sys cfg [downloading_torrent; show_torrent] [] complete_disk.

(** The relocation of the show when all its downloads are on disk. *)
Definition after_complete_relocation : State sys * result bool :=
  relocate sys cfg (get_video_files (files show_torrent)) SERIES
    (SeriesInfo show_data) complete_disk.

End Scenario.

(* ================================================================= *)
(** * Properties *)

(** ** Strings and float operands *)

Lemma str_eqb_eq (a b : str) : Str.eqb a b = true <-> a = b.
Proof.
  revert b; induction a as [|x a IH]; intros [|y b]; simpl;
    try (split; congruence).
  rewrite andb_true_iff, Ascii.eqb_eq, IH. split.
  - intros [-> ->]; reflexivity.
  - intros E; injection E as -> ->; auto.
Qed.

Lemma str_eqb_refl (a : str) : Str.eqb a a = true.
Proof. apply str_eqb_eq; reflexivity. Qed.

Lemma int_truediv_by_zero (x : Z) :
  Float.int_truediv x 0 = Raise ZeroDivisionError.
Proof. reflexivity. Qed.

Lemma int_truediv_nonzero (x y : Z) :
  y <> 0%Z ->
  Float.int_truediv x y = Raise OverflowError \/
  exists q, Float.int_truediv x y = Ok q
            /\ q = Float.div (Float.exact_of_Z x) (Float.exact_of_Z y).
Proof.
  intros Hy. unfold Float.int_truediv.
  destruct (Z.eqb_spec y 0) as [E|_]; [contradiction|].
  destruct (Float.div _ _) eqn:D; eauto.
Qed.

Lemma int_truediv_zero_numerator (y : Z) :
  y <> 0%Z -> exists s, Float.int_truediv 0 y = Ok (S754_zero s).
Proof.
  intros Hy. unfold Float.int_truediv.
  destruct (Z.eqb_spec y 0) as [E|_]; [contradiction|].
  destruct y as [|p|p]; [contradiction| |]; cbn; eauto.
Qed.

(** The sample heuristic never signals a sample for two files of one size. *)
Lemma is_movie_with_sample_equal_sizes (first second : File) :
  size first = size second ->
  is_movie_with_sample [first; second] <> Ok true.
Proof.
  intros E. unfold is_movie_with_sample. rewrite E, Z.sub_diag.
  destruct (N.eq_dec (size second) 0) as [Z0|NZ].
  - rewrite Z0. cbn. discriminate.
  - destruct (int_truediv_zero_numerator (Z.of_N (size second))) as [s ->].
    + lia.
    + destruct s; cbn; discriminate.
Qed.

(** ** The backtracking matcher on the items of the patterns *)

Lemma first_some_some {A B : Type} (f : A -> option B) (l : list A) (b : B) :
  Re.first_some f l = Some b -> exists a, In a l /\ f a = Some b.
Proof.
  induction l as [|a l IH]; cbn; [discriminate|].
  destruct (f a) as [b'|] eqn:Fa.
  - intros E; injection E as <-. exists a; auto.
  - intros E. destruct (IH E) as [a' [? ?]]. exists a'; auto.
Qed.

Lemma first_some_head {A B : Type} (f : A -> option B) (a : A) (l : list A) (b : B) :
  f a = Some b -> Re.first_some f (a :: l) = Some b.
Proof. intros E. cbn. rewrite E. reflexivity. Qed.

(** On an ascending range the first success is the least one. *)
Lemma first_some_seq {B : Type} (f : nat -> option B) (len : nat) :
  forall (lo : nat) (b : B),
  Re.first_some f (seq lo len) = Some b ->
  exists n, lo <= n < lo + len /\ f n = Some b
            /\ forall m, lo <= m < n -> f m = None.
Proof.
  induction len as [|len IH]; intros lo b; cbn; [discriminate|].
  destruct (f lo) as [b'|] eqn:Flo.
  - intros E; injection E as <-. exists lo. repeat split; try lia. exact Flo.
  - intros E. destruct (IH _ _ E) as [n [Hn [Fn Hmin]]].
    exists n. repeat split; try lia; [exact Fn|].
    intros m Hm. destruct (Nat.eq_dec m lo) as [->|]; [exact Flo|].
    apply Hmin. lia.
Qed.

Lemma first_some_seq_none {B : Type} (f : nat -> option B) (len : nat) :
  forall lo, Re.first_some f (seq lo len) = None ->
  forall m, lo <= m < lo + len -> f m = None.
Proof.
  induction len as [|len IH]; intros lo; cbn; [intros; lia|].
  destruct (f lo) as [b'|] eqn:Flo; [discriminate|].
  intros E m Hm. destruct (Nat.eq_dec m lo) as [->|]; [exact Flo|].
  apply (IH _ E). lia.
Qed.

(** A single character of class [k]. *)
Lemma match_here_one (k : Re.cclass) (p : Re.pattern) (s : str) :
  Re.match_here (Re.one k :: p) s =
    match s with
    | c :: s' => if Re.cmatch k c then Re.match_here p s' else None
    | [] => None
    end.
Proof.
  destruct s as [|c s']; [reflexivity|].
  cbn [Re.match_here]. unfold Re.counts. cbn [Re.one Re.cls Re.rmax Re.rmin
    Re.greedy Re.capture Re.run_length].
  destruct (Re.cmatch k c); cbn; [|reflexivity].
  destruct (Re.match_here p s'); reflexivity.
Qed.

(** A captured run of one or two digits, the longer run first. *)
Lemma match_here_digits12 (p : Re.pattern) (s : str) :
  Re.match_here (Re.group (Re.rep Re.CDigit 1 2) :: p) s =
    match s with
    | d1 :: s1 =>
        if is_digit d1 then
          let short :=
            match Re.match_here p s1 with
            | Some g => Some ([d1] :: g)
            | None => None
            end in
          match s1 with
          | d2 :: s2 =>
              if is_digit d2 then
                match Re.match_here p s2 with
                | Some g => Some ([d1; d2] :: g)
                | None => short
                end
              else short
          | [] => short
          end
        else None
    | [] => None
    end.
Proof.
  destruct s as [|d1 [|d2 s2]]; [reflexivity| |];
    cbn [Re.match_here]; unfold Re.counts;
    cbn [Re.group Re.rep Re.cls Re.rmax Re.rmin Re.greedy Re.capture
         Re.run_length Re.cmatch];
    destruct (is_digit d1); try reflexivity.
  - cbn. destruct (Re.match_here p []); reflexivity.
  - destruct (is_digit d2); cbn.
    + destruct (Re.match_here p s2); [reflexivity|].
      destruct (Re.match_here p (d2 :: s2)); reflexivity.
    + destruct (Re.match_here p (d2 :: s2)); reflexivity.
Qed.

(** A captured run of exactly two digits. *)
Lemma match_here_digits22 (p : Re.pattern) (s : str) :
  Re.match_here (Re.group (Re.rep Re.CDigit 2 2) :: p) s =
    match s with
    | d1 :: d2 :: s2 =>
        if is_digit d1 && is_digit d2 then
          match Re.match_here p s2 with
          | Some g => Some ([d1; d2] :: g)
          | None => None
          end
        else None
    | _ => None
    end.
Proof.
  destruct s as [|d1 [|d2 s2]];
    cbn [Re.match_here]; unfold Re.counts;
    cbn [Re.group Re.rep Re.cls Re.rmax Re.rmin Re.greedy Re.capture
         Re.run_length Re.cmatch];
    try reflexivity.
  - destruct (is_digit d1); reflexivity.
  - destruct (is_digit d1); [|reflexivity].
    destruct (is_digit d2); [|reflexivity].
    cbn. destruct (Re.match_here p s2); reflexivity.
Qed.

(** A final captured greedy [.*] takes the rest of the line. *)
Lemma match_here_rest (s : str) :
  Re.match_here [Re.group (Re.star Re.CAny)] s =
    Some [firstn (Re.run_length Re.CAny s) s].
Proof.
  cbn [Re.match_here]. unfold Re.counts.
  cbn [Re.group Re.star Re.cls Re.rmax Re.rmin Re.greedy Re.capture].
  rewrite Nat.sub_0_r, seq_S, rev_app_distr. reflexivity.
Qed.

(** A leading captured lazy [.*?] tries every offset up to the end of the
    line, the nearest first. *)
Lemma match_here_lazy (p : Re.pattern) (s : str) :
  Re.match_here (Re.group (Re.star_lazy Re.CAny) :: p) s =
    Re.first_some
      (fun n => match Re.match_here p (skipn n s) with
                | Some g => Some (firstn n s :: g)
                | None => None
                end)
      (seq 0 (S (Re.run_length Re.CAny s))).
Proof. reflexivity. Qed.

(** ** The "SxxEyy" marker *)

Lemma is_S_cmatch (c : ascii) : Re.cmatch (Re.CChar "S") c = is_S c.
Proof. reflexivity. Qed.

Lemma is_E_cmatch (c : ascii) : Re.cmatch (Re.CChar "E") c = is_E c.
Proof. reflexivity. Qed.

Lemma is_E_not_digit (c : ascii) : is_E c = true -> is_digit c = false.
Proof.
  destruct c as [[] [] [] [] [] [] [] []]; cbn; try discriminate; reflexivity.
Qed.

Lemma match_after_season (season rest : str) :
  match Re.match_here
          (Re.lit "E" ++ [Re.group (Re.rep Re.CDigit 2 2);
                          Re.group (Re.star Re.CAny)]) rest with
  | Some g => Some (season :: g)
  | None => None
  end = groups_after_season season rest.
Proof.
  unfold groups_after_season.
  cbn [Re.lit map of_string list_ascii_of_string app].
  rewrite match_here_one.
  destruct rest as [|e rest]; [reflexivity|].
  rewrite is_E_cmatch.
  destruct (is_E e); [|destruct rest as [|? [|? ?]]; reflexivity].
  rewrite match_here_digits22.
  destruct rest as [|a [|b post]]; try reflexivity.
  cbn [andb]. destruct (is_digit a && is_digit b); [|reflexivity].
  rewrite match_here_rest. reflexivity.
Qed.

(** What the marker part of the first pattern computes. *)
Lemma match_marker (s : str) :
  Re.match_here MARKER_SxxEyy s = groups_of_marker s.
Proof.
  unfold MARKER_SxxEyy, PATTERN_SxxEyy, groups_of_marker.
  cbn [tl app Re.lit map of_string list_ascii_of_string].
  rewrite match_here_one.
  destruct s as [|c s1]; [reflexivity|].
  rewrite is_S_cmatch.
  destruct (is_S c); [|destruct s1; reflexivity].
  rewrite match_here_digits12.
  destruct s1 as [|d1 r]; [reflexivity|].
  cbn [andb]. destruct (is_digit d1); [|reflexivity].
  cbv zeta.
  destruct r as [|d2 r']; [rewrite match_here_one; reflexivity|].
  rewrite <- !match_after_season.
  cbn [Re.lit map of_string list_ascii_of_string app].
  destruct (is_digit d2); [|reflexivity].
  destruct (Re.match_here _ r'); reflexivity.
Qed.

Lemma groups_after_season_some (season rest : str) (g : list str) :
  groups_after_season season rest = Some g ->
  starts_with_Eyy rest = true /\
  exists episode tail_,
    g = [season; episode; tail_]
    /\ forallb is_digit episode = true /\ List.length episode = 2.
Proof.
  unfold groups_after_season, starts_with_Eyy.
  destruct rest as [|e [|a [|b post]]]; try discriminate.
  destruct (is_E e && is_digit a && is_digit b) eqn:C; [|discriminate].
  intros E; injection E as <-. split; [reflexivity|].
  apply andb_true_iff in C. destruct C as [C Hb].
  apply andb_true_iff in C. destruct C as [_ Ha].
  eexists _, _. split; [reflexivity|]. cbn. rewrite Ha, Hb. auto.
Qed.

Lemma groups_of_marker_some (s : str) (g : list str) :
  groups_of_marker s = Some g ->
  starts_with_SxxEyy s = true /\
  exists season episode tail_,
    g = [season; episode; tail_]
    /\ forallb is_digit season = true /\ 1 <= List.length season <= 2
    /\ forallb is_digit episode = true /\ List.length episode = 2.
Proof.
  unfold groups_of_marker, starts_with_SxxEyy.
  destruct s as [|c [|d1 r]]; try discriminate.
  destruct (is_S c && is_digit d1) eqn:C; [|discriminate].
  apply andb_true_iff in C. destruct C as [_ Hd1].
  destruct r as [|d2 r']; [discriminate|].
  assert (Hshort : groups_after_season [d1] (d2 :: r') = Some g ->
    (starts_with_Eyy (d2 :: r') || (is_digit d2 && starts_with_Eyy r')) = true /\
    exists season episode tail_,
      g = [season; episode; tail_]
      /\ forallb is_digit season = true /\ 1 <= List.length season <= 2
      /\ forallb is_digit episode = true /\ List.length episode = 2).
  { intros E. apply groups_after_season_some in E.
    destruct E as [-> [episode [tail_ [-> [? ?]]]]]. split; [reflexivity|].
    exists [d1], episode, tail_. cbn. rewrite Hd1. repeat split; auto. }
  destruct (is_digit d2) eqn:Hd2; [|exact Hshort].
  destruct (groups_after_season [d1; d2] r') as [g'|] eqn:G; [|exact Hshort].
  intros E; injection E as <-. apply groups_after_season_some in G.
  destruct G as [-> [episode [tail_ [-> [? ?]]]]]. split.
  - cbn. apply orb_true_r.
  - exists [d1; d2], episode, tail_. cbn. rewrite Hd1, Hd2. repeat split; auto.
Qed.

Lemma groups_of_marker_at (cS cE : ascii) (sd ed post : str) :
  is_S cS = true -> is_E cE = true ->
  forallb is_digit sd = true -> 1 <= List.length sd <= 2 ->
  forallb is_digit ed = true -> List.length ed = 2 ->
  groups_of_marker (cS :: sd ++ cE :: ed ++ post)
  = Some [sd; ed; firstn (Re.run_length Re.CAny post) post].
Proof.
  intros HS HE Hsd Lsd Hed Led.
  destruct ed as [|a [|b [|? ?]]]; cbn in Led; try lia.
  cbn in Hed. apply andb_true_iff in Hed. destruct Hed as [Ha Hb].
  apply andb_true_iff in Hb. destruct Hb as [Hb _].
  assert (Hafter : forall season,
    groups_after_season season (cE :: a :: b :: post)
    = Some [season; [a; b]; firstn (Re.run_length Re.CAny post) post]).
  { intros season. cbn. rewrite HE, Ha, Hb. reflexivity. }
  destruct sd as [|d1 [|d2 [|? ?]]]; cbn in Lsd; try lia;
    cbn in Hsd; apply andb_true_iff in Hsd; destruct Hsd as [Hd1 Hd2].
  - unfold groups_of_marker. cbn [app]. rewrite HS, Hd1. cbn [andb].
    rewrite (is_E_not_digit _ HE). apply Hafter.
  - apply andb_true_iff in Hd2. destruct Hd2 as [Hd2 _].
    unfold groups_of_marker. cbn [app]. rewrite HS, Hd1, Hd2. cbn [andb].
    rewrite (Hafter [d1; d2]). reflexivity.
Qed.

(** ** Searching for the first pattern *)

Lemma search_some (p : Re.pattern) (s : str) (g : list str) :
  Re.search p s = Some g ->
  exists n, Re.match_here p (skipn n s) = Some g.
Proof.
  induction s as [|c s IH]; cbn.
  - destruct (Re.match_here p []) eqn:E; [|discriminate].
    intros H. exists 0. cbn. congruence.
  - destruct (Re.match_here p (c :: s)) eqn:E.
    + intros H. exists 0. cbn. congruence.
    + intros H. destruct (IH H) as [n Hn]. exists (S n). exact Hn.
Qed.

Lemma search_app (p : Re.pattern) (pre s : str) (g : list str) :
  Re.match_here p s = Some g -> exists g', Re.search p (pre ++ s) = Some g'.
Proof.
  intros E. induction pre as [|c pre IH]; cbn [app].
  - exists g. destruct s; cbn; rewrite E; reflexivity.
  - cbn [Re.search]. destruct (Re.match_here p (c :: pre ++ s)) as [g'|].
    + exists g'. reflexivity.
    + exact IH.
Qed.

Lemma PATTERN_SxxEyy_split :
  PATTERN_SxxEyy = Re.group (Re.star_lazy Re.CAny) :: MARKER_SxxEyy.
Proof. reflexivity. Qed.

Lemma match_SxxEyy_some (s : str) (groups : list str) :
  Re.match_here PATTERN_SxxEyy s = Some groups ->
  exists n g, groups = firstn n s :: g
              /\ groups_of_marker (skipn n s) = Some g
              /\ forall m, m < n -> groups_of_marker (skipn m s) = None.
Proof.
  rewrite PATTERN_SxxEyy_split, match_here_lazy. intros E.
  apply first_some_seq in E. destruct E as [n [_ [Fn Hmin]]].
  rewrite match_marker in Fn.
  destruct (groups_of_marker (skipn n s)) as [g|] eqn:G; [|discriminate].
  injection Fn as <-. exists n, g.
  split; [reflexivity|split; [exact G|]].
  intros m Hm. specialize (Hmin m ltac:(lia)). rewrite match_marker in Hmin.
  destruct (groups_of_marker (skipn m s)); [discriminate|reflexivity].
Qed.

(** ** Two-digit rendering *)

Lemma is_digit_In (c : ascii) : is_digit c = true -> In c (of_string "0123456789").
Proof.
  destruct c as [[] [] [] [] [] [] [] []]; cbn; try discriminate; tauto.
Qed.

Lemma format_02d_one_digit (d : ascii) :
  is_digit d = true -> format_02d (int_of_digits [d]) = ["0"%char; d].
Proof.
  intros H. apply is_digit_In in H. cbn in H.
  repeat (destruct H as [<- | H]; [reflexivity|]). destruct H.
Qed.

Lemma format_02d_two_digits (a b : ascii) :
  is_digit a = true -> is_digit b = true ->
  format_02d (int_of_digits [a; b]) = [a; b].
Proof.
  intros Ha Hb. apply is_digit_In in Ha, Hb. cbn in Ha, Hb.
  repeat (destruct Ha as [<- | Ha];
          [repeat (destruct Hb as [<- | Hb]; [reflexivity|]); destruct Hb|]).
  destruct Ha.
Qed.

Lemma format_02d_digits (g : str) :
  forallb is_digit g = true -> 1 <= List.length g <= 2 ->
  format_02d (int_of_digits g) = zero_pad2 g
  /\ List.length (zero_pad2 g) = 2
  /\ forallb is_digit (zero_pad2 g) = true.
Proof.
  intros Hg Lg. destruct g as [|a [|b [|? ?]]]; cbn in Lg; try lia;
    cbn in Hg; apply andb_true_iff in Hg; destruct Hg as [Ha Hb].
  - rewrite (format_02d_one_digit _ Ha). cbn. rewrite Ha. auto.
  - apply andb_true_iff in Hb. destruct Hb as [Hb _].
    rewrite (format_02d_two_digits _ _ Ha Hb). cbn. rewrite Ha, Hb. auto.
Qed.

(** ** Stripping *)

Lemma lstrip_head (chars s : str) (c : ascii) (r : str) :
  lstrip chars s = c :: r -> mem c chars = false.
Proof.
  induction s as [|a s IH]; cbn; [discriminate|].
  destruct (mem a chars) eqn:Ma; [exact IH|].
  intros E; injection E as <- _. exact Ma.
Qed.

Lemma lstrip_suffix (chars s : str) : exists pre, s = pre ++ lstrip chars s.
Proof.
  induction s as [|a s [pre IH]]; cbn; [exists []; reflexivity|].
  destruct (mem a chars).
  - exists (a :: pre). cbn. rewrite <- IH. reflexivity.
  - exists []. reflexivity.
Qed.

Lemma lstrip_nil (chars s : str) :
  lstrip chars s = [] <-> forallb (fun c => mem c chars) s = true.
Proof.
  induction s as [|a s IH]; cbn; [tauto|].
  destruct (mem a chars); cbn; [exact IH|]. split; discriminate.
Qed.

Lemma rstrip_prefix (chars s : str) : exists suf, s = rstrip chars s ++ suf.
Proof.
  unfold rstrip. destruct (lstrip_suffix chars (rev s)) as [pre E].
  exists (rev pre). rewrite <- rev_app_distr, <- E, rev_involutive. reflexivity.
Qed.

Lemma strip_head (chars s : str) (c : ascii) (r : str) :
  strip chars s = c :: r -> mem c chars = false.
Proof.
  unfold strip. intros E.
  destruct (rstrip_prefix chars (lstrip chars s)) as [suf P].
  rewrite E in P. cbn in P. exact (lstrip_head _ _ _ _ P).
Qed.

Lemma strip_last (chars s init : str) (c : ascii) :
  strip chars s = init ++ [c] -> mem c chars = false.
Proof.
  unfold strip, rstrip. intros E.
  apply (f_equal (@rev ascii)) in E.
  rewrite rev_involutive, rev_app_distr in E. cbn in E.
  exact (lstrip_head _ _ _ _ E).
Qed.

Lemma strip_nil (chars s : str) :
  strip chars s = [] <-> forallb (fun c => mem c chars) s = true.
Proof.
  unfold strip, rstrip. rewrite <- lstrip_nil. split.
  - intros E. apply (f_equal (@rev ascii)) in E.
    rewrite rev_involutive in E. cbn in E.
    destruct (lstrip chars s) as [|c r] eqn:L; [reflexivity|].
    apply lstrip_nil in E. rewrite forallb_forall in E.
    pose proof (lstrip_head _ _ _ _ L) as Hc.
    rewrite (E c) in Hc; [discriminate|].
    rewrite <- in_rev. left; reflexivity.
  - intros ->. reflexivity.
Qed.

(** ** What the pattern matcher returns *)

Lemma get_episode_data_some (cfg : Config) (file : str) (d : EpisodeData) :
  get_episode_data cfg file = Some d ->
  exists pat g1 g2 g3 rest,
    In pat SERIES_PATTERNS
    /\ Re.search pat (Path.basename file) = Some (g1 :: g2 :: g3 :: rest)
    /\ d = {| series_name := strip (STRIP_CHARS cfg) g1;
              season_num := format_02d (int_of_digits g2);
              episode_num := format_02d (int_of_digits g3);
              filename := file |}.
Proof.
  unfold get_episode_data. intros E. apply first_some_some in E.
  destruct E as [pat [Hin E]].
  destruct (Re.search pat (Path.basename file)) as [groups|] eqn:S;
    [|discriminate].
  destruct groups as [|g1 [|g2 [|g3 rest]]]; try discriminate.
  injection E as <-. exists pat, g1, g2, g3, rest. auto.
Qed.

Lemma get_episode_data_SxxEyy (cfg : Config) (file : str) (g1 g2 g3 : str)
  (rest : list str) :
  Re.search PATTERN_SxxEyy (Path.basename file) = Some (g1 :: g2 :: g3 :: rest) ->
  get_episode_data cfg file =
    Some {| series_name := strip (STRIP_CHARS cfg) g1;
            season_num := format_02d (int_of_digits g2);
            episode_num := format_02d (int_of_digits g3);
            filename := file |}.
Proof.
  intros E. unfold get_episode_data, SERIES_PATTERNS. cbn [Re.first_some].
  rewrite E. reflexivity.
Qed.

(** ** The first pattern on a name that carries an "SxxEyy" marker *)

Lemma match_SxxEyy_at_marker (s : str) (g : list str) :
  groups_of_marker s = Some g ->
  Re.match_here PATTERN_SxxEyy s = Some ([] :: g).
Proof.
  intros G. rewrite PATTERN_SxxEyy_split, match_here_lazy. cbn [seq].
  apply first_some_head. cbn [skipn firstn]. rewrite match_marker, G.
  reflexivity.
Qed.

Lemma search_SxxEyy_some (s : str) (groups : list str) :
  Re.search PATTERN_SxxEyy s = Some groups ->
  exists g1 season episode tail_,
    groups = [g1; season; episode; tail_]
    /\ forallb is_digit season = true /\ 1 <= List.length season <= 2
    /\ forallb is_digit episode = true /\ List.length episode = 2.
Proof.
  intros E. apply search_some in E. destruct E as [n E].
  apply match_SxxEyy_some in E. destruct E as [k [g [-> [G _]]]].
  apply groups_of_marker_some in G.
  destruct G as [_ [season [episode [tail_ [-> H]]]]].
  eexists _, season, episode, tail_. split; [reflexivity|exact H].
Qed.

(** When no marker starts inside [pre], the search stops at the marker that
    follows [pre]. *)
Lemma search_SxxEyy_first (pre marked : str) (g : list str) :
  groups_of_marker marked = Some g ->
  (forall before after, pre = before ++ after -> after <> [] ->
     starts_with_SxxEyy (after ++ marked) = false) ->
  exists g1, Re.search PATTERN_SxxEyy (pre ++ marked) = Some (g1 :: g).
Proof.
  intros G. induction pre as [|c pre IH]; intros Hfirst.
  - exists []. cbn [app].
    pose proof (match_SxxEyy_at_marker _ _ G) as E.
    destruct marked; cbn [Re.search]; rewrite E; reflexivity.
  - cbn [app Re.search].
    destruct (Re.match_here PATTERN_SxxEyy (c :: pre ++ marked))
      as [groups|] eqn:E.
    + apply match_SxxEyy_some in E. destruct E as [n [g0 [-> [Gn Hmin]]]].
      change (c :: pre ++ marked) with ((c :: pre) ++ marked) in *.
      destruct (Nat.lt_trichotomy n (List.length (c :: pre))) as [Lt | [Eq | Gt]].
      * exfalso. apply groups_of_marker_some in Gn. destruct Gn as [St _].
        rewrite skipn_app in St.
        replace (n - List.length (c :: pre)) with 0 in St by lia.
        cbn [skipn] in St.
        rewrite (Hfirst (firstn n (c :: pre)) (skipn n (c :: pre))) in St.
        -- discriminate.
        -- symmetry. apply firstn_skipn.
        -- intros Hnil. apply (f_equal (@List.length ascii)) in Hnil.
           rewrite length_skipn in Hnil. cbn [List.length] in Hnil, Lt. lia.
      * subst n. rewrite skipn_app, skipn_all, Nat.sub_diag in Gn.
        cbn [skipn app] in Gn. rewrite G in Gn. injection Gn as <-.
        eexists. reflexivity.
      * exfalso. specialize (Hmin _ Gt).
        rewrite skipn_app, skipn_all, Nat.sub_diag in Hmin.
        cbn [skipn app] in Hmin. congruence.
    + apply IH. intros before after -> Hne.
      apply (Hfirst (c :: before) after); [reflexivity|exact Hne].
Qed.

(** C3, as the code has it.  When the base name of a file carries an
    "SxxEyy" marker whose season is written with one or two digits and whose
    episode is written with exactly two digits, the pattern matcher succeeds
    and returns a season and an episode of two digits each; when no other
    marker starts earlier in the base name, they are the season of the
    marker left-padded with a zero to width two and the episode of the
    marker. *)
Theorem SxxEyy_marker_gives_two_digit_numbers
  (cfg : Config) (file pre sd ed post : str) (cS cE : ascii) :
  Path.basename file = pre ++ cS :: sd ++ cE :: ed ++ post ->
  is_S cS = true -> is_E cE = true ->
  forallb is_digit sd = true -> 1 <= List.length sd <= 2 ->
  forallb is_digit ed = true -> List.length ed = 2 ->
  exists d,
    get_episode_data cfg file = Some d
    /\ filename d = file
    /\ List.length (season_num d) = 2 /\ forallb is_digit (season_num d) = true
    /\ List.length (episode_num d) = 2 /\ forallb is_digit (episode_num d) = true
    /\ ((forall before after, pre = before ++ after -> after <> [] ->
           starts_with_SxxEyy (after ++ cS :: sd ++ cE :: ed ++ post) = false) ->
        season_num d = zero_pad2 sd /\ episode_num d = ed).
Proof.
  intros Hbase HS HE Hsd Lsd Hed Led.
  pose proof (groups_of_marker_at cS cE sd ed post HS HE Hsd Lsd Hed Led) as G.
  destruct (search_app PATTERN_SxxEyy pre _ _ (match_SxxEyy_at_marker _ _ G))
    as [groups Hsearch].
  destruct (search_SxxEyy_some _ _ Hsearch)
    as [g1 [season [episode [tail_ [-> [Hs [Ls [He Le]]]]]]]].
  rewrite <- Hbase in Hsearch.
  destruct (format_02d_digits season Hs Ls) as [Fs [Ls2 Ds]].
  destruct (format_02d_digits episode He ltac:(lia)) as [Fe [Le2 De]].
  eexists. split; [exact (get_episode_data_SxxEyy cfg file _ _ _ _ Hsearch)|].
  cbn [filename season_num episode_num]. rewrite Fs, Fe.
  repeat (split; [assumption || reflexivity|]).
  intros Hfirst.
  destruct (search_SxxEyy_first pre _ _ G Hfirst) as [g1' Hsearch'].
  rewrite <- Hbase, Hsearch in Hsearch'. injection Hsearch' as _ -> -> _.
  split; [reflexivity|].
  unfold zero_pad2. rewrite Led. reflexivity.
Qed.

(** C5, as the code has it.  The show name the pattern matcher returns is
    its first group stripped of the strip set at both ends: it neither
    begins nor ends with a character of the strip set, and it is empty
    exactly when the first group consists of such characters only. *)
Theorem show_name_is_stripped (cfg : Config) (file : str) (d : EpisodeData) :
  get_episode_data cfg file = Some d ->
  (forall c rest, series_name d = c :: rest -> mem c (STRIP_CHARS cfg) = false)
  /\ (forall init c, series_name d = init ++ [c] ->
      mem c (STRIP_CHARS cfg) = false)
  /\ exists pat group1 others,
       In pat SERIES_PATTERNS
       /\ Re.search pat (Path.basename file) = Some (group1 :: others)
       /\ series_name d = strip (STRIP_CHARS cfg) group1
       /\ (series_name d = [] <->
           forallb (fun c => mem c (STRIP_CHARS cfg)) group1 = true).
Proof.
  intros E. apply get_episode_data_some in E.
  destruct E as [pat [g1 [g2 [g3 [rest [Hin [Hsearch ->]]]]]]].
  cbn [series_name]. split; [|split].
  - intros c r. apply strip_head.
  - intros init c. apply strip_last.
  - exists pat, g1, (g2 :: g3 :: rest).
    repeat (split; [assumption || reflexivity|]). apply strip_nil.
Qed.

(** ** The classifier reads only the strip set of the configuration *)

Lemma first_some_ext {A B : Type} (f g : A -> option B) (l : list A) :
  (forall a, f a = g a) -> Re.first_some f l = Re.first_some g l.
Proof.
  intros H. induction l as [|a l IH]; cbn; [reflexivity|].
  rewrite H, IH. reflexivity.
Qed.

Lemma get_episode_data_config (c1 c2 : Config) (file : str) :
  STRIP_CHARS c1 = STRIP_CHARS c2 ->
  get_episode_data c1 file = get_episode_data c2 file.
Proof.
  intros H. unfold get_episode_data. apply first_some_ext. intros pat.
  destruct (Re.search pat _) as [groups|]; [|reflexivity].
  unfold episode_of_match. rewrite H. reflexivity.
Qed.

Lemma get_series_loop_config (c1 c2 : Config) (video_files : list File) :
  STRIP_CHARS c1 = STRIP_CHARS c2 ->
  forall series_name_ seasons_,
    get_series_loop c1 video_files series_name_ seasons_
    = get_series_loop c2 video_files series_name_ seasons_.
Proof.
  intros H. induction video_files as [|f rest IH]; intros sn ss;
    cbn [get_series_loop]; [reflexivity|].
  rewrite (get_episode_data_config c1 c2 _ H).
  destruct (get_episode_data c2 (name f)) as [ed|]; [|reflexivity].
  destruct sn as [cur|]; [destruct (negb _)|]; auto.
Qed.

Lemma get_torrent_type_config (c1 c2 : Config) (video_files : list File) :
  STRIP_CHARS c1 = STRIP_CHARS c2 ->
  get_torrent_type c1 video_files = get_torrent_type c2 video_files.
Proof.
  intros H. unfold get_torrent_type, get_series_data.
  destruct video_files as [|f [|g rest]].
  - reflexivity.
  - rewrite (get_episode_data_config c1 c2 _ H). reflexivity.
  - rewrite (get_series_loop_config c1 c2 _ H). reflexivity.
Qed.

(** ** A file that matches no pattern *)

Lemma get_series_loop_all_match (cfg : Config) (video_files : list File) :
  forall series_name_ seasons_ r,
    get_series_loop cfg video_files series_name_ seasons_ = Ok (Some r) ->
    forall f, In f video_files -> get_episode_data cfg (name f) <> None.
Proof.
  induction video_files as [|g rest IH]; intros sn ss r E f Hin;
    [destruct Hin|].
  cbn [get_series_loop] in E.
  destruct (get_episode_data cfg (name g)) as [ed|] eqn:G; [|discriminate].
  destruct Hin as [<- | Hin]; [congruence|].
  destruct sn as [cur|].
  - destruct (negb _); [discriminate|]. exact (IH _ _ _ E f Hin).
  - exact (IH _ _ _ E f Hin).
Qed.

(** C1, as the code has it.  For a job of two or more video files one of
    which matches no series pattern: when the sample heuristic signals a
    sample the classifier returns [MOVIE_WITH_SAMPLE]; when it does not, the
    classifier returns no movie, episode, season or series: the only type it
    can return is [UNKNOWN], with no data. *)
Theorem unmatched_file_never_grouped (cfg : Config) (video_files : list File) :
  2 <= List.length video_files ->
  (exists f, In f video_files /\ get_episode_data cfg (name f) = None) ->
  (is_movie_with_sample video_files = Ok true ->
   get_torrent_type cfg video_files = Ok (MOVIE_WITH_SAMPLE, NoData))
  /\ (is_movie_with_sample video_files = Ok false ->
      forall torrent_type type_data,
        get_torrent_type cfg video_files = Ok (torrent_type, type_data) ->
        torrent_type = UNKNOWN /\ type_data = NoData).
Proof.
  intros Hlen [f [Hin Hnone]].
  destruct video_files as [|a [|b rest]]; cbn in Hlen; try lia.
  unfold get_torrent_type. split; intros ->; cbn [bind_result]; [reflexivity|].
  intros ty td. unfold get_series_data.
  destruct (get_series_loop cfg (a :: b :: rest) None []) as [[[sn ss]|]|e] eqn:L;
    cbn [bind_result].
  - exfalso. exact (get_series_loop_all_match _ _ _ _ _ L f Hin Hnone).
  - intros E; injection E as <- <-. split; reflexivity.
  - discriminate.
Qed.

(** ** Float arithmetic: digits, shifts and rounding *)

Module FloatFacts.

Local Open Scope Z_scope.

Lemma fexp_spec (e : Z) : SpecFloat.fexp Float.prec Float.emax e = fexp e.
Proof. reflexivity. Qed.

Lemma digits2_pos_size (p : positive) : digits2_pos p = Pos.size p.
Proof. induction p; simpl; congruence. Qed.

Lemma Zdigits2_bounds (m : Z) :
  0 < m -> 2 ^ (Zdigits2 m - 1) <= m < 2 ^ Zdigits2 m.
Proof.
  destruct m as [|p|p]; try lia. intros _. cbn [Zdigits2].
  rewrite digits2_pos_size.
  pose proof (Pos.size_gt p) as G. pose proof (Pos.size_le p) as L.
  apply Pos2Z.pos_lt_pos in G. apply Pos2Z.pos_le_pos in L.
  rewrite Pos2Z.inj_pow in G, L.
  replace (Z.pos (Pos.size p)) with (Z.succ (Z.pos (Pos.size p) - 1)) in L at 1 by lia.
  rewrite Z.pow_succ_r in L by lia. lia.
Qed.

Lemma Zdigits2_pos (m : Z) : 0 < m -> 0 < Zdigits2 m.
Proof. destruct m; try lia. intros _. cbn. lia. Qed.

Lemma Zdigits2_unique (m d : Z) :
  2 ^ (d - 1) <= m < 2 ^ d -> 0 < m -> Zdigits2 m = d.
Proof.
  intros [L U] Hm. pose proof (Zdigits2_bounds m Hm) as [L' U'].
  pose proof (Zdigits2_pos m Hm).
  assert (0 < d).
  { destruct (Z.lt_trichotomy d 0) as [N | [-> | P]]; [|cbn in U; lia|exact P].
    rewrite Z.pow_neg_r in U by lia. lia. }
  assert (Zdigits2 m - 1 < d).
  { apply (Z.pow_lt_mono_r_iff 2); lia. }
  assert (d - 1 < Zdigits2 m).
  { apply (Z.pow_lt_mono_r_iff 2); lia. }
  lia.
Qed.

Lemma Zdigits2_le (m m' : Z) : 0 < m <= m' -> Zdigits2 m <= Zdigits2 m'.
Proof.
  intros [Hm Hle]. pose proof (Zdigits2_bounds m Hm) as [L _].
  pose proof (Zdigits2_bounds m' ltac:(lia)) as [_ U'].
  pose proof (Zdigits2_pos m' ltac:(lia)).
  assert (Zdigits2 m - 1 < Zdigits2 m'); [|lia].
  apply (Z.pow_lt_mono_r_iff 2); lia.
Qed.

Lemma shr_1_spec (m : Z) (r s : bool) :
  0 <= m ->
  shr_1 {| shr_m := m; shr_r := r; shr_s := s |}
  = {| shr_m := m / 2; shr_r := Z.odd m; shr_s := r || s |}.
Proof.
  intros Hm. rewrite <- Z.div2_div.
  destruct m as [|[p|p|]|p]; try reflexivity. lia.
Qed.

Ltac bool_lia :=
  repeat match goal with
         | |- context [?a <=? ?b] => destruct (Z.leb_spec a b)
         | |- context [?a =? ?b] => destruct (Z.eqb_spec a b)
         end; cbn [negb andb orb]; try reflexivity; try lia.

(** Shifting by one bit is halving the scale of the fraction. *)
Lemma shr_1_code (A B : Z) :
  0 <= A -> 0 < B -> shr_1 (code A B) = code A (2 * B).
Proof.
  intros HA HB. unfold code.
  pose proof (Z.div_mod A B ltac:(lia)) as E.
  pose proof (Z.mod_pos_bound A B HB) as R.
  pose proof (Z.div_pos A B HA HB) as K.
  rewrite shr_1_spec by exact K.
  set (k := A / B) in *. set (r := A mod B) in *.
  destruct (Z.odd k) eqn:Odd.
  - apply Z.odd_spec in Odd. destruct Odd as [j Hj].
    assert (Hsplit : A = 2 * B * j + (B + r)) by (rewrite E, Hj; ring).
    assert (Hrange : 0 <= B + r < 2 * B) by lia.
    rewrite <- (Z.div_unique _ _ _ _ (or_introl Hrange) Hsplit).
    rewrite <- (Z.mod_unique _ _ _ _ (or_introl Hrange) Hsplit).
    replace (k / 2) with j
      by (apply (Z.div_unique k 2 j 1); lia).
    f_equal; bool_lia.
  - assert (Even : Z.even k = true) by (rewrite <- Z.negb_odd, Odd; reflexivity).
    apply Z.even_spec in Even. destruct Even as [j Hj].
    assert (Hsplit : A = 2 * B * j + r) by (rewrite E, Hj; ring).
    assert (Hrange : 0 <= r < 2 * B) by lia.
    rewrite <- (Z.div_unique _ _ _ _ (or_introl Hrange) Hsplit).
    rewrite <- (Z.mod_unique _ _ _ _ (or_introl Hrange) Hsplit).
    replace (k / 2) with j
      by (apply (Z.div_unique k 2 j 0); lia).
    f_equal; bool_lia.
Qed.

Lemma code_nonneg_den (B : Z) (n : positive) :
  0 < B -> 0 < 2 ^ Z.pos n * B.
Proof. intros. pose proof (Z.pow_pos_nonneg 2 (Z.pos n)). nia. Qed.

Lemma pow2_xO (n : positive) : 2 ^ Z.pos n~0 = 2 ^ Z.pos n * 2 ^ Z.pos n.
Proof.
  rewrite <- (Pos.add_diag n), Pos2Z.inj_add, Z.pow_add_r by lia. reflexivity.
Qed.

Lemma pow2_xI (n : positive) : 2 ^ Z.pos n~1 = 2 * (2 ^ Z.pos n * 2 ^ Z.pos n).
Proof.
  rewrite (Pos.xI_succ_xO n), Pos2Z.inj_succ, Z.pow_succ_r, pow2_xO by lia.
  reflexivity.
Qed.

Lemma iter_pos_shr_1_code (n : positive) :
  forall A B, 0 <= A -> 0 < B ->
  iter_pos shr_1 n (code A B) = code A (2 ^ Z.pos n * B).
Proof.
  induction n as [n IH|n IH|]; intros A B HA HB; cbn [iter_pos].
  - rewrite shr_1_code by assumption.
    rewrite IH by lia.
    rewrite IH by (try assumption; apply code_nonneg_den; lia).
    f_equal. rewrite pow2_xI. ring.
  - rewrite IH by assumption.
    rewrite IH by (try assumption; apply code_nonneg_den; lia).
    f_equal. rewrite pow2_xO. ring.
  - apply shr_1_code; assumption.
Qed.

(** Shifting a located fraction by [n] bits. *)
Lemma shr_code (A B e n : Z) :
  0 <= A -> 0 < B -> 0 <= n ->
  shr (code A B) e n = (code A (2 ^ n * B), e + n).
Proof.
  intros HA HB Hn. unfold shr. destruct n as [|p|p]; [| |lia].
  - rewrite Z.add_0_r. change (2 ^ 0) with 1. rewrite Z.mul_1_l. reflexivity.
  - rewrite iter_pos_shr_1_code by assumption. reflexivity.
Qed.

Lemma shr_nonpos (mrs : shr_record) (e n : Z) : n <= 0 -> shr mrs e n = (mrs, e).
Proof. intros Hn. unfold shr. destruct n; try reflexivity. lia. Qed.

Lemma shr_record_of_code (A B : Z) :
  0 < B -> shr_record_of_loc (A / B) (location_of A B) = code A B.
Proof.
  intros HB. unfold location_of, code.
  pose proof (Z.mod_pos_bound A B HB) as R.
  destruct (Z.eqb_spec (A mod B) 0) as [Z0|NZ]; cbn [shr_record_of_loc].
  - rewrite Z0. f_equal; bool_lia.
  - destruct (Z.compare_spec (2 * (A mod B)) B); cbn [shr_record_of_loc];
      f_equal; bool_lia.
Qed.

Lemma loc_of_code (A B : Z) :
  0 < B -> loc_of_shr_record (code A B) = location_of A B.
Proof.
  intros HB. unfold location_of, code, loc_of_shr_record.
  pose proof (Z.mod_pos_bound A B HB) as R.
  destruct (Z.eqb_spec (A mod B) 0) as [Z0|NZ].
  - rewrite Z0. replace (B <=? 2 * 0) with false by (symmetry; apply Z.leb_gt; lia).
    reflexivity.
  - destruct (Z.compare_spec (2 * (A mod B)) B) as [C|C|C].
    + replace (B <=? 2 * (A mod B)) with true by (symmetry; apply Z.leb_le; lia).
      replace (2 * (A mod B) =? B) with true by (symmetry; apply Z.eqb_eq; lia).
      reflexivity.
    + replace (B <=? 2 * (A mod B)) with false by (symmetry; apply Z.leb_gt; lia).
      replace (2 * (A mod B) =? B) with false by (symmetry; apply Z.eqb_neq; lia).
      reflexivity.
    + replace (B <=? 2 * (A mod B)) with true by (symmetry; apply Z.leb_le; lia).
      replace (2 * (A mod B) =? B) with false by (symmetry; apply Z.eqb_neq; lia).
      reflexivity.
Qed.

(** The location the division computes from the remainder. *)
Lemma new_location_of (A B : Z) :
  0 < B -> new_location B (A mod B) = location_of A B.
Proof.
  intros HB. unfold new_location, location_of, new_location_even, new_location_odd.
  pose proof (Z.mod_pos_bound A B HB) as R.
  destruct (Z.even B) eqn:Ev; [reflexivity|].
  destruct (Z.eqb_spec (A mod B) 0) as [Z0|NZ]; [reflexivity|].
  assert (Odd : Z.odd B = true) by (rewrite <- Z.negb_even, Ev; reflexivity).
  apply Z.odd_spec in Odd. destruct Odd as [j Hj].
  f_equal. destruct (Z.compare_spec (2 * (A mod B) + 1) B);
    destruct (Z.compare_spec (2 * (A mod B)) B); try reflexivity; lia.
Qed.

(** ** [binary_round_aux] on a located fraction *)

Local Notation "'BRA'" := (binary_round_aux Float.prec Float.emax).

Lemma BRA_code (s : bool) (A B e : Z) :
  0 <= A -> 0 < B ->
  let n := Z.max 0 (fexp (Zdigits2 (A / B) + e) - e) in
  BRA s (A / B) e (location_of A B)
  = finish s (nearest_even A (2 ^ n * B)) (e + n).
Proof.
  intros HA HB n. unfold binary_round_aux, finish, nearest_even.
  unfold shr_fexp at 1. rewrite fexp_spec, shr_record_of_code by exact HB.
  destruct (Z.max_spec 0 (fexp (Zdigits2 (A / B) + e) - e)) as [[Hn En]|[Hn En]];
    fold n in En; rewrite En.
  - assert (0 < 2 ^ (fexp (Zdigits2 (A / B) + e) - e) * B).
    { pose proof (Z.pow_pos_nonneg 2 (fexp (Zdigits2 (A / B) + e) - e)). nia. }
    rewrite shr_code by lia. cbn [shr_m].
    rewrite loc_of_code by assumption. reflexivity.
  - rewrite shr_nonpos by lia.
    change (2 ^ 0) with 1. rewrite Z.mul_1_l, Z.add_0_r. cbn [shr_m].
    rewrite loc_of_code by assumption. reflexivity.
Qed.

Lemma BRA_raw (s : bool) (A B e : Z) :
  0 <= A -> raw_ok A B e ->
  BRA s (A / B) e (location_of A B)
  = finish s (nearest_even A (2 ^ (cexp A B e - e) * B)) (cexp A B e).
Proof.
  intros HA [HB [Hk He]]. rewrite BRA_code by assumption. unfold cexp.
  rewrite Z.max_r by lia. f_equal. lia.
Qed.

Lemma nearest_even_bounds (A B : Z) :
  0 < B -> A / B <= nearest_even A B <= A / B + 1.
Proof.
  intros HB. unfold nearest_even, location_of, round_nearest_even.
  destruct (A mod B =? 0); [lia|].
  destruct (2 * (A mod B) ?= B); try lia.
  destruct (Z.even (A / B)); lia.
Qed.

Lemma nearest_even_exact (m : Z) : nearest_even m 1 = m.
Proof.
  unfold nearest_even, location_of. rewrite Z.mod_1_r, Z.div_1_r. reflexivity.
Qed.

(** ** The last stage *)

Lemma finish_zero (s : bool) (E : Z) : finish s 0 E = S754_zero s.
Proof.
  unfold finish, shr_fexp. cbn [Zdigits2 shr_record_of_loc].
  unfold shr. destruct (SpecFloat.fexp _ _ _ - E); try reflexivity.
  assert (H : forall p, shr_m (iter_pos shr_1 p
              {| shr_m := 0; shr_r := false; shr_s := false |}) = 0).
  { intros q. change {| shr_m := 0; shr_r := false; shr_s := false |} with (code 0 1).
    rewrite iter_pos_shr_1_code by lia. cbn [code shr_m]. apply Z.div_0_l.
    pose proof (Z.pow_pos_nonneg 2 (Z.pos q)). lia. }
  rewrite H. reflexivity.
Qed.

Lemma finish_small (s : bool) (p : positive) (E : Z) :
  Z.pos p < 2 ^ 53 -> emin <= E ->
  finish s (Z.pos p) E =
    if E <=? Float.emax - Float.prec then S754_finite s p E else S754_infinity s.
Proof.
  intros Hp HE. unfold finish, shr_fexp. rewrite fexp_spec.
  assert (Zdigits2 (Z.pos p) <= 53).
  { pose proof (Zdigits2_bounds (Z.pos p) ltac:(lia)) as [L _].
    assert (Zdigits2 (Z.pos p) - 1 < 53); [|lia].
    apply (Z.pow_lt_mono_r_iff 2); lia. }
  rewrite shr_nonpos by (unfold fexp; lia). reflexivity.
Qed.

Lemma finish_carry (s : bool) (E : Z) :
  emin <= E ->
  finish s (2 ^ 53) E =
    if E + 1 <=? Float.emax - Float.prec
    then S754_finite s (2 ^ 52)%positive (E + 1) else S754_infinity s.
Proof.
  intros HE. unfold finish, shr_fexp. rewrite fexp_spec.
  replace (fexp (Zdigits2 (2 ^ 53) + E) - E) with 1
    by (change (Zdigits2 (2 ^ 53)) with 54; unfold fexp; lia).
  reflexivity.
Qed.

(** ** The mantissa at the rounding exponent *)

Lemma cexp_facts (A B e : Z) :
  0 <= A -> raw_ok A B e ->
  let E := cexp A B e in
  let k1 := A / (2 ^ (E - e) * B) in
  e <= E /\ emin <= E /\ 0 < 2 ^ (E - e) * B
  /\ 0 <= k1 < 2 ^ 53
  /\ (emin < E -> 2 ^ 52 <= k1).
Proof.
  intros HA [HB [Hk He]] E k1. unfold cexp in E.
  pose proof (Zdigits2_bounds _ Hk) as [L U].
  pose proof (Zdigits2_pos _ Hk) as Dpos.
  set (d := Zdigits2 (A / B)) in *.
  assert (HE : e <= E) by exact He.
  assert (Hmin : emin <= E) by (unfold E, fexp; lia).
  assert (Hp : 0 < 2 ^ (E - e)) by (apply Z.pow_pos_nonneg; lia).
  assert (Hden : 0 < 2 ^ (E - e) * B) by nia.
  assert (Hk1 : k1 = (A / B) / 2 ^ (E - e)).
  { unfold k1. rewrite (Z.mul_comm (2 ^ (E - e)) B).
    rewrite Z.div_div by lia. reflexivity. }
  repeat split; try assumption.
  - rewrite Hk1. apply Z.div_pos; lia.
  - rewrite Hk1. apply Z.div_lt_upper_bound; [lia|].
    rewrite <- Z.pow_add_r by lia.
    apply Z.lt_le_trans with (1 := U).
    apply Z.pow_le_mono_r; [lia|]. unfold E, fexp. lia.
  - intros Hnormal. rewrite Hk1.
    assert (EE : E = d + e - 53) by (unfold E, fexp in *; lia).
    apply Z.div_le_lower_bound; [lia|].
    rewrite Z.mul_comm, <- Z.pow_add_r by lia.
    replace (52 + (E - e)) with (d - 1) by lia. exact L.
Qed.

Lemma valid_finish (m E : Z) (s : bool) :
  emin <= E -> 0 <= m <= 2 ^ 53 -> (emin < E -> 2 ^ 52 <= m) ->
  valid_binary Float.prec Float.emax (finish s m E) = true.
Proof.
  intros HE [H0 H1] Hn.
  destruct (Z.eq_dec m (2 ^ 53)) as [->|Hne].
  - rewrite finish_carry by assumption.
    destruct (Z.leb_spec (E + 1) (Float.emax - Float.prec)); [|reflexivity].
    cbn [valid_binary]. unfold bounded, canonical_mantissa.
    rewrite fexp_spec. change (Z.pos (digits2_pos (2 ^ 52))) with 53.
    apply andb_true_iff. split; [apply Z.eqb_eq; unfold fexp; lia|apply Z.leb_le; lia].
  - destruct m as [|p|p]; [rewrite finish_zero; reflexivity| |lia].
    rewrite finish_small by lia.
    destruct (Z.leb_spec E (Float.emax - Float.prec)); [|reflexivity].
    cbn [valid_binary]. unfold bounded, canonical_mantissa.
    rewrite fexp_spec.
    apply andb_true_iff. split; [|apply Z.leb_le; lia].
    apply Z.eqb_eq.
    change (Z.pos (digits2_pos p)) with (Zdigits2 (Z.pos p)).
    pose proof (Zdigits2_bounds (Z.pos p) ltac:(lia)) as [L U].
    assert (Zdigits2 (Z.pos p) <= 53).
    { assert (Zdigits2 (Z.pos p) - 1 < 53); [|lia].
      apply (Z.pow_lt_mono_r_iff 2); lia. }
    destruct (Z.eq_dec E emin) as [->|]; [unfold fexp; lia|].
    assert (53 <= Zdigits2 (Z.pos p)).
    { assert (52 < Zdigits2 (Z.pos p)); [|lia].
      apply (Z.pow_lt_mono_r_iff 2); try lia.
      pose proof (Zdigits2_pos (Z.pos p)). lia. }
    unfold fexp. lia.
Qed.

Lemma BRA_valid (s : bool) (A B e : Z) :
  0 <= A -> raw_ok A B e ->
  valid_binary Float.prec Float.emax (BRA s (A / B) e (location_of A B)) = true.
Proof.
  intros HA Hok. rewrite BRA_raw by assumption.
  destruct (cexp_facts A B e HA Hok) as [He [Hmin [Hden [[K0 K1] Kn]]]].
  pose proof (nearest_even_bounds A (2 ^ (cexp A B e - e) * B) Hden).
  apply valid_finish; try assumption; lia.
Qed.

(** ** Rounding is monotone *)

Lemma nearest_even_mono (A B A' B' : Z) :
  0 < B -> 0 < B' -> A * B' <= A' * B ->
  nearest_even A B <= nearest_even A' B'.
Proof.
  intros HB HB' Hle.
  pose proof (Z.div_mod A B ltac:(lia)) as E.
  pose proof (Z.mod_pos_bound A B HB) as R.
  pose proof (Z.div_mod A' B' ltac:(lia)) as E'.
  pose proof (Z.mod_pos_bound A' B' HB') as R'.
  pose proof (nearest_even_bounds A B HB) as N.
  pose proof (nearest_even_bounds A' B' HB') as N'.
  assert (Hk : A / B <= A' / B').
  { destruct (Z.le_gt_cases (A / B) (A' / B')) as [|Hgt]; [assumption|exfalso].
    assert (H1 : A' / B' + 1 <= A / B) by lia.
    assert (H2 : B * B' * (A' / B' + 1) <= B * B' * (A / B)).
    { apply Z.mul_le_mono_nonneg_l; [nia|exact H1]. }
    assert (H3 : A' * B < B * B' * (A' / B' + 1)).
    { rewrite E' at 1. nia. }
    assert (H4 : B * B' * (A / B) <= A * B').
    { rewrite E at 2. nia. }
    lia. }
  destruct (Z.eq_dec (A / B) (A' / B')) as [Heq|Hne]; [|lia].
  assert (Hr : (A mod B) * B' <= (A' mod B') * B) by nia.
  unfold nearest_even, location_of, round_nearest_even in *.
  rewrite <- Heq in *.
  destruct (Z.eqb_spec (A mod B) 0) as [Z0|NZ];
    destruct (Z.eqb_spec (A' mod B') 0) as [Z0'|NZ'];
    try destruct (Z.compare_spec (2 * (A mod B)) B);
    try destruct (Z.compare_spec (2 * (A' mod B')) B');
    try destruct (Z.even (A / B)); try lia; nia.
Qed.

Lemma SFleb_same_exponent (p q : positive) (e : Z) :
  Z.pos p <= Z.pos q ->
  SFleb (S754_finite false p e) (S754_finite false q e) = true.
Proof.
  intros H. unfold SFleb. cbn [SFcompare]. rewrite Z.compare_refl.
  change (Pos.compare_cont Eq p q) with (Pos.compare p q).
  destruct (Pos.compare_spec p q); try reflexivity. lia.
Qed.

Lemma SFleb_lower_exponent (p q : positive) (e e' : Z) :
  e < e' -> SFleb (S754_finite false p e) (S754_finite false q e') = true.
Proof.
  intros H. unfold SFleb. cbn [SFcompare].
  replace (e ?= e') with Lt by (symmetry; apply Z.compare_lt_iff; lia).
  reflexivity.
Qed.

Lemma finish_le_same (m m' E : Z) :
  emin <= E -> 0 <= m <= m' -> m' <= 2 ^ 53 ->
  SFleb (finish false m E) (finish false m' E) = true.
Proof.
  intros HE [H0 Hle] H1.
  destruct (Z.eq_dec m' (2 ^ 53)) as [->|Hne'].
  - rewrite (finish_carry false E HE).
    destruct (Z.eq_dec m (2 ^ 53)) as [->|Hne].
    + rewrite (finish_carry false E HE).
      destruct (E + 1 <=? _); [apply SFleb_same_exponent; lia|reflexivity].
    + destruct m as [|p|p]; [rewrite finish_zero| |lia].
      * destruct (E + 1 <=? _); reflexivity.
      * rewrite finish_small by lia.
        destruct (Z.leb_spec (E + 1) (Float.emax - Float.prec));
          destruct (Z.leb_spec E (Float.emax - Float.prec));
          try reflexivity; try lia.
        apply SFleb_lower_exponent. lia.
  - destruct m' as [|p'|p']; [| |lia].
    + replace m with 0 by lia. rewrite finish_zero. reflexivity.
    + rewrite (finish_small false p') by lia.
      destruct m as [|p|p]; [rewrite finish_zero| |lia].
      * destruct (E <=? _); reflexivity.
      * rewrite finish_small by lia.
        destruct (E <=? _); [|reflexivity].
        apply SFleb_same_exponent. lia.
Qed.

Lemma finish_le_lower (m m' E E' : Z) :
  emin <= E -> E < E' -> 0 <= m <= 2 ^ 53 -> 2 ^ 52 <= m' <= 2 ^ 53 ->
  SFleb (finish false m E) (finish false m' E') = true.
Proof.
  intros HE Hlt [H0 H1] [H0' H1'].
  assert (Hright : forall x,
    x = S754_zero false
    \/ (exists p e, x = S754_finite false p e /\ e < E')
    \/ (exists p, x = S754_finite false p E' /\ Z.pos p = 2 ^ 52)
    \/ (x = S754_infinity false /\ Float.emax - Float.prec < E') ->
    SFleb x (finish false m' E') = true).
  { intros x Hx.
    destruct (Z.eq_dec m' (2 ^ 53)) as [->|Hne'].
    - rewrite finish_carry by lia.
      destruct (Z.leb_spec (E' + 1) (Float.emax - Float.prec)).
      + destruct Hx as [-> | [[p [e [-> He]]] | [[p [-> Hp]] | [-> Hov]]]];
          try reflexivity; try lia; apply SFleb_lower_exponent; lia.
      + destruct Hx as [-> | [[p [e [-> He]]] | [[p [-> Hp]] | [-> Hov]]]];
          reflexivity.
    - destruct m' as [|p'|p']; try lia.
      rewrite finish_small by lia.
      destruct (Z.leb_spec E' (Float.emax - Float.prec)).
      + destruct Hx as [-> | [[p [e [-> He]]] | [[p [-> Hp]] | [-> Hov]]]];
          try reflexivity; try lia.
        * apply SFleb_lower_exponent; lia.
        * apply SFleb_same_exponent; lia.
      + destruct Hx as [-> | [[p [e [-> He]]] | [[p [-> Hp]] | [-> Hov]]]];
          reflexivity. }
  apply Hright.
  destruct (Z.eq_dec m (2 ^ 53)) as [->|Hne].
  - rewrite finish_carry by lia.
    destruct (Z.leb_spec (E + 1) (Float.emax - Float.prec)).
    + destruct (Z.eq_dec (E + 1) E') as [<-|].
      * right; right; left. eexists; split; reflexivity.
      * right; left. eexists _, _; split; [reflexivity|lia].
    + right; right; right. split; [reflexivity|lia].
  - destruct m as [|p|p]; try lia.
    + rewrite finish_zero. left; reflexivity.
    + rewrite finish_small by lia.
      destruct (Z.leb_spec E (Float.emax - Float.prec)).
      * right; left. exists p, E. split; [reflexivity|lia].
      * right; right; right. split; [reflexivity|lia].
Qed.

Lemma raw_le_digits (A B e A' B' e' : Z) :
  0 <= A -> 0 <= A' -> raw_ok A B e -> raw_ok A' B' e' ->
  raw_le A B e A' B' e' ->
  Zdigits2 (A / B) + e <= Zdigits2 (A' / B') + e'.
Proof.
  intros HA HA' [HB [Hk _]] [HB' [Hk' _]] Hle. unfold raw_le in Hle.
  pose proof (Zdigits2_bounds _ Hk) as [L _].
  pose proof (Zdigits2_bounds _ Hk') as [_ U'].
  pose proof (Zdigits2_pos _ Hk) as Dp.
  pose proof (Zdigits2_pos _ Hk') as Dp'.
  set (d := Zdigits2 (A / B)) in *. set (d' := Zdigits2 (A' / B')) in *.
  set (z := Z.min e e') in *.
  assert (Hz : z <= e /\ z <= e') by (unfold z; lia).
  assert (HP : 0 < 2 ^ (e - z)) by (apply Z.pow_pos_nonneg; lia).
  assert (HP' : 0 < 2 ^ (e' - z)) by (apply Z.pow_pos_nonneg; lia).
  assert (H1 : B * 2 ^ (d - 1) <= A).
  { pose proof (Z.mul_div_le A B HB). nia. }
  assert (H2 : A' < B' * 2 ^ d').
  { pose proof (Z.mul_succ_div_gt A' B' HB'). nia. }
  assert (H3 : 2 ^ (d - 1) * 2 ^ (e - z) < 2 ^ d' * 2 ^ (e' - z)).
  { assert (B * B' * (2 ^ (d - 1) * 2 ^ (e - z)) < B * B' * (2 ^ d' * 2 ^ (e' - z))).
    { apply Z.le_lt_trans with (A * B' * 2 ^ (e - z)).
      - replace (B * B' * (2 ^ (d - 1) * 2 ^ (e - z)))
          with (B * 2 ^ (d - 1) * (B' * 2 ^ (e - z))) by ring.
        replace (A * B' * 2 ^ (e - z)) with (A * (B' * 2 ^ (e - z))) by ring.
        apply Z.mul_le_mono_nonneg_r; [nia|exact H1].
      - apply Z.le_lt_trans with (1 := Hle).
        replace (B * B' * (2 ^ d' * 2 ^ (e' - z)))
          with (B' * 2 ^ d' * (B * 2 ^ (e' - z))) by ring.
        replace (A' * B * 2 ^ (e' - z)) with (A' * (B * 2 ^ (e' - z))) by ring.
        apply Z.mul_lt_mono_pos_r; [nia|exact H2]. }
    apply Z.mul_lt_mono_pos_l with (p := B * B'); [nia|assumption]. }
  rewrite <- !Z.pow_add_r in H3 by lia.
  apply (Z.pow_lt_mono_r_iff 2) in H3; lia.
Qed.

Lemma raw_le_common (A B e A' B' e' E : Z) :
  e <= E -> e' <= E -> 0 < B -> 0 < B' ->
  raw_le A B e A' B' e' ->
  A * (2 ^ (E - e') * B') <= A' * (2 ^ (E - e) * B).
Proof.
  intros He He' HB HB' Hle. unfold raw_le in Hle.
  set (z := Z.min e e') in *. set (x := Z.max e e').
  assert (Hx : 0 <= E - x) by (unfold x; lia).
  assert (Hzx : z + x = e + e') by (unfold z, x; lia).
  assert (HQ : 0 < 2 ^ (E - x)) by (apply Z.pow_pos_nonneg; lia).
  replace (E - e') with ((e - z) + (E - x)) by lia.
  replace (E - e) with ((e' - z) + (E - x)) by lia.
  rewrite !Z.pow_add_r by (unfold z in *; lia).
  replace (A * (2 ^ (e - z) * 2 ^ (E - x) * B'))
    with (A * B' * 2 ^ (e - z) * 2 ^ (E - x)) by ring.
  replace (A' * (2 ^ (e' - z) * 2 ^ (E - x) * B))
    with (A' * B * 2 ^ (e' - z) * 2 ^ (E - x)) by ring.
  apply Z.mul_le_mono_nonneg_r; [lia|exact Hle].
Qed.

(** Rounding two fit inputs keeps their order. *)
Theorem BRA_mono (A B e A' B' e' : Z) :
  0 <= A -> 0 <= A' -> raw_ok A B e -> raw_ok A' B' e' ->
  raw_le A B e A' B' e' ->
  SFleb (BRA false (A / B) e (location_of A B))
        (BRA false (A' / B') e' (location_of A' B')) = true.
Proof.
  intros HA HA' Hok Hok' Hle.
  pose proof (raw_le_digits _ _ _ _ _ _ HA HA' Hok Hok' Hle) as HG.
  rewrite !BRA_raw by assumption.
  destruct (cexp_facts A B e HA Hok) as [He [Hmin [Hden [[K0 K1] Kn]]]].
  destruct (cexp_facts A' B' e' HA' Hok') as [He' [Hmin' [Hden' [[K0' K1'] Kn']]]].
  pose proof (nearest_even_bounds A _ Hden) as N.
  pose proof (nearest_even_bounds A' _ Hden') as N'.
  assert (HE : cexp A B e <= cexp A' B' e') by (unfold cexp, fexp in *; lia).
  destruct (Z.eq_dec (cexp A B e) (cexp A' B' e')) as [Heq|Hne].
  - rewrite <- Heq in *. apply finish_le_same; [assumption| |lia].
    split; [lia|]. apply nearest_even_mono; try assumption.
    destruct Hok as [HB _], Hok' as [HB' _].
    apply raw_le_common; assumption.
  - apply finish_le_lower; try assumption; try lia.
Qed.

(** ** Division and multiplication as roundings of located fractions *)

Lemma SFdiv_finite (s1 s2 : bool) (m1 m2 : positive) (e1 e2 : Z) :
  SFdiv Float.prec Float.emax (S754_finite s1 m1 e1) (S754_finite s2 m2 e2)
  = BRA (xorb s1 s2)
      (div_num (Z.pos m1) e1 (Z.pos m2) e2 / Z.pos m2)
      (div_exp (Z.pos m1) e1 (Z.pos m2) e2)
      (location_of (div_num (Z.pos m1) e1 (Z.pos m2) e2) (Z.pos m2)).
Proof.
  unfold SFdiv, SFdiv_core_binary. rewrite fexp_spec.
  fold (div_exp (Z.pos m1) e1 (Z.pos m2) e2).
  set (e' := div_exp (Z.pos m1) e1 (Z.pos m2) e2).
  assert (Hs : 0 <= e1 - e2 - e') by (unfold e', div_exp; lia).
  assert (Hm : match e1 - e2 - e' with
               | Z.pos _ => Z.shiftl (Z.pos m1) (e1 - e2 - e')
               | 0 => Z.pos m1
               | Z.neg _ => 0
               end = div_num (Z.pos m1) e1 (Z.pos m2) e2).
  { unfold div_num. fold e'. destruct (e1 - e2 - e') as [|p|p] eqn:Es.
    - change (2 ^ 0) with 1. lia.
    - rewrite Z.shiftl_mul_pow2 by lia. reflexivity.
    - lia. }
  rewrite Hm. set (N := div_num (Z.pos m1) e1 (Z.pos m2) e2).
  rewrite <- (new_location_of N (Z.pos m2)) by lia.
  unfold Z.div, Z.modulo. destruct (Z.div_eucl N (Z.pos m2)) as [q r].
  reflexivity.
Qed.

Lemma SFmul_finite (s1 s2 : bool) (m1 m2 : positive) (e1 e2 : Z) :
  SFmul Float.prec Float.emax (S754_finite s1 m1 e1) (S754_finite s2 m2 e2)
  = BRA (xorb s1 s2) (Z.pos m1 * Z.pos m2 / 1) (e1 + e2)
      (location_of (Z.pos m1 * Z.pos m2) 1).
Proof.
  unfold SFmul. rewrite Z.div_1_r. unfold location_of. rewrite Z.mod_1_r.
  reflexivity.
Qed.

Lemma Zdigits2_pow2 (n : Z) : 0 <= n -> Zdigits2 (2 ^ n) = n + 1.
Proof.
  intros Hn. apply Zdigits2_unique.
  - replace (n + 1 - 1) with n by lia. split; [lia|].
    apply Z.pow_lt_mono_r; lia.
  - apply Z.pow_pos_nonneg; lia.
Qed.

(** The quotient the division rounds has at least the digits of the ratio
    of its operands. *)
Lemma div_quot_digits (m1 e1 m2 e2 : Z) :
  0 < m1 -> 0 < m2 ->
  let N := div_num m1 e1 m2 e2 in
  0 < N / m2 ->
  Zdigits2 m1 + e1 - (Zdigits2 m2 + e2)
  <= Zdigits2 (N / m2) + div_exp m1 e1 m2 e2.
Proof.
  intros H1 H2 N Hq. unfold N, div_num in *.
  set (e' := div_exp m1 e1 m2 e2) in *.
  assert (Hs : 0 <= e1 - e2 - e') by (unfold e', div_exp; lia).
  set (s := e1 - e2 - e') in *.
  pose proof (Zdigits2_bounds m1 H1) as [L1 _].
  pose proof (Zdigits2_bounds m2 H2) as [_ U2].
  pose proof (Zdigits2_pos m1 H1). pose proof (Zdigits2_pos m2 H2).
  pose proof (Zdigits2_pos _ Hq) as Dq.
  set (d1 := Zdigits2 m1) in *. set (d2 := Zdigits2 m2) in *.
  assert (Hgoal : d1 + s - d2 <= Zdigits2 (m1 * 2 ^ s / m2)); [|lia].
  destruct (Z.le_gt_cases (d1 + s - d2) 1) as [|Ht]; [lia|].
  set (t := d1 + s - d2) in *.
  assert (Hlow : 2 ^ (t - 1) <= m1 * 2 ^ s / m2).
  { apply Z.div_le_lower_bound; [lia|].
    assert (2 ^ (t - 1) * 2 ^ d2 <= m1 * 2 ^ s).
    { rewrite <- Z.pow_add_r by lia.
      replace (t - 1 + d2) with ((d1 - 1) + s) by lia.
      rewrite Z.pow_add_r by lia.
      apply Z.mul_le_mono_nonneg_r; [apply Z.pow_nonneg; lia|exact L1]. }
    assert (0 < 2 ^ (t - 1)) by (apply Z.pow_pos_nonneg; lia).
    nia. }
  apply Z.le_trans with (Zdigits2 (2 ^ (t - 1))).
  - rewrite Zdigits2_pow2; lia.
  - apply Zdigits2_le. split; [apply Z.pow_pos_nonneg; lia|exact Hlow].
Qed.

Lemma div_raw_ok (m1 e1 m2 e2 : Z) :
  0 < m1 -> 0 < m2 ->
  0 < div_num m1 e1 m2 e2 / m2 ->
  raw_ok (div_num m1 e1 m2 e2) m2 (div_exp m1 e1 m2 e2).
Proof.
  intros H1 H2 Hq. repeat split; try assumption.
  pose proof (div_quot_digits m1 e1 m2 e2 H1 H2 Hq) as D.
  cbv zeta in D. set (e' := div_exp m1 e1 m2 e2) in *.
  assert (He' : e' <= fexp (Zdigits2 m1 + e1 - (Zdigits2 m2 + e2)))
    by (unfold e', div_exp; lia).
  unfold fexp in *. lia.
Qed.

(** Away from underflow the quotient is positive. *)
Lemma div_quot_pos (m1 e1 m2 e2 : Z) :
  0 < m1 -> 0 < m2 ->
  emin + 53 <= Zdigits2 m1 + e1 - (Zdigits2 m2 + e2) ->
  0 < div_num m1 e1 m2 e2 / m2.
Proof.
  intros H1 H2 Hn. unfold div_num.
  set (e' := div_exp m1 e1 m2 e2).
  assert (Hs : 0 <= e1 - e2 - e') by (unfold e', div_exp; lia).
  pose proof (Zdigits2_bounds m1 H1) as [L1 _].
  pose proof (Zdigits2_bounds m2 H2) as [_ U2].
  pose proof (Zdigits2_pos m1 H1). pose proof (Zdigits2_pos m2 H2).
  set (d1 := Zdigits2 m1) in *. set (d2 := Zdigits2 m2) in *.
  assert (Ht : 53 <= d1 + (e1 - e2 - e') - d2) by (unfold e', div_exp, fexp; lia).
  apply Z.div_str_pos. split; [lia|].
  apply Z.lt_le_incl. apply Z.lt_le_trans with (1 := U2).
  apply Z.le_trans with (2 ^ (d1 - 1) * 2 ^ (e1 - e2 - e')).
  - rewrite <- Z.pow_add_r by lia. apply Z.pow_le_mono_r; lia.
  - apply Z.mul_le_mono_nonneg_r; [apply Z.pow_nonneg; lia|exact L1].
Qed.

Lemma pow_scale_le (X Y a b c d : Z) :
  0 <= a -> 0 <= b -> 0 <= c -> 0 <= d -> a - b = c - d ->
  X * 2 ^ a <= Y * 2 ^ b -> X * 2 ^ c <= Y * 2 ^ d.
Proof.
  intros Ha Hb Hc Hd Heq H.
  set (t := Z.min a b). set (u := Z.min c d).
  assert (Ht : 0 <= t <= a /\ t <= b) by (unfold t; lia).
  assert (Hu : 0 <= u <= c /\ u <= d) by (unfold u; lia).
  assert (E1 : a - t = c - u) by (unfold t, u; lia).
  assert (E2 : b - t = d - u) by (unfold t, u; lia).
  assert (Pt : 0 < 2 ^ t) by (apply Z.pow_pos_nonneg; lia).
  assert (Pu : 0 < 2 ^ u) by (apply Z.pow_pos_nonneg; lia).
  assert (Sa : 2 ^ a = 2 ^ (a - t) * 2 ^ t)
    by (rewrite <- Z.pow_add_r by lia; f_equal; lia).
  assert (Sb : 2 ^ b = 2 ^ (b - t) * 2 ^ t)
    by (rewrite <- Z.pow_add_r by lia; f_equal; lia).
  assert (Sc : 2 ^ c = 2 ^ (c - u) * 2 ^ u)
    by (rewrite <- Z.pow_add_r by lia; f_equal; lia).
  assert (Sd : 2 ^ d = 2 ^ (d - u) * 2 ^ u)
    by (rewrite <- Z.pow_add_r by lia; f_equal; lia).
  rewrite Sa, Sb, !Z.mul_assoc in H.
  apply Z.mul_le_mono_pos_r in H; [|exact Pt].
  rewrite Sc, Sd, !Z.mul_assoc.
  apply Z.mul_le_mono_nonneg_r; [lia|].
  rewrite <- E1, <- E2. exact H.
Qed.

(** The quotient is monotone in the ratio of its operands, away from
    underflow. *)
Theorem SFdiv_mono (m1 m2 m1' m2' : positive) (e1 e2 e1' e2' : Z) :
  emin + 53 <= Zdigits2 (Z.pos m1) + e1 - (Zdigits2 (Z.pos m2) + e2) ->
  emin + 53 <= Zdigits2 (Z.pos m1') + e1' - (Zdigits2 (Z.pos m2') + e2') ->
  Z.pos m1 * Z.pos m2' * 2 ^ (e1 + e2' - Z.min (e1 + e2') (e1' + e2))
  <= Z.pos m1' * Z.pos m2 * 2 ^ (e1' + e2 - Z.min (e1 + e2') (e1' + e2)) ->
  SFleb (SFdiv Float.prec Float.emax (S754_finite false m1 e1) (S754_finite false m2 e2))
        (SFdiv Float.prec Float.emax (S754_finite false m1' e1') (S754_finite false m2' e2'))
  = true.
Proof.
  intros Hn Hn' Hle. rewrite !SFdiv_finite. cbn [xorb].
  assert (Hq := div_quot_pos (Z.pos m1) e1 (Z.pos m2) e2 ltac:(lia) ltac:(lia) Hn).
  assert (Hq' := div_quot_pos (Z.pos m1') e1' (Z.pos m2') e2' ltac:(lia) ltac:(lia) Hn').
  assert (Hok := div_raw_ok (Z.pos m1) e1 (Z.pos m2) e2 ltac:(lia) ltac:(lia) Hq).
  assert (Hok' := div_raw_ok (Z.pos m1') e1' (Z.pos m2') e2' ltac:(lia) ltac:(lia) Hq').
  set (ea := div_exp (Z.pos m1) e1 (Z.pos m2) e2) in *.
  set (eb := div_exp (Z.pos m1') e1' (Z.pos m2') e2') in *.
  assert (Hsa : 0 <= e1 - e2 - ea) by (unfold ea, div_exp; lia).
  assert (Hsb : 0 <= e1' - e2' - eb) by (unfold eb, div_exp; lia).
  assert (HNa : 0 <= div_num (Z.pos m1) e1 (Z.pos m2) e2).
  { unfold div_num. fold ea. pose proof (Z.pow_nonneg 2 (e1 - e2 - ea)). nia. }
  assert (HNb : 0 <= div_num (Z.pos m1') e1' (Z.pos m2') e2').
  { unfold div_num. fold eb. pose proof (Z.pow_nonneg 2 (e1' - e2' - eb)). nia. }
  apply BRA_mono; try assumption.
  unfold raw_le, div_num. fold ea eb.
  set (z := Z.min ea eb).
  assert (Hz : z <= ea /\ z <= eb) by (unfold z; lia).
  replace (Z.pos m1 * 2 ^ (e1 - e2 - ea) * Z.pos m2' * 2 ^ (ea - z))
    with (Z.pos m1 * Z.pos m2' * 2 ^ (e1 - e2 - z)).
  2:{ replace (e1 - e2 - z) with ((e1 - e2 - ea) + (ea - z)) by lia.
      rewrite Z.pow_add_r by lia. ring. }
  replace (Z.pos m1' * 2 ^ (e1' - e2' - eb) * Z.pos m2 * 2 ^ (eb - z))
    with (Z.pos m1' * Z.pos m2 * 2 ^ (e1' - e2' - z)).
  2:{ replace (e1' - e2' - z) with ((e1' - e2' - eb) + (eb - z)) by lia.
      rewrite Z.pow_add_r by lia. ring. }
  eapply pow_scale_le; [| | | | |exact Hle]; lia.
Qed.

(** ** Valid floats *)

Lemma bounded_facts (m : positive) (e : Z) :
  bounded Float.prec Float.emax m e = true ->
  fexp (Zdigits2 (Z.pos m) + e) = e /\ e <= Float.emax - Float.prec
  /\ emin <= e /\ Z.pos m < 2 ^ 53 /\ (emin < e -> 2 ^ 52 <= Z.pos m).
Proof.
  unfold bounded, canonical_mantissa. rewrite fexp_spec.
  intros H. apply andb_true_iff in H. destruct H as [C B].
  apply Z.eqb_eq in C. apply Z.leb_le in B.
  change (Z.pos (digits2_pos m)) with (Zdigits2 (Z.pos m)) in C.
  pose proof (Zdigits2_bounds (Z.pos m) ltac:(lia)) as [L U].
  pose proof (Zdigits2_pos (Z.pos m) ltac:(lia)).
  repeat split; try assumption.
  - unfold fexp in C. lia.
  - apply Z.lt_le_trans with (1 := U). apply Z.pow_le_mono_r; [lia|].
    unfold fexp in C. lia.
  - intros Hn. apply Z.le_trans with (2 := L).
    apply Z.pow_le_mono_r; [lia|]. unfold fexp in C. lia.
Qed.

(** Among valid positive floats the order of [SFleb] is the order of the
    values. *)
Lemma SFleb_fin_le (m m' : positive) (e e' : Z) :
  bounded Float.prec Float.emax m e = true ->
  bounded Float.prec Float.emax m' e' = true ->
  SFleb (S754_finite false m e) (S754_finite false m' e') = true ->
  fin_le (Z.pos m) e (Z.pos m') e'.
Proof.
  intros B B' H.
  destruct (bounded_facts m e B) as [_ [_ [Hmin [Hm _]]]].
  destruct (bounded_facts m' e' B') as [_ [_ [Hmin' [_ Hn']]]].
  unfold SFleb in H. cbn [SFcompare] in H. unfold fin_le.
  destruct (Z.compare_spec e e') as [->|Hlt|Hgt]; try discriminate.
  - rewrite Z.min_id, Z.sub_diag. change (2 ^ 0) with 1.
    change (Pos.compare_cont Eq m m') with (Pos.compare m m') in H.
    destruct (Pos.compare_spec m m'); try discriminate; lia.
  - rewrite Z.min_l by lia. rewrite Z.sub_diag. change (2 ^ 0) with 1.
    specialize (Hn' ltac:(lia)).
    assert (2 ^ 1 <= 2 ^ (e' - e)) by (apply Z.pow_le_mono_r; lia).
    change (2 ^ 1) with 2 in *. nia.
Qed.

Lemma Zdigits2_mul_lower (a b : Z) :
  0 < a -> 0 < b -> Zdigits2 a + Zdigits2 b - 1 <= Zdigits2 (a * b).
Proof.
  intros Ha Hb.
  pose proof (Zdigits2_bounds a Ha) as [La _].
  pose proof (Zdigits2_bounds b Hb) as [Lb _].
  pose proof (Zdigits2_pos a Ha). pose proof (Zdigits2_pos b Hb).
  apply Z.le_trans with (Zdigits2 (2 ^ (Zdigits2 a - 1 + (Zdigits2 b - 1)))).
  - rewrite Zdigits2_pow2; lia.
  - apply Zdigits2_le. split; [apply Z.pow_pos_nonneg; lia|].
    rewrite Z.pow_add_r by lia.
    apply Z.mul_le_mono_nonneg; try assumption; apply Z.pow_nonneg; lia.
Qed.

(** The exact product of a valid float and a constant of magnitude at
    least one is a fit input of the rounding. *)
Lemma mul_raw_ok (m c : positive) (e ec : Z) :
  bounded Float.prec Float.emax m e = true ->
  ec <= 0 -> 1 <= Zdigits2 (Z.pos c) + ec ->
  raw_ok (Z.pos m * Z.pos c) 1 (e + ec).
Proof.
  intros B Hec Hc. destruct (bounded_facts m e B) as [C _].
  unfold raw_ok. rewrite Z.div_1_r. repeat split; try lia.
  pose proof (Zdigits2_mul_lower (Z.pos m) (Z.pos c) ltac:(lia) ltac:(lia)).
  unfold fexp in *. lia.
Qed.

(** Multiplying valid positive floats by a positive constant of magnitude
    at least one keeps their order. *)
Theorem SFmul_mono (m m' c : positive) (e e' ec : Z) :
  bounded Float.prec Float.emax m e = true ->
  bounded Float.prec Float.emax m' e' = true ->
  ec <= 0 -> 1 <= Zdigits2 (Z.pos c) + ec ->
  SFleb (S754_finite false m e) (S754_finite false m' e') = true ->
  SFleb (SFmul Float.prec Float.emax (S754_finite false m e) (S754_finite false c ec))
        (SFmul Float.prec Float.emax (S754_finite false m' e') (S754_finite false c ec))
  = true.
Proof.
  intros B B' Hec Hc Hle. rewrite !SFmul_finite. cbn [xorb].
  apply BRA_mono; try lia; try (apply mul_raw_ok; assumption).
  pose proof (SFleb_fin_le m m' e e' B B' Hle) as F. unfold fin_le in F.
  unfold raw_le.
  replace (Z.min (e + ec) (e' + ec)) with (Z.min e e' + ec) by lia.
  replace (e + ec - (Z.min e e' + ec)) with (e - Z.min e e') by lia.
  replace (e' + ec - (Z.min e e' + ec)) with (e' - Z.min e e') by lia.
  nia.
Qed.

(** ** Signs *)

Lemma BRA_sign (s : bool) (m e : Z) (l : location) :
  BRA s m e l =
    match BRA false m e l with
    | S754_zero _ => S754_zero s
    | S754_infinity _ => S754_infinity s
    | S754_finite _ p e' => S754_finite s p e'
    | S754_nan => S754_nan
    end.
Proof.
  unfold binary_round_aux.
  destruct (shr_fexp _ _ m e l) as [mrs e1].
  destruct (shr_fexp _ _ _ e1 loc_Exact) as [mrs2 e2].
  destruct (shr_m mrs2); try reflexivity.
  destruct (e2 <=? _); reflexivity.
Qed.

Lemma Zdigits2_mul_pow2 (m n : Z) :
  0 < m -> 0 <= n -> Zdigits2 (m * 2 ^ n) = Zdigits2 m + n.
Proof.
  intros Hm Hn. pose proof (Zdigits2_bounds m Hm) as [L U].
  pose proof (Zdigits2_pos m Hm).
  assert (0 < 2 ^ n) by (apply Z.pow_pos_nonneg; lia).
  apply Zdigits2_unique; [|nia].
  replace (Zdigits2 m + n - 1) with (Zdigits2 m - 1 + n) by lia.
  rewrite !Z.pow_add_r by lia. split; nia.
Qed.

(** Multiplying a valid float by minus one only flips its sign. *)
Lemma SFmul_minus_one (s : bool) (m : positive) (e : Z) :
  bounded Float.prec Float.emax m e = true ->
  SFmul Float.prec Float.emax (S754_finite s m e)
        (S754_finite true (2 ^ 52)%positive (-52))
  = S754_finite (negb s) m e.
Proof.
  intros B. destruct (bounded_facts m e B) as [C [Hmax [Hmin [Hm _]]]].
  rewrite SFmul_finite, BRA_sign.
  assert (Hok : raw_ok (Z.pos m * Z.pos (2 ^ 52)) 1 (e + -52)).
  { apply mul_raw_ok; [assumption|lia|]. change (Zdigits2 (Z.pos (2 ^ 52))) with 53. lia. }
  rewrite BRA_raw by (try assumption; lia).
  assert (HE : cexp (Z.pos m * Z.pos (2 ^ 52)) 1 (e + -52) = e).
  { unfold cexp. rewrite Z.div_1_r.
    change (Z.pos (2 ^ 52)) with (2 ^ 52).
    rewrite Zdigits2_mul_pow2 by lia.
    replace (Zdigits2 (Z.pos m) + 52 + (e + -52)) with (Zdigits2 (Z.pos m) + e) by lia.
    exact C. }
  rewrite HE. replace (e - (e + -52)) with 52 by lia.
  assert (HN : nearest_even (Z.pos m * Z.pos (2 ^ 52)) (2 ^ 52 * 1) = Z.pos m).
  { unfold nearest_even, location_of. rewrite Z.mul_1_r.
    change (Z.pos (2 ^ 52)) with (2 ^ 52).
    rewrite Z.mod_mul, Z.div_mul by lia. reflexivity. }
  rewrite HN, finish_small by lia.
  replace (e <=? Float.emax - Float.prec) with true by (symmetry; apply Z.leb_le; lia).
  destruct s; reflexivity.
Qed.

(** ** Order facts on positive floats *)

Lemma BRA_false_cases (m e : Z) (l : location) :
  BRA false m e l = S754_zero false
  \/ BRA false m e l = S754_infinity false
  \/ BRA false m e l = S754_nan
  \/ exists p e', BRA false m e l = S754_finite false p e'.
Proof.
  unfold binary_round_aux.
  destruct (shr_fexp _ _ m e l) as [mrs e1].
  destruct (shr_fexp _ _ _ e1 loc_Exact) as [mrs2 e2].
  destruct (shr_m mrs2);
    [left; reflexivity| |right; right; left; reflexivity].
  destruct (e2 <=? _); [right; right; right; eauto|right; left; reflexivity].
Qed.

(** A rounded value between two positive finite floats is a positive finite
    float whose exponent lies between theirs. *)
Lemma BRA_between (k e : Z) (l : location) (m0 m1 : positive) (e0 e1 : Z) :
  SFleb (S754_finite false m0 e0) (BRA false k e l) = true ->
  SFleb (BRA false k e l) (S754_finite false m1 e1) = true ->
  exists p e', BRA false k e l = S754_finite false p e' /\ e0 <= e' <= e1.
Proof.
  intros Hlo Hhi.
  destruct (BRA_false_cases k e l) as [E | [E | [E | [p [e' E]]]]];
    rewrite E in *; try discriminate.
  exists p, e'. split; [reflexivity|].
  unfold SFleb in *. cbn [SFcompare] in *.
  destruct (Z.compare_spec e0 e'); destruct (Z.compare_spec e' e1);
    try discriminate; lia.
Qed.

Lemma SFleb_trans (m1 m2 m3 : positive) (e1 e2 e3 : Z) :
  SFleb (S754_finite false m1 e1) (S754_finite false m2 e2) = true ->
  SFleb (S754_finite false m2 e2) (S754_finite false m3 e3) = true ->
  SFleb (S754_finite false m1 e1) (S754_finite false m3 e3) = true.
Proof.
  unfold SFleb. cbn [SFcompare].
  change (Pos.compare_cont Eq) with Pos.compare.
  destruct (Z.compare_spec e1 e2); destruct (Z.compare_spec e2 e3);
    destruct (Z.compare_spec e1 e3); try discriminate; try lia; try reflexivity.
  destruct (Pos.compare_spec m1 m2); destruct (Pos.compare_spec m2 m3);
    destruct (Pos.compare_spec m1 m3); try discriminate; try lia; reflexivity.
Qed.

Lemma SFleb_ltb_false (m1 m2 m3 : positive) (e1 e2 e3 : Z) :
  SFleb (S754_finite false m1 e1) (S754_finite false m2 e2) = true ->
  SFltb (S754_finite false m2 e2) (S754_finite false m3 e3) = true ->
  SFleb (S754_finite false m3 e3) (S754_finite false m1 e1) = false.
Proof.
  unfold SFleb, SFltb. cbn [SFcompare].
  change (Pos.compare_cont Eq) with Pos.compare.
  destruct (Z.compare_spec e1 e2); destruct (Z.compare_spec e2 e3);
    destruct (Z.compare_spec e3 e1); try discriminate; try lia; try reflexivity.
  destruct (Pos.compare_spec m1 m2); destruct (Pos.compare_spec m2 m3);
    destruct (Pos.compare_spec m3 m1); try discriminate; try lia; reflexivity.
Qed.

Lemma SFltb_leb_trans (m1 m2 m3 : positive) (e1 e2 e3 : Z) :
  SFltb (S754_finite false m1 e1) (S754_finite false m2 e2) = true ->
  SFleb (S754_finite false m2 e2) (S754_finite false m3 e3) = true ->
  SFltb (S754_finite false m1 e1) (S754_finite false m3 e3) = true.
Proof.
  unfold SFleb, SFltb. cbn [SFcompare].
  change (Pos.compare_cont Eq) with Pos.compare.
  destruct (Z.compare_spec e1 e2); destruct (Z.compare_spec e2 e3);
    destruct (Z.compare_spec e1 e3); try discriminate; try lia; try reflexivity.
  destruct (Pos.compare_spec m1 m2); destruct (Pos.compare_spec m2 m3);
    destruct (Pos.compare_spec m1 m3); try discriminate; try lia; reflexivity.
Qed.

Lemma SFleb_ltb_neg (m1 m2 : positive) (e1 e2 : Z) :
  SFleb (S754_finite false m1 e1) (S754_finite false m2 e2) = true ->
  SFltb (S754_finite false m2 e2) (S754_finite false m1 e1) = false.
Proof.
  unfold SFleb, SFltb. cbn [SFcompare].
  change (Pos.compare_cont Eq) with Pos.compare.
  destruct (Z.compare_spec e1 e2); destruct (Z.compare_spec e2 e1);
    try discriminate; try lia; try reflexivity.
  destruct (Pos.compare_spec m1 m2); destruct (Pos.compare_spec m2 m1);
    try discriminate; try lia; reflexivity.
Qed.

(** ** The quotient and the percentage of the sample heuristic *)

Lemma exact_quotient_mono (x y x' y' : positive) :
  Zdigits2 (Z.pos y) <= 1000 -> Zdigits2 (Z.pos y') <= 1000 ->
  Z.pos x * Z.pos y' <= Z.pos x' * Z.pos y ->
  SFleb (Float.div (Float.exact_of_Z (Z.pos x)) (Float.exact_of_Z (Z.pos y)))
        (Float.div (Float.exact_of_Z (Z.pos x')) (Float.exact_of_Z (Z.pos y')))
  = true.
Proof.
  intros Hy Hy' Hle. unfold Float.div, Float.exact_of_Z.
  pose proof (Zdigits2_pos (Z.pos x) ltac:(lia)).
  pose proof (Zdigits2_pos (Z.pos x') ltac:(lia)).
  apply SFdiv_mono; try (unfold emin; lia).
  cbn [Z.add Z.min Z.compare Z.sub Z.opp]. change (2 ^ 0) with 1. lia.
Qed.

Lemma exact_quotient_valid (s : bool) (x y : positive) :
  Zdigits2 (Z.pos y) <= 1000 ->
  valid_binary Float.prec Float.emax
    (SFdiv Float.prec Float.emax (S754_finite s x 0) (S754_finite false y 0))
  = true.
Proof.
  intros Hy. rewrite SFdiv_finite, BRA_sign.
  pose proof (Zdigits2_pos (Z.pos x) ltac:(lia)).
  assert (Hq : 0 < div_num (Z.pos x) 0 (Z.pos y) 0 / Z.pos y)
    by (apply div_quot_pos; unfold emin; lia).
  assert (Hok := div_raw_ok (Z.pos x) 0 (Z.pos y) 0 ltac:(lia) ltac:(lia) Hq).
  assert (HN : 0 <= div_num (Z.pos x) 0 (Z.pos y) 0).
  { unfold div_num. pose proof (Z.pow_nonneg 2 (0 - 0 - div_exp (Z.pos x) 0 (Z.pos y) 0)). nia. }
  pose proof (BRA_valid false _ _ _ HN Hok) as V.
  destruct (binary_round_aux _ _ false _ _ _); try reflexivity. exact V.
Qed.

Lemma size_digits (y : positive) : Z.pos y <= 2 ^ 60 -> Zdigits2 (Z.pos y) <= 1000.
Proof.
  intros Hy.
  apply Z.le_trans with (Zdigits2 (2 ^ 60)); [|rewrite Zdigits2_pow2; lia].
  apply Zdigits2_le. lia.
Qed.

Lemma moderate_intro (k e : Z) (l : location) (m0 m1 : positive) (e0 e1 : Z) :
  valid_binary Float.prec Float.emax (BRA false k e l) = true ->
  SFleb (S754_finite false m0 e0) (BRA false k e l) = true ->
  SFleb (BRA false k e l) (S754_finite false m1 e1) = true ->
  -200 <= e0 -> e1 <= 200 ->
  moderate (BRA false k e l).
Proof.
  intros V Hlo Hhi H0 H1.
  destruct (BRA_between _ _ _ _ _ _ _ Hlo Hhi) as [p [e' [E He']]].
  rewrite E in *. exists p, e'. repeat split; try lia. exact V.
Qed.

Lemma exact_quotient_moderate (x y : positive) :
  Z.pos x <= 2 ^ 60 -> Z.pos y <= 2 ^ 60 ->
  moderate (Float.div (Float.exact_of_Z (Z.pos x)) (Float.exact_of_Z (Z.pos y))).
Proof.
  intros Hx Hy.
  pose proof (size_digits y Hy) as Dy.
  pose proof (exact_quotient_valid false x y Dy) as V.
  pose proof (exact_quotient_mono 1 (2 ^ 60) x y
                ltac:(apply Z.leb_le; vm_compute; reflexivity) Dy
                ltac:(change (Z.pos (2 ^ 60)) with (2 ^ 60); lia)) as Lo.
  pose proof (exact_quotient_mono x y (2 ^ 60) 1 Dy
                ltac:(apply Z.leb_le; vm_compute; reflexivity)
                ltac:(change (Z.pos (2 ^ 60)) with (2 ^ 60); lia)) as Hi.
  unfold Float.div, Float.exact_of_Z in *.
  rewrite (SFdiv_finite false false x y) in *. cbn [xorb] in *.
  eapply moderate_intro; try exact V.
  - replace (SFdiv Float.prec Float.emax (S754_finite false 1 0)
               (S754_finite false (2 ^ 60) 0))
      with (S754_finite false 4503599627370496 (-112)) in Lo
      by (vm_compute; reflexivity).
    exact Lo.
  - replace (SFdiv Float.prec Float.emax (S754_finite false (2 ^ 60) 0)
               (S754_finite false 1 0))
      with (S754_finite false 4503599627370496 8) in Hi
      by (vm_compute; reflexivity).
    exact Hi.
  - lia.
  - lia.
Qed.

Lemma of_Z_100 : Float.of_Z 100 = S754_finite false 7036874417766400 (-46).
Proof. reflexivity. Qed.

Lemma of_Z_90 : Float.of_Z 90 = S754_finite false 6333186975989760 (-46).
Proof. reflexivity. Qed.

Lemma of_Z_10 : Float.of_Z 10 = S754_finite false 5629499534213120 (-49).
Proof. reflexivity. Qed.

Lemma of_Z_minus_1 : Float.of_Z (-1) = S754_finite true (2 ^ 52) (-52).
Proof. reflexivity. Qed.

Lemma moderate_mul_mono (x x' : Float.float) (c : positive) (ec : Z) :
  moderate x -> moderate x' -> ec <= 0 -> 1 <= Zdigits2 (Z.pos c) + ec ->
  SFleb x x' = true ->
  SFleb (Float.mul x (S754_finite false c ec)) (Float.mul x' (S754_finite false c ec))
  = true.
Proof.
  intros [m [e [-> [B _]]]] [m' [e' [-> [B' _]]]] Hec Hc Hle.
  apply SFmul_mono; assumption.
Qed.

Lemma moderate_div_mono (x x' : Float.float) (c : positive) (ec : Z) :
  moderate x -> moderate x' -> Zdigits2 (Z.pos c) + ec <= 800 ->
  SFleb x x' = true ->
  SFleb (Float.div x (S754_finite false c ec)) (Float.div x' (S754_finite false c ec))
  = true.
Proof.
  intros [m [e [-> [B He]]]] [m' [e' [-> [B' He']]]] Hc Hle.
  pose proof (Zdigits2_pos (Z.pos m) ltac:(lia)).
  pose proof (Zdigits2_pos (Z.pos m') ltac:(lia)).
  apply SFdiv_mono; try (unfold emin; lia).
  pose proof (SFleb_fin_le m m' e e' B B' Hle) as F. unfold fin_le in F.
  replace (Z.min (e + ec) (e' + ec)) with (Z.min e e' + ec) by lia.
  replace (e + ec - (Z.min e e' + ec)) with (e - Z.min e e') by lia.
  replace (e' + ec - (Z.min e e' + ec)) with (e' - Z.min e e') by lia.
  nia.
Qed.

Lemma percent_mono (x y x' y' : positive) :
  Z.pos x <= 2 ^ 60 -> Z.pos y <= 2 ^ 60 ->
  Z.pos x' <= 2 ^ 60 -> Z.pos y' <= 2 ^ 60 ->
  Z.pos x * Z.pos y' <= Z.pos x' * Z.pos y ->
  SFleb (percent x y) (percent x' y') = true.
Proof.
  intros Hx Hy Hx' Hy' Hle. unfold percent. rewrite of_Z_100.
  apply moderate_mul_mono; try (apply exact_quotient_moderate; assumption).
  - lia.
  - apply Z.leb_le. vm_compute. reflexivity.
  - apply exact_quotient_mono; try (apply size_digits; assumption). exact Hle.
Qed.

Lemma percent_moderate (x y : positive) :
  Z.pos x <= 2 ^ 60 -> Z.pos y <= 2 ^ 60 -> moderate (percent x y).
Proof.
  intros Hx Hy.
  pose proof (percent_mono 1 (2 ^ 60) x y ltac:(lia)
                ltac:(change (Z.pos (2 ^ 60)) with (2 ^ 60); lia) Hx Hy
                ltac:(change (Z.pos (2 ^ 60)) with (2 ^ 60); lia)) as Lo.
  pose proof (percent_mono x y (2 ^ 60) 1 Hx Hy
                ltac:(change (Z.pos (2 ^ 60)) with (2 ^ 60); lia) ltac:(lia)
                ltac:(change (Z.pos (2 ^ 60)) with (2 ^ 60); lia)) as Hi.
  replace (percent 1 (2 ^ 60))
    with (S754_finite false 7036874417766400 (-106)) in Lo
    by (vm_compute; reflexivity).
  replace (percent (2 ^ 60) 1)
    with (S754_finite false 7036874417766400 14) in Hi
    by (vm_compute; reflexivity).
  unfold percent in *. rewrite of_Z_100 in *.
  destruct (exact_quotient_moderate x y Hx Hy) as [m [e [E [B _]]]].
  rewrite E in *. unfold Float.mul in *. rewrite SFmul_finite in *.
  cbn [xorb] in *.
  eapply moderate_intro; [|exact Lo|exact Hi|lia|lia].
  apply BRA_valid; [lia|].
  apply mul_raw_ok; [exact B|lia|].
  apply Z.leb_le. vm_compute. reflexivity.
Qed.

Lemma tenth_percent_mono (x y x' y' : positive) :
  Z.pos x <= 2 ^ 60 -> Z.pos y <= 2 ^ 60 ->
  Z.pos x' <= 2 ^ 60 -> Z.pos y' <= 2 ^ 60 ->
  Z.pos x * Z.pos y' <= Z.pos x' * Z.pos y ->
  SFleb (tenth (percent x y)) (tenth (percent x' y')) = true.
Proof.
  intros Hx Hy Hx' Hy' Hle. unfold tenth. rewrite of_Z_10.
  apply moderate_div_mono; try (apply percent_moderate; assumption).
  - apply Z.leb_le. vm_compute. reflexivity.
  - apply percent_mono; assumption.
Qed.

(** The tenth of a moderate float is a positive finite float or an
    infinity, never a zero or a negative number. *)
Lemma tenth_percent_finite (x y : positive) :
  Z.pos x <= 2 ^ 60 -> Z.pos y <= 2 ^ 60 ->
  exists m e, tenth (percent x y) = S754_finite false m e.
Proof.
  intros Hx Hy.
  pose proof (tenth_percent_mono 1 (2 ^ 60) x y ltac:(lia)
                ltac:(change (Z.pos (2 ^ 60)) with (2 ^ 60); lia) Hx Hy
                ltac:(change (Z.pos (2 ^ 60)) with (2 ^ 60); lia)) as Lo.
  pose proof (tenth_percent_mono x y (2 ^ 60) 1 Hx Hy
                ltac:(change (Z.pos (2 ^ 60)) with (2 ^ 60); lia) ltac:(lia)
                ltac:(change (Z.pos (2 ^ 60)) with (2 ^ 60); lia)) as Hi.
  replace (tenth (percent 1 (2 ^ 60)))
    with (S754_finite false 5629499534213120 (-109)) in Lo
    by (vm_compute; reflexivity).
  replace (tenth (percent (2 ^ 60) 1))
    with (S754_finite false 5629499534213120 11) in Hi
    by (vm_compute; reflexivity).
  destruct (percent_moderate x y Hx Hy) as [m [e [E _]]].
  rewrite E in *. unfold tenth in *. rewrite of_Z_10 in *.
  unfold Float.div in *. rewrite SFdiv_finite in *. cbn [xorb] in *.
  destruct (BRA_between _ _ _ _ _ _ _ Lo Hi) as [p [e' [Ep _]]].
  exists p, e'. exact Ep.
Qed.

(** ** Thresholds of the heuristic, for sizes below 2 ^ 49 *)

Lemma pos_le_60 (x : positive) : Z.pos x <= 2 ^ 49 -> Z.pos x <= 2 ^ 60.
Proof. lia. Qed.

Lemma percent_ge_90 (x y : positive) :
  Z.pos x <= 2 ^ 49 -> Z.pos y <= 2 ^ 49 ->
  9 * Z.pos y <= 10 * Z.pos x ->
  SFleb (Float.of_Z 90) (percent x y) = true.
Proof.
  intros Hx Hy H.
  pose proof (percent_mono 9 10 x y ltac:(lia) ltac:(lia)
                (pos_le_60 x Hx) (pos_le_60 y Hy) ltac:(lia)) as Lo.
  replace (percent 9 10) with (Float.of_Z 90) in Lo by (vm_compute; reflexivity).
  exact Lo.
Qed.

Lemma percent_lt_90 (x y : positive) :
  Z.pos x <= 2 ^ 49 -> Z.pos y <= 2 ^ 49 ->
  10 * Z.pos x < 9 * Z.pos y ->
  SFleb (Float.of_Z 90) (percent x y) = false.
Proof.
  intros Hx Hy H.
  pose proof (percent_mono x y (9 * 2 ^ 49 - 1) (10 * 2 ^ 49)
                (pos_le_60 x Hx) (pos_le_60 y Hy)
                ltac:(apply Z.leb_le; vm_compute; reflexivity)
                ltac:(apply Z.leb_le; vm_compute; reflexivity)
                ltac:(change (Z.pos (10 * 2 ^ 49)) with (10 * 2 ^ 49);
                      change (Z.pos (9 * 2 ^ 49 - 1)) with (9 * 2 ^ 49 - 1); lia))
    as Hi.
  destruct (percent_moderate x y (pos_le_60 x Hx) (pos_le_60 y Hy))
    as [m [e [E _]]].
  rewrite E in *. rewrite of_Z_90.
  replace (percent (9 * 2 ^ 49 - 1) (10 * 2 ^ 49))
    with (S754_finite false 6333186975989759 (-46)) in Hi
    by (vm_compute; reflexivity).
  eapply SFleb_ltb_false; [exact Hi|]. vm_compute. reflexivity.
Qed.

Lemma percent_le_100 (x y : positive) :
  Z.pos x <= 2 ^ 49 -> Z.pos y <= 2 ^ 49 ->
  Z.pos x <= Z.pos y ->
  SFltb (Float.of_Z 100) (percent x y) = false.
Proof.
  intros Hx Hy H.
  pose proof (percent_mono x y 1 1 (pos_le_60 x Hx) (pos_le_60 y Hy)
                ltac:(lia) ltac:(lia) ltac:(lia)) as Hi.
  destruct (percent_moderate x y (pos_le_60 x Hx) (pos_le_60 y Hy))
    as [m [e [E _]]].
  rewrite E in *.
  replace (percent 1 1) with (Float.of_Z 100) in Hi by (vm_compute; reflexivity).
  rewrite of_Z_100 in *. apply SFleb_ltb_neg. exact Hi.
Qed.

Lemma percent_gt_100 (x y : positive) :
  Z.pos x <= 2 ^ 49 -> Z.pos y <= 2 ^ 49 ->
  Z.pos y < Z.pos x ->
  SFltb (Float.of_Z 100) (percent x y) = true.
Proof.
  intros Hx Hy H.
  pose proof (percent_mono (2 ^ 49 + 1) (2 ^ 49) x y
                ltac:(apply Z.leb_le; vm_compute; reflexivity)
                ltac:(apply Z.leb_le; vm_compute; reflexivity)
                (pos_le_60 x Hx) (pos_le_60 y Hy)
                ltac:(change (Z.pos (2 ^ 49)) with (2 ^ 49);
                      change (Z.pos (2 ^ 49 + 1)) with (2 ^ 49 + 1); lia))
    as Lo.
  destruct (percent_moderate x y (pos_le_60 x Hx) (pos_le_60 y Hy))
    as [m [e [E _]]].
  rewrite E in *. rewrite of_Z_100.
  replace (percent (2 ^ 49 + 1) (2 ^ 49))
    with (S754_finite false 7036874417766412 (-46)) in Lo
    by (vm_compute; reflexivity).
  eapply SFltb_leb_trans; [|exact Lo]. vm_compute. reflexivity.
Qed.

Lemma tenth_ge_90 (x y : positive) :
  Z.pos x <= 2 ^ 49 -> Z.pos y <= 2 ^ 49 ->
  9 * Z.pos y <= Z.pos x ->
  SFleb (Float.of_Z 90) (tenth (percent x y)) = true.
Proof.
  intros Hx Hy H.
  pose proof (tenth_percent_mono 9 1 x y ltac:(lia) ltac:(lia)
                (pos_le_60 x Hx) (pos_le_60 y Hy) ltac:(lia)) as Lo.
  replace (tenth (percent 9 1)) with (Float.of_Z 90) in Lo
    by (vm_compute; reflexivity).
  exact Lo.
Qed.

Lemma tenth_lt_90 (x y : positive) :
  Z.pos x <= 2 ^ 49 -> Z.pos y <= 2 ^ 49 ->
  Z.pos x < 9 * Z.pos y ->
  SFleb (Float.of_Z 90) (tenth (percent x y)) = false.
Proof.
  intros Hx Hy H.
  pose proof (tenth_percent_mono x y (9 * 2 ^ 49 - 1) (2 ^ 49)
                (pos_le_60 x Hx) (pos_le_60 y Hy)
                ltac:(apply Z.leb_le; vm_compute; reflexivity)
                ltac:(apply Z.leb_le; vm_compute; reflexivity)
                ltac:(change (Z.pos (2 ^ 49)) with (2 ^ 49);
                      change (Z.pos (9 * 2 ^ 49 - 1)) with (9 * 2 ^ 49 - 1); lia))
    as Hi.
  destruct (tenth_percent_finite x y (pos_le_60 x Hx) (pos_le_60 y Hy))
    as [m [e E]].
  rewrite E in *. rewrite of_Z_90.
  replace (tenth (percent (9 * 2 ^ 49 - 1) (2 ^ 49)))
    with (S754_finite false 6333186975989758 (-46)) in Hi
    by (vm_compute; reflexivity).
  eapply SFleb_ltb_false; [exact Hi|]. vm_compute. reflexivity.
Qed.

(** ** The heuristic on negative differences *)

Lemma exact_quotient_neg (x y : positive) :
  Float.div (Float.exact_of_Z (Z.neg x)) (Float.exact_of_Z (Z.pos y))
  = match Float.div (Float.exact_of_Z (Z.pos x)) (Float.exact_of_Z (Z.pos y)) with
    | S754_zero _ => S754_zero true
    | S754_infinity _ => S754_infinity true
    | S754_finite _ p e => S754_finite true p e
    | S754_nan => S754_nan
    end.
Proof.
  unfold Float.div, Float.exact_of_Z. rewrite !SFdiv_finite. cbn [xorb].
  apply BRA_sign.
Qed.

Lemma mul_neg (m c : positive) (e ec : Z) :
  Float.mul (S754_finite true m e) (S754_finite false c ec)
  = match Float.mul (S754_finite false m e) (S754_finite false c ec) with
    | S754_zero _ => S754_zero true
    | S754_infinity _ => S754_infinity true
    | S754_finite _ p e' => S754_finite true p e'
    | S754_nan => S754_nan
    end.
Proof.
  unfold Float.mul. rewrite !SFmul_finite. cbn [xorb]. apply BRA_sign.
Qed.

(** The product of a valid float and 100 is valid when it is finite. *)
Lemma percent_valid (s : bool) (m : positive) (e : Z) :
  bounded Float.prec Float.emax m e = true ->
  valid_binary Float.prec Float.emax
    (Float.mul (S754_finite s m e) (Float.of_Z 100)) = true.
Proof.
  intros B. rewrite of_Z_100. unfold Float.mul.
  rewrite SFmul_finite, BRA_sign.
  assert (V : valid_binary Float.prec Float.emax
                (BRA false (Z.pos m * 7036874417766400 / 1) (e + -46)
                   (location_of (Z.pos m * 7036874417766400) 1)) = true).
  { apply BRA_valid; [lia|]. apply mul_raw_ok; [exact B|lia|].
    apply Z.leb_le. vm_compute. reflexivity. }
  destruct (binary_round_aux _ _ false _ _ _); try reflexivity. exact V.
Qed.

(** The quotient of two integers is a valid float, whatever their sizes. *)
Lemma exact_quotient_valid_all (s : bool) (x y : positive) :
  valid_binary Float.prec Float.emax
    (SFdiv Float.prec Float.emax (S754_finite s x 0) (S754_finite false y 0))
  = true.
Proof.
  rewrite SFdiv_finite, BRA_sign.
  set (N := div_num (Z.pos x) 0 (Z.pos y) 0).
  set (e' := div_exp (Z.pos x) 0 (Z.pos y) 0).
  assert (HN : 0 <= N).
  { unfold N, div_num. pose proof (Z.pow_nonneg 2 (0 - 0 - e')). fold e'. nia. }
  assert (V : valid_binary Float.prec Float.emax
                (BRA false (N / Z.pos y) e' (location_of N (Z.pos y))) = true).
  { destruct (Z.lt_ge_cases 0 (N / Z.pos y)) as [Hq|Hq].
    - apply BRA_valid; [exact HN|]. apply div_raw_ok; try lia. exact Hq.
    - assert (Hz : N / Z.pos y = 0).
      { pose proof (Z.div_pos N (Z.pos y) HN ltac:(lia)). lia. }
      assert (He : e' = emin).
      { destruct (Z.le_gt_cases (emin + 53)
                    (Zdigits2 (Z.pos x) + 0 - (Zdigits2 (Z.pos y) + 0))) as [Hn|Hn].
        - pose proof (div_quot_pos (Z.pos x) 0 (Z.pos y) 0 ltac:(lia) ltac:(lia) Hn).
          fold N in H. lia.
        - unfold e', div_exp, fexp, emin in *. lia. }
      rewrite BRA_code by lia. rewrite Hz, He.
      change (Z.max 0 (fexp (Zdigits2 0 + emin) - emin)) with 0.
      change (2 ^ 0) with 1. rewrite Z.mul_1_l, Z.add_0_r.
      pose proof (nearest_even_bounds N (Z.pos y) ltac:(lia)) as Nb.
      rewrite Hz in Nb.
      apply valid_finish; unfold emin; lia. }
  destruct (binary_round_aux _ _ false _ _ _); try reflexivity. exact V.
Qed.

(** Where the code multiplies a negative difference by minus one, it takes
    its absolute value. *)
Lemma times_minus_one_is_abs (x y : Z) (ratio : Float.float) :
  Float.int_truediv x y = Ok ratio ->
  0 < y ->
  let diff := Float.mul ratio (Float.of_Z 100) in
  Float.ltb diff (Float.of_Z 0) = true ->
  Float.mul diff (Float.of_Z (-1)) = SFabs diff.
Proof.
  intros Hdiv Hy diff Hneg. unfold Float.int_truediv in Hdiv.
  destruct (Z.eqb_spec y 0) as [|_]; [lia|].
  assert (Hr : ratio = Float.div (Float.exact_of_Z x) (Float.exact_of_Z y)).
  { destruct (Float.div _ _); congruence. }
  assert (Vr : valid_binary Float.prec Float.emax ratio = true).
  { rewrite Hr. destruct y as [|py|py]; try lia.
    destruct x as [|px|px]; cbn [Float.exact_of_Z]; try reflexivity;
      apply exact_quotient_valid_all. }
  assert (Vd : valid_binary Float.prec Float.emax diff = true).
  { unfold diff. destruct ratio as [s|s| |s m e]; try reflexivity.
    apply percent_valid. exact Vr. }
  rewrite of_Z_minus_1.
  destruct diff as [s|s| |s m e]; try discriminate.
  - destruct s; [reflexivity|discriminate].
  - destruct s; [|discriminate].
    unfold Float.mul. rewrite SFmul_minus_one by exact Vd. reflexivity.
Qed.

(** ** The verdict of the heuristic on sizes up to [2 ^ 49] *)

Lemma of_Z_0 : Float.of_Z 0 = S754_zero false.
Proof. reflexivity. Qed.

Lemma verdict_positive_difference (x y : positive) :
  Z.pos x <= 2 ^ 49 -> Z.pos y <= 2 ^ 49 ->
  (let size_diff := percent x y in
   Float.leb (Float.of_Z 90)
     (if Float.ltb size_diff (Float.of_Z 0)
      then Float.mul size_diff (Float.of_Z (-1))
      else if Float.ltb (Float.of_Z 100) size_diff
           then Float.div size_diff (Float.of_Z 10)
           else size_diff))
  = exact_verdict (Z.pos y) (Z.pos y + Z.pos x).
Proof.
  intros Hx Hy. cbv zeta.
  destruct (percent_moderate x y (pos_le_60 x Hx) (pos_le_60 y Hy))
    as [m [e [EP _]]].
  assert (Hpos : Float.ltb (percent x y) (Float.of_Z 0) = false).
  { rewrite EP, of_Z_0. reflexivity. }
  rewrite Hpos. unfold Float.ltb, Float.leb, exact_verdict.
  destruct (Z.le_gt_cases (Z.pos x) (Z.pos y)) as [Hle|Hgt].
  - rewrite (percent_le_100 x y Hx Hy Hle).
    destruct (Z.le_gt_cases (9 * Z.pos y) (10 * Z.pos x)) as [H9|H9].
    + rewrite (percent_ge_90 x y Hx Hy H9). symmetry.
      apply Bool.orb_true_iff. left. apply Bool.orb_true_iff. right.
      apply Bool.andb_true_iff. split; apply Z.leb_le; lia.
    + rewrite (percent_lt_90 x y Hx Hy H9). symmetry.
      apply Bool.orb_false_iff. split; [apply Bool.orb_false_iff; split|].
      * apply Z.leb_gt. lia.
      * apply Bool.andb_false_iff. left. apply Z.leb_gt. lia.
      * apply Z.leb_gt. lia.
  - rewrite (percent_gt_100 x y Hx Hy Hgt). fold (tenth (percent x y)).
    destruct (Z.le_gt_cases (9 * Z.pos y) (Z.pos x)) as [H9|H9].
    + rewrite (tenth_ge_90 x y Hx Hy H9). symmetry.
      apply Bool.orb_true_iff. right. apply Z.leb_le. lia.
    + rewrite (tenth_lt_90 x y Hx Hy H9). symmetry.
      apply Bool.orb_false_iff. split; [apply Bool.orb_false_iff; split|].
      * apply Z.leb_gt. lia.
      * apply Bool.andb_false_iff. right. apply Z.leb_gt. lia.
      * apply Z.leb_gt. lia.
Qed.

Lemma verdict_negative_difference (x y : positive) :
  Z.pos x <= Z.pos y -> Z.pos y <= 2 ^ 49 ->
  (let size_diff :=
     Float.mul (Float.div (Float.exact_of_Z (Z.neg x)) (Float.exact_of_Z (Z.pos y)))
               (Float.of_Z 100) in
   Float.leb (Float.of_Z 90)
     (if Float.ltb size_diff (Float.of_Z 0)
      then Float.mul size_diff (Float.of_Z (-1))
      else if Float.ltb (Float.of_Z 100) size_diff
           then Float.div size_diff (Float.of_Z 10)
           else size_diff))
  = exact_verdict (Z.pos y) (Z.pos y - Z.pos x).
Proof.
  intros Hle Hy. cbv zeta.
  assert (Hx : Z.pos x <= 2 ^ 49) by lia.
  destruct (exact_quotient_moderate x y (pos_le_60 x Hx) (pos_le_60 y Hy))
    as [qm [qe [EQ _]]].
  destruct (percent_moderate x y (pos_le_60 x Hx) (pos_le_60 y Hy))
    as [m [e [EP [B _]]]].
  assert (ED : Float.mul (Float.div (Float.exact_of_Z (Z.neg x))
                                    (Float.exact_of_Z (Z.pos y)))
                         (Float.of_Z 100)
               = S754_finite true m e).
  { rewrite exact_quotient_neg, EQ. rewrite of_Z_100, mul_neg.
    rewrite <- of_Z_100, <- EQ. fold (percent x y). rewrite EP. reflexivity. }
  rewrite ED, of_Z_0.
  change (Float.ltb (S754_finite true m e) (S754_zero false)) with true.
  cbv iota. rewrite of_Z_minus_1. unfold Float.mul at 1.
  rewrite (SFmul_minus_one true m e B). cbn [negb]. rewrite <- EP.
  unfold Float.leb, exact_verdict.
  destruct (Z.le_gt_cases (9 * Z.pos y) (10 * Z.pos x)) as [H9|H9].
  - rewrite (percent_ge_90 x y Hx Hy H9). symmetry.
    apply Bool.orb_true_iff. left. apply Bool.orb_true_iff. left.
    apply Z.leb_le. lia.
  - rewrite (percent_lt_90 x y Hx Hy H9). symmetry.
    apply Bool.orb_false_iff. split; [apply Bool.orb_false_iff; split|].
    + apply Z.leb_gt. lia.
    + apply Bool.andb_false_iff. left. apply Z.leb_gt. lia.
    + apply Z.leb_gt. lia.
Qed.

(** Below [2 ^ 49] bytes the float computation of the heuristic agrees with
    exact arithmetic on the sizes. *)
Lemma is_movie_with_sample_exact (first second : File) :
  (0 < size first)%N ->
  Z.of_N (size first) <= 2 ^ 49 -> Z.of_N (size second) <= 2 ^ 49 ->
  is_movie_with_sample [first; second]
  = Ok (exact_verdict (Z.of_N (size first)) (Z.of_N (size second))).
Proof.
  intros Hpos Ha Hb. unfold is_movie_with_sample.
  pose proof (N2Z.is_nonneg (size second)) as Hb0.
  destruct (Z.of_N (size first)) as [|y|y] eqn:Ey; try lia.
  set (b := Z.of_N (size second)) in *.
  destruct (b - Z.pos y) as [|x|x] eqn:D.
  - replace b with (Z.pos y) by lia. cbn [Float.int_truediv Z.eqb].
    unfold Float.int_truediv. cbn [Z.eqb Float.exact_of_Z].
    change (Float.div (S754_zero false) (S754_finite false y 0))
      with (S754_zero false).
    cbn [bind_result]. rewrite of_Z_100.
    change (Float.mul (S754_zero false) (S754_finite false 7036874417766400 (-46)))
      with (S754_zero false).
    rewrite <- of_Z_100. f_equal. unfold exact_verdict. symmetry.
    apply Bool.orb_false_iff. split; [apply Bool.orb_false_iff; split|].
    + apply Z.leb_gt. lia.
    + apply Bool.andb_false_iff. left. apply Z.leb_gt. lia.
    + apply Z.leb_gt. lia.
  - assert (Hx : Z.pos x <= 2 ^ 49) by lia.
    destruct (exact_quotient_moderate x y (pos_le_60 x Hx) (pos_le_60 y Ha))
      as [qm [qe [EQ _]]].
    unfold Float.int_truediv. cbn [Z.eqb]. rewrite EQ. cbn [bind_result].
    rewrite <- EQ. fold (percent x y).
    replace b with (Z.pos y + Z.pos x) by lia. f_equal.
    apply (verdict_positive_difference x y Hx Ha).
  - assert (Hx : Z.pos x <= Z.pos y) by lia.
    assert (Hx' : Z.pos x <= 2 ^ 49) by lia.
    destruct (exact_quotient_moderate x y (pos_le_60 x Hx') (pos_le_60 y Ha))
      as [qm [qe [EQ _]]].
    unfold Float.int_truediv. cbn [Z.eqb].
    pose proof (exact_quotient_neg x y) as EN. rewrite EQ in EN.
    rewrite EN. cbn [bind_result]. rewrite <- EN.
    replace b with (Z.pos y - Z.pos x) by lia. f_equal.
    apply (verdict_negative_difference x y Hx Ha).
Qed.

(** The code's normalization is the specification's: multiplying a negative
    difference by minus one takes its absolute value. *)
Lemma is_movie_with_sample_normalized (first second : File) :
  is_movie_with_sample [first; second]
  = do m <- normalized_size_diff (size first) (size second);
    Ok (Float.leb (Float.of_Z 90) m).
Proof.
  unfold is_movie_with_sample, normalized_size_diff.
  destruct (Float.int_truediv (Z.of_N (size second) - Z.of_N (size first))
              (Z.of_N (size first))) as [ratio|exn] eqn:Hdiv; [|reflexivity].
  cbn [bind_result]. cbv zeta.
  destruct (Float.ltb (Float.mul ratio (Float.of_Z 100)) (Float.of_Z 0)) eqn:Hneg;
    [|reflexivity].
  assert (Hy : 0 < Z.of_N (size first)).
  { destruct (Z.eq_dec (Z.of_N (size first)) 0) as [E|NE]; [|lia].
    rewrite E in Hdiv. discriminate. }
  rewrite (times_minus_one_is_abs _ _ ratio Hdiv Hy Hneg). reflexivity.
Qed.

End FloatFacts.

(** ** The sample heuristic and its division *)

(** C10.  The sample heuristic divides by the first file's size without a
    guard: on two video files it raises [ZeroDivisionError] exactly when the
    first size is zero, the classifier raises with it, and whenever the
    heuristic returns a verdict the first size is positive. *)
Theorem sample_heuristic_needs_positive_first_size
  (cfg : Config) (first second : File) :
  (is_movie_with_sample [first; second] = Raise ZeroDivisionError
   <-> size first = 0%N)
  /\ (size first = 0%N ->
      get_torrent_type cfg [first; second] = Raise ZeroDivisionError)
  /\ (forall verdict, is_movie_with_sample [first; second] = Ok verdict ->
      (0 < size first)%N).
Proof.
  assert (Hzero : size first = 0%N ->
                  is_movie_with_sample [first; second] = Raise ZeroDivisionError).
  { intros E. unfold is_movie_with_sample. rewrite E. reflexivity. }
  assert (Hpos : size first <> 0%N ->
                 is_movie_with_sample [first; second] <> Raise ZeroDivisionError).
  { intros NZ. unfold is_movie_with_sample.
    destruct (int_truediv_nonzero (Z.of_N (size second) - Z.of_N (size first))
                (Z.of_N (size first))) as [-> | [q [-> _]]];
      [lia | |]; cbn [bind_result]; discriminate. }
  repeat split.
  - intros H. destruct (N.eq_dec (size first) 0) as [E|NZ]; [exact E|].
    exfalso; exact (Hpos NZ H).
  - exact Hzero.
  - intros E. unfold get_torrent_type. rewrite (Hzero E). reflexivity.
  - intros verdict H. destruct (N.eq_dec (size first) 0) as [E|NZ]; [|lia].
    rewrite (Hzero E) in H. discriminate.
Qed.

Section WorldFacts.

Variable sys : System.

(** ** What each step does to the state *)

Lemma move_torrent_file_cases (cfg : Config) (source_file target_dir : str)
  (st : State sys) :
  let target := target_of cfg source_file target_dir in
  let source := source_of cfg source_file in
  move_torrent_file sys cfg source_file target_dir st =
    if path_exists sys (world st) target
    then (Build_State (world st) (trace st ++ [LogAlreadyExists target]), Ok true)
    else if DRY_RUN cfg
    then (Build_State (world st)
            (trace st ++ [LogMoving source target; LogSkippingDryRun]), Ok true)
    else if snd (copyfile sys (world st) source target)
    then (Build_State (fst (copyfile sys (world st) source target))
            (trace st ++ [LogMoving source target; CallCopyfile source target]),
          Ok true)
    else (Build_State (fst (copyfile sys (world st) source target))
            (trace st ++ [LogMoving source target; CallCopyfile source target;
                          LogErrorMoving target]),
          Ok false).
Proof.
  cbv zeta. unfold move_torrent_file, target_of, source_of, try_except, bind,
    exists_, is_dry_run, call, emit, ret.
  destruct (path_exists sys (world st) _); cbn; [reflexivity|].
  destruct (DRY_RUN cfg); cbn.
  - rewrite <- !app_assoc. reflexivity.
  - destruct (copyfile sys (world st) _ _) as [w [|]]; cbn;
      rewrite <- !app_assoc; reflexivity.
Qed.

Lemma get_season_dir_cases (cfg : Config) (series_name_ season_num_ : str)
  (st : State sys) :
  let season_dir := season_dir_of cfg series_name_ season_num_ in
  get_season_dir sys cfg series_name_ season_num_ st =
    if path_exists sys (world st) season_dir then (st, Ok season_dir)
    else if DRY_RUN cfg
    then (Build_State (world st)
            (trace st ++ [LogCreatingSeasonDir; LogSkippingDryRun]), Ok season_dir)
    else (Build_State (fst (makedirs sys (world st) season_dir))
            (trace st ++ [LogCreatingSeasonDir; CallMakedirs season_dir]),
          if snd (makedirs sys (world st) season_dir)
          then Ok season_dir else Raise OSError).
Proof.
  cbv zeta. unfold get_season_dir, season_dir_of, bind, exists_, is_dry_run,
    call, emit, ret.
  destruct (path_exists sys (world st) _); cbn; [reflexivity|].
  destruct (DRY_RUN cfg); cbn.
  - rewrite <- !app_assoc. reflexivity.
  - destruct (makedirs sys (world st) _) as [w [|]]; cbn;
      rewrite <- !app_assoc; reflexivity.
Qed.

Lemma quiet_app (a b : list Event) : quiet a -> quiet b -> quiet (a ++ b).
Proof. unfold quiet. rewrite forallb_app. intros -> ->. reflexivity. Qed.

Lemma harmless_app (a b : list Event) :
  harmless a -> harmless b -> harmless (a ++ b).
Proof. unfold harmless. rewrite forallb_app. intros -> ->. reflexivity. Qed.

Lemma error_only_last_quiet (evs : list Event) :
  quiet evs -> error_only_last evs = true.
Proof.
  unfold quiet. induction evs as [|e evs IH]; cbn; [reflexivity|].
  rewrite andb_true_iff, negb_true_iff. intros [-> H]. auto.
Qed.

Lemma error_only_last_app (a b : list Event) :
  quiet a -> error_only_last b = true -> error_only_last (a ++ b) = true.
Proof.
  unfold quiet. induction a as [|e a IH]; cbn; [auto|].
  rewrite andb_true_iff, negb_true_iff. intros [-> H]. auto.
Qed.

(** [error_only_last], read on the positions of a trace. *)
Lemma error_only_last_spec (evs : list Event) :
  error_only_last evs = true <->
  forall before target after,
    evs = before ++ LogErrorMoving target :: after -> after = [].
Proof.
  induction evs as [|e evs IH]; cbn.
  - split; [|reflexivity]. intros _ [|? ?] ? ? E; discriminate.
  - destruct (is_error e) eqn:Ee.
    + destruct evs as [|e' evs].
      * split; [|reflexivity]. intros _ [|x [|y before]] target after E;
          try discriminate. injection E as _ <-. reflexivity.
      * split; [discriminate|]. intros H. destruct e; try discriminate.
        specialize (H [] target (e' :: evs) eq_refl). discriminate.
    + rewrite IH. split.
      * intros H [|x before] target after E.
        -- injection E as -> _. discriminate.
        -- injection E as _ E. exact (H _ _ _ E).
      * intros H before target after E.
        apply (H (e :: before) target after). rewrite E. reflexivity.
Qed.

(** What one relocation attempt adds to the trace. *)
Lemma move_torrent_file_trace (cfg : Config) (source_file target_dir : str)
  (st st' : State sys) (r : result bool) :
  move_torrent_file sys cfg source_file target_dir st = (st', r) ->
  exists evs, trace st' = trace st ++ evs /\
    ((r = Ok true /\ quiet evs) \/
     (r = Ok false /\ exists evs0 target,
         evs = evs0 ++ [LogErrorMoving target] /\ quiet evs0)).
Proof.
  rewrite move_torrent_file_cases.
  destruct (path_exists sys (world st) _);
    [|destruct (DRY_RUN cfg);
      [|destruct (snd (copyfile sys (world st) _ _))]];
    intros E; injection E as <- <-; cbn [trace];
    eexists; (split; [reflexivity|]).
  1-3: left; split; reflexivity.
  right. split; [reflexivity|].
  exists [LogMoving (source_of cfg source_file)
                    (target_of cfg source_file target_dir);
          CallCopyfile (source_of cfg source_file)
                       (target_of cfg source_file target_dir)].
  eexists. split; reflexivity.
Qed.

Lemma get_season_dir_trace (cfg : Config) (series_name_ season_num_ : str)
  (st st' : State sys) (r : result str) :
  get_season_dir sys cfg series_name_ season_num_ st = (st', r) ->
  exists evs, trace st' = trace st ++ evs /\ quiet evs.
Proof.
  rewrite get_season_dir_cases.
  destruct (path_exists sys (world st) _); [|destruct (DRY_RUN cfg)];
    intros E; injection E as <- <-; cbn [trace].
  - exists []. rewrite app_nil_r. split; reflexivity.
  - eexists. split; reflexivity.
  - eexists. split; reflexivity.
Qed.

Lemma move_episodes_cons (cfg : Config) (episode : EpisodeData)
  (rest : list EpisodeData) (moved : bool) (st : State sys) :
  move_episodes sys cfg (episode :: rest) moved st =
    match get_season_dir sys cfg (series_name episode) (season_num episode) st with
    | (st1, Ok season_dir) =>
        match move_torrent_file sys cfg (filename episode) season_dir st1 with
        | (st2, Ok true) => move_episodes sys cfg rest true st2
        | (st2, Ok false) => (st2, Ok (false, true))
        | (st2, Raise e) => (st2, Raise e)
        end
    | (st1, Raise e) => (st1, Raise e)
    end.
Proof.
  cbn [move_episodes]. unfold bind.
  destruct (get_season_dir _ _ _ _ st) as [st1 [dir|e]]; [|reflexivity].
  destruct (move_torrent_file _ _ _ _ st1) as [st2 [[|]|e]]; reflexivity.
Qed.

Lemma move_seasons_cons (cfg : Config) (key : str) (episodes : list EpisodeData)
  (rest : Seasons) (moved : bool) (st : State sys) :
  move_seasons sys cfg ((key, episodes) :: rest) moved st =
    match move_episodes sys cfg episodes moved st with
    | (st1, Ok (moved', true)) => (st1, Ok moved')
    | (st1, Ok (moved', false)) => move_seasons sys cfg rest moved' st1
    | (st1, Raise e) => (st1, Raise e)
    end.
Proof.
  cbn [move_seasons]. unfold bind.
  destruct (move_episodes _ _ _ _ st) as [st1 [[m [|]]|e]]; reflexivity.
Qed.

(** ** The season loops stop at the first failure *)

Lemma move_episodes_trace (cfg : Config) (episodes : list EpisodeData) :
  forall (moved : bool) (st st' : State sys) (r : result (bool * bool)),
  move_episodes sys cfg episodes moved st = (st', r) ->
  exists evs, trace st' = trace st ++ evs /\
    match r with
    | Ok (_, true) =>
        exists evs0 target, evs = evs0 ++ [LogErrorMoving target] /\ quiet evs0
    | _ => quiet evs
    end.
Proof.
  induction episodes as [|episode rest IH]; intros moved st st' r.
  - cbn. intros E; injection E as <- <-. exists [].
    rewrite app_nil_r. split; reflexivity.
  - rewrite move_episodes_cons.
    destruct (get_season_dir _ _ _ _ st) as [st1 [dir|e]] eqn:G;
      destruct (get_season_dir_trace _ _ _ _ _ _ G) as [evs1 [T1 Q1]].
    + destruct (move_torrent_file _ _ _ _ st1) as [st2 r2] eqn:Mv.
      destruct (move_torrent_file_trace _ _ _ _ _ _ Mv)
        as [evs2 [T2 [[-> Q2] | [-> [evs0 [target [-> Q0]]]]]]].
      * intros E. destruct (IH _ _ _ _ E) as [evs3 [T3 H3]].
        exists (evs1 ++ evs2 ++ evs3). split.
        -- rewrite T3, T2, T1, <- !app_assoc. reflexivity.
        -- destruct r as [[m [|]]|e].
           ++ destruct H3 as [evs0 [target [-> Q0]]].
              exists (evs1 ++ evs2 ++ evs0), target. split.
              ** rewrite <- !app_assoc. reflexivity.
              ** auto using quiet_app.
           ++ auto using quiet_app.
           ++ auto using quiet_app.
      * intros E; injection E as <- <-.
        exists (evs1 ++ evs0 ++ [LogErrorMoving target]). split.
        -- rewrite T2, T1, <- !app_assoc. reflexivity.
        -- exists (evs1 ++ evs0), target. split.
           ++ rewrite <- !app_assoc. reflexivity.
           ++ auto using quiet_app.
    + intros E; injection E as <- <-. exists evs1. auto.
Qed.

Lemma move_seasons_trace (cfg : Config) (seasons_ : Seasons) :
  forall (moved : bool) (st st' : State sys) (r : result bool),
  move_seasons sys cfg seasons_ moved st = (st', r) ->
  exists evs, trace st' = trace st ++ evs /\ error_only_last evs = true.
Proof.
  induction seasons_ as [|[key episodes] rest IH]; intros moved st st' r.
  - cbn. intros E; injection E as <- <-. exists [].
    rewrite app_nil_r. split; reflexivity.
  - rewrite move_seasons_cons.
    destruct (move_episodes _ _ _ _ st) as [st1 r1] eqn:Ep.
    destruct (move_episodes_trace _ _ _ _ _ _ Ep) as [evs1 [T1 H1]].
    destruct r1 as [[m [|]]|e].
    + intros E; injection E as <- <-. exists evs1. split; [exact T1|].
      destruct H1 as [evs0 [target [-> Q0]]].
      apply error_only_last_app; [exact Q0|reflexivity].
    + intros E. destruct (IH _ _ _ _ E) as [evs2 [T2 H2]].
      exists (evs1 ++ evs2). split.
      * rewrite T2, T1, <- app_assoc. reflexivity.
      * apply error_only_last_app; assumption.
    + intros E; injection E as <- <-. exists evs1. split; [exact T1|].
      apply error_only_last_quiet; exact H1.
Qed.

(** C7.  While a season or a series is relocated, an "Error moving" line —
    which [move_torrent_file] writes exactly when it returns [False] — is the
    last event of the job: no directory is created, no file is copied and no
    relocation is attempted after it, in that season or in a later one. *)
Theorem season_relocation_stops_at_first_failure
  (cfg : Config) (video_files : list File) (torrent_type : TorrentType)
  (data : SeriesData) (st st' : State sys) (r : result bool) :
  torrent_type = SEASON \/ torrent_type = SERIES ->
  relocate sys cfg video_files torrent_type (SeriesInfo data) st = (st', r) ->
  exists evs, trace st' = trace st ++ evs /\
    forall before target after,
      evs = before ++ LogErrorMoving target :: after -> after = [].
Proof.
  intros Ty E.
  assert (E' : move_seasons sys cfg (seasons data) false st = (st', r))
    by (destruct Ty; subst torrent_type; exact E).
  destruct (move_seasons_trace _ _ _ _ _ _ E') as [evs [T H]].
  exists evs. split; [exact T|]. apply error_only_last_spec; exact H.
Qed.

(** ** What ends up in the removal list *)

Lemma status_eqb_eq (a b : TorrentStatus) : status_eqb a b = true -> a = b.
Proof. destruct a, b; cbn; congruence. Qed.

Lemma move_episodes_last (cfg : Config) (episodes : list EpisodeData) :
  forall (moved broke : bool) (st st' : State sys),
  move_episodes sys cfg episodes moved st = (st', Ok (true, broke)) ->
  (moved = true /\ st' = st) \/ last_attempt_succeeded sys cfg st'.
Proof.
  induction episodes as [|episode rest IH]; intros moved broke st st'.
  - cbn. intros E; injection E as <- <- <-. left; split; reflexivity.
  - rewrite move_episodes_cons.
    destruct (get_season_dir _ _ _ _ st) as [st1 [dir|e]]; [|discriminate].
    destruct (move_torrent_file _ _ _ _ st1) as [st2 [[|]|e]] eqn:Mv;
      try discriminate.
    intros E. destruct (IH _ _ _ _ E) as [[_ ->] | H]; [|right; exact H].
    right. exists (filename episode), dir, st1. exact Mv.
Qed.

Lemma move_seasons_last (cfg : Config) (seasons_ : Seasons) :
  forall (moved : bool) (st st' : State sys),
  move_seasons sys cfg seasons_ moved st = (st', Ok true) ->
  (moved = true /\ st' = st) \/ last_attempt_succeeded sys cfg st'.
Proof.
  induction seasons_ as [|[key episodes] rest IH]; intros moved st st'.
  - cbn. intros E; injection E as <- <-. left; split; reflexivity.
  - rewrite move_seasons_cons.
    destruct (move_episodes _ _ _ _ st) as [st1 [[m [|]]|e]] eqn:Ep;
      try discriminate.
    + intros E; injection E as <- ->.
      destruct (move_episodes_last _ _ _ _ _ _ Ep) as [[? ?] | H]; auto.
    + intros E. destruct (IH _ _ _ E) as [[-> ->] | H]; [|right; exact H].
      exact (move_episodes_last _ _ _ _ _ _ Ep).
Qed.

Lemma relocate_true (cfg : Config) (video_files : list File)
  (torrent_type : TorrentType) (type_data : TypeData) (st st' : State sys) :
  relocate sys cfg video_files torrent_type type_data st = (st', Ok true) ->
  torrent_type <> UNKNOWN /\ last_attempt_succeeded sys cfg st'.
Proof.
  intros E. split; [intros ->; discriminate|].
  destruct torrent_type; cbn in E.
  - discriminate.
  - destruct video_files as [|first ?]; [discriminate|].
    eexists _, _, _; exact E.
  - destruct video_files as [|first [|second ?]]; try discriminate.
    eexists _, _, _; exact E.
  - destruct type_data as [|data|]; try discriminate.
    unfold bind in E.
    destruct (get_season_dir _ _ _ _ st) as [st1 [dir|e]]; [|discriminate].
    eexists _, _, _; exact E.
  - destruct type_data as [| |data]; try discriminate.
    destruct (move_seasons_last _ _ _ _ _ E) as [[? _] | H];
      [discriminate | exact H].
  - destruct type_data as [| |data]; try discriminate.
    destruct (move_seasons_last _ _ _ _ _ E) as [[? _] | H];
      [discriminate | exact H].
Qed.

Lemma process_torrent_true (cfg : Config) (torrent : Torrent)
  (st st' : State sys) :
  process_torrent sys cfg torrent st = (st', Ok true) ->
  In (status torrent) TORRENT_COMPLETE_STATUS
  /\ get_video_files (files torrent) <> []
  /\ (exists torrent_type type_data,
        get_torrent_type cfg (get_video_files (files torrent))
          = Ok (torrent_type, type_data)
        /\ torrent_type <> UNKNOWN)
  /\ last_attempt_succeeded sys cfg st'.
Proof.
  unfold process_torrent.
  destruct (existsb _ TORRENT_COMPLETE_STATUS) eqn:Hs; [|discriminate].
  apply existsb_exists in Hs. destruct Hs as [s [Hin Heq]].
  apply status_eqb_eq in Heq. subst s.
  destruct (get_video_files (files torrent)) as [|f fs] eqn:Hv; [discriminate|].
  unfold bind, lift.
  destruct (get_torrent_type cfg (f :: fs)) as [[ty td]|e]; [|discriminate].
  intros E. apply relocate_true in E. destruct E as [Hty Hlast].
  repeat split; try assumption; [discriminate|].
  exists ty, td. split; [reflexivity|assumption].
Qed.

Lemma collect_ids_added (cfg : Config) (torrents : list Torrent) :
  forall (ids0 : list Z) (st st' : State sys) (ids : list Z),
  collect_ids sys cfg torrents ids0 st = (st', Ok ids) ->
  exists added, ids = ids0 ++ added /\
    forall id, In id added ->
      exists torrent st1 st2,
        In torrent torrents /\ torrent_id torrent = id
        /\ is_finished torrent = true
        /\ process_torrent sys cfg torrent st1 = (st2, Ok true).
Proof.
  induction torrents as [|torrent rest IH]; intros ids0 st st' ids.
  - cbn. intros E; injection E as <- <-. exists [].
    rewrite app_nil_r. split; [reflexivity|]. intros id [].
  - cbn [collect_ids]. unfold bind at 1.
    destruct (process_torrent sys cfg torrent st) as [st1 [moved|e]] eqn:P;
      [|discriminate].
    destruct (moved && is_finished torrent) eqn:B.
    + apply andb_true_iff in B. destruct B as [-> Fin].
      unfold bind, emit. intros E. apply IH in E.
      destruct E as [added [-> H]].
      exists (torrent_id torrent :: added). split.
      * rewrite <- app_assoc. reflexivity.
      * intros id [<- | Hin].
        -- exists torrent, st, st1. cbn. auto.
        -- destruct (H id Hin) as [t [sa [sb [? ?]]]].
           exists t, sa, sb. cbn. auto.
    + intros E. apply IH in E. destruct E as [added [-> H]].
      exists added. split; [reflexivity|].
      intros id Hin. destruct (H id Hin) as [t [sa [sb [? ?]]]].
      exists t, sa, sb. cbn. auto.
Qed.

Lemma nodup_map_inj {A B : Type} (f : A -> B) (l : list A) (a b : A) :
  NoDup (map f l) -> In a l -> In b l -> f a = f b -> a = b.
Proof.
  induction l as [|x l IH]; cbn; [intros _ []|].
  intros ND. inversion ND as [|? ? Hnot ND']; subst.
  intros [-> | Ha] [-> | Hb] E; auto.
  - exfalso. apply Hnot. rewrite E. apply in_map; exact Hb.
  - exfalso. apply Hnot. rewrite <- E. apply in_map; exact Ha.
Qed.

(** C6.  Every id in the removal list belongs to a torrent of the run that
    is finished, has a complete status and at least one video file, was
    classified as something other than unknown, and whose processing ended
    on a relocation attempt that returned [True].  With distinct ids, a
    torrent that is not finished, has no video file or is unclassified is
    therefore never in the list. *)
Theorem removal_list_sound
  (cfg : Config) (torrents : list Torrent) (st st' : State sys) (ids : list Z) :
  collect_ids sys cfg torrents [] st = (st', Ok ids) ->
  (forall id, In id ids ->
     exists torrent st1 st2,
       In torrent torrents /\ torrent_id torrent = id
       /\ is_finished torrent = true
       /\ In (status torrent) TORRENT_COMPLETE_STATUS
       /\ get_video_files (files torrent) <> []
       /\ (exists torrent_type type_data,
             get_torrent_type cfg (get_video_files (files torrent))
               = Ok (torrent_type, type_data)
             /\ torrent_type <> UNKNOWN)
       /\ process_torrent sys cfg torrent st1 = (st2, Ok true)
       /\ last_attempt_succeeded sys cfg st2)
  /\ (NoDup (map torrent_id torrents) ->
      forall torrent, In torrent torrents ->
        is_finished torrent = false
        \/ get_video_files (files torrent) = []
        \/ (exists type_data,
              get_torrent_type cfg (get_video_files (files torrent))
                = Ok (UNKNOWN, type_data)) ->
        ~ In (torrent_id torrent) ids).
Proof.
  intros E. apply collect_ids_added in E. destruct E as [added [-> H]].
  cbn [app].
  assert (Hsound : forall id, In id added ->
     exists torrent st1 st2,
       In torrent torrents /\ torrent_id torrent = id
       /\ is_finished torrent = true
       /\ In (status torrent) TORRENT_COMPLETE_STATUS
       /\ get_video_files (files torrent) <> []
       /\ (exists torrent_type type_data,
             get_torrent_type cfg (get_video_files (files torrent))
               = Ok (torrent_type, type_data)
             /\ torrent_type <> UNKNOWN)
       /\ process_torrent sys cfg torrent st1 = (st2, Ok true)
       /\ last_attempt_succeeded sys cfg st2).
  { intros id Hin. destruct (H id Hin) as [t [st1 [st2 [Ht [Hid [Hfin P]]]]]].
    destruct (process_torrent_true _ _ _ _ P) as [Hs [Hv [Hc Hl]]].
    exists t, st1, st2. auto 10. }
  split; [exact Hsound|].
  intros ND torrent Hin Hbad Hid.
  destruct (Hsound _ Hid)
    as [t [st1 [st2 [Ht [Heq [Hfin [_ [Hv [[ty [td [Hc Hty]]] _]]]]]]]]].
  assert (t = torrent) by (eapply nodup_map_inj; eauto). subst t.
  destruct Hbad as [Hnf | [Hnv | [td' Hu]]].
  - congruence.
  - contradiction.
  - rewrite Hu in Hc. injection Hc as <- _. contradiction.
Qed.

(** ** Dry run *)

Lemma dry_safe_ret {A : Type} (a : A) : dry_safe (@ret sys A a).
Proof.
  intros st st' r E; injection E as <- <-. split; [reflexivity|].
  exists []. rewrite app_nil_r. split; reflexivity.
Qed.

Lemma dry_safe_lift {A : Type} (x : result A) : dry_safe (@lift sys A x).
Proof.
  intros st st' r E; injection E as <- <-. split; [reflexivity|].
  exists []. rewrite app_nil_r. split; reflexivity.
Qed.

Lemma dry_safe_bind {A B : Type} (m : M sys A) (k : A -> M sys B) :
  dry_safe m -> (forall a, dry_safe (k a)) -> dry_safe (bind m k).
Proof.
  intros Hm Hk st st' r. unfold bind.
  destruct (m st) as [st1 [a|e]] eqn:Em; intros E.
  - destruct (Hm _ _ _ Em) as [W1 [evs1 [T1 H1]]].
    destruct (Hk a _ _ _ E) as [W2 [evs2 [T2 H2]]].
    split; [congruence|]. exists (evs1 ++ evs2). split.
    + rewrite T2, T1, <- app_assoc. reflexivity.
    + apply harmless_app; assumption.
  - injection E as <- <-. exact (Hm _ _ _ Em).
Qed.

Lemma is_dry_run_true (cfg : Config) (st : State sys) :
  DRY_RUN cfg = true ->
  is_dry_run sys cfg st =
    (Build_State (world st) (trace st ++ [LogSkippingDryRun]), Ok true).
Proof. intros D. unfold is_dry_run. rewrite D. reflexivity. Qed.

Lemma move_torrent_file_dry (cfg : Config) (source_file target_dir : str) :
  DRY_RUN cfg = true ->
  dry_safe (move_torrent_file sys cfg source_file target_dir)
  /\ forall st, snd (move_torrent_file sys cfg source_file target_dir st) = Ok true.
Proof.
  intros D. split.
  - intros st st' r. rewrite move_torrent_file_cases, D.
    destruct (path_exists sys (world st) _); intros E; injection E as <- <-;
      (split; [reflexivity|]); eexists; split; reflexivity.
  - intros st. rewrite move_torrent_file_cases, D.
    destruct (path_exists sys (world st) _); reflexivity.
Qed.

Lemma get_season_dir_dry (cfg : Config) (series_name_ season_num_ : str) :
  DRY_RUN cfg = true ->
  dry_safe (get_season_dir sys cfg series_name_ season_num_).
Proof.
  intros D st st' r. rewrite get_season_dir_cases, D.
  destruct (path_exists sys (world st) _); intros E; injection E as <- <-;
    (split; [reflexivity|]).
  - exists []. rewrite app_nil_r. split; reflexivity.
  - eexists; split; reflexivity.
Qed.

Lemma move_episodes_dry (cfg : Config) (episodes : list EpisodeData) :
  DRY_RUN cfg = true -> forall moved, dry_safe (move_episodes sys cfg episodes moved).
Proof.
  intros D. induction episodes as [|episode rest IH]; intros moved; cbn.
  - apply dry_safe_ret.
  - apply dry_safe_bind; [apply get_season_dir_dry; exact D|]. intros dir.
    apply dry_safe_bind; [apply move_torrent_file_dry; exact D|]. intros m.
    destruct (negb m); [apply dry_safe_ret | apply IH].
Qed.

Lemma move_seasons_dry (cfg : Config) (seasons_ : Seasons) :
  DRY_RUN cfg = true -> forall moved, dry_safe (move_seasons sys cfg seasons_ moved).
Proof.
  intros D. induction seasons_ as [|[key episodes] rest IH]; intros moved; cbn.
  - apply dry_safe_ret.
  - apply dry_safe_bind; [apply move_episodes_dry; exact D|].
    intros [m [|]]; [apply dry_safe_ret | apply IH].
Qed.

Lemma relocate_dry (cfg : Config) (video_files : list File)
  (torrent_type : TorrentType) (type_data : TypeData) :
  DRY_RUN cfg = true ->
  dry_safe (relocate sys cfg video_files torrent_type type_data).
Proof.
  intros D. destruct torrent_type; cbn.
  - apply dry_safe_ret.
  - destruct video_files; [apply dry_safe_lift|].
    apply move_torrent_file_dry; exact D.
  - destruct video_files as [|? [|? ?]]; try apply dry_safe_lift.
    apply move_torrent_file_dry; exact D.
  - destruct type_data; try apply dry_safe_lift.
    apply dry_safe_bind; [apply get_season_dir_dry; exact D|]. intros dir.
    apply move_torrent_file_dry; exact D.
  - destruct type_data; try apply dry_safe_lift.
    apply move_seasons_dry; exact D.
  - destruct type_data; try apply dry_safe_lift.
    apply move_seasons_dry; exact D.
Qed.

Lemma process_torrent_dry (cfg : Config) (torrent : Torrent) :
  DRY_RUN cfg = true -> dry_safe (process_torrent sys cfg torrent).
Proof.
  intros D. unfold process_torrent.
  destruct (existsb _ _); [|apply dry_safe_ret].
  destruct (get_video_files _); [apply dry_safe_ret|].
  apply dry_safe_bind; [apply dry_safe_lift|]. intros [ty td].
  apply relocate_dry; exact D.
Qed.

Lemma dry_safe_log (e : Event) : is_mutation e = false -> dry_safe (@emit sys e).
Proof.
  intros He st st' r E; injection E as <- <-. split; [reflexivity|].
  exists [e]. split; [reflexivity|]. unfold harmless. cbn. rewrite He. reflexivity.
Qed.

Lemma collect_ids_dry (cfg : Config) (torrents : list Torrent) :
  DRY_RUN cfg = true ->
  forall ids0, dry_safe (collect_ids sys cfg torrents ids0).
Proof.
  intros D. induction torrents as [|torrent rest IH]; intros ids0; cbn.
  - apply dry_safe_ret.
  - apply dry_safe_bind; [apply process_torrent_dry; exact D|]. intros moved.
    destruct (moved && is_finished torrent); [|apply IH].
    apply dry_safe_bind; [apply dry_safe_log; reflexivity|]. intros _. apply IH.
Qed.

Lemma main_dry (cfg : Config) (client : option (list Torrent)) :
  DRY_RUN cfg = true -> dry_safe (main sys cfg client).
Proof.
  intros D. destruct client as [torrents|]; cbn; [|apply dry_safe_ret].
  apply dry_safe_bind; [apply collect_ids_dry; exact D|]. intros ids.
  apply dry_safe_bind; [|intros _; apply dry_safe_ret].
  destruct ids as [|id ids]; [apply dry_safe_ret|].
  apply dry_safe_bind; [apply dry_safe_log; reflexivity|]. intros _.
  intros st st' r. unfold bind at 1. rewrite (is_dry_run_true _ _ D). cbn.
  intros E; injection E as <- <-. split; [reflexivity|].
  eexists; split; reflexivity.
Qed.

(** C9, as the code has it.  With [DRY_RUN] set, a run leaves the world
    as it is and calls neither [makedirs] nor [copyfile] nor the removal
    request; the classifier answers as it does without the flag; and every
    relocation attempt returns [True] — whereas without the flag an attempt
    returns [True] only when the target is already there or the copy
    returns. *)
Theorem dry_run_mutates_nothing (cfg : Config) (client : option (list Torrent)) :
  DRY_RUN cfg = true ->
  (forall st st' r,
     main sys cfg client st = (st', r) ->
     world st' = world st /\
     exists evs, trace st' = trace st ++ evs /\ harmless evs)
  /\ (forall video_files,
        get_torrent_type cfg video_files
        = get_torrent_type (with_dry_run false cfg) video_files)
  /\ (forall source_file target_dir st,
        snd (move_torrent_file sys cfg source_file target_dir st) = Ok true)
  /\ (forall source_file target_dir st,
        snd (move_torrent_file sys (with_dry_run false cfg)
               source_file target_dir st) = Ok true
        <-> (path_exists sys (world st)
               (Path.join target_dir (Path.basename source_file)) = true
             \/ snd (copyfile sys (world st)
                       (Path.join (DIR_DOWNLOAD cfg) source_file)
                       (Path.join target_dir (Path.basename source_file)))
                = true)).
Proof.
  intros D. repeat split.
  - destruct (main_dry cfg client D _ _ _ H) as [W _]. exact W.
  - destruct (main_dry cfg client D _ _ _ H) as [_ T]. exact T.
  - intros video_files. apply get_torrent_type_config. reflexivity.
  - intros source_file target_dir st.
    apply (move_torrent_file_dry cfg source_file target_dir D).
  - rewrite move_torrent_file_cases. unfold target_of, source_of. cbn.
    destruct (path_exists sys (world st) _); [auto|].
    destruct (snd (copyfile sys (world st) _ _)); cbn; [auto|discriminate].
  - rewrite move_torrent_file_cases. unfold target_of, source_of. cbn.
    destruct (path_exists sys (world st) _); [reflexivity|].
    intros [?| ->]; [discriminate|reflexivity].
Qed.

(** ** The relocator *)

(** C8.  When a file of the same base name already exists in the target
    directory, [move_torrent_file] returns [True], leaves the world as it
    is and only writes the "already exists" log line: the copy primitive is
    not called. *)
Theorem move_torrent_file_already_there
  (cfg : Config) (source_file target_dir : str) (st : State sys) :
  path_exists sys (world st) (Path.join target_dir (Path.basename source_file)) = true ->
  move_torrent_file sys cfg source_file target_dir st =
    ({| world := world st;
        trace := trace st
                 ++ [LogAlreadyExists
                       (Path.join target_dir (Path.basename source_file))] |},
     Ok true).
Proof.
  intros H. unfold move_torrent_file, try_except, bind, exists_.
  rewrite H. reflexivity.
Qed.

(** ** Which file of a movie with sample is relocated *)

(** The branch for a movie with sample compares the sizes with a strict
    less-than: read by itself it would take the first file of two of equal
    size.  The classifier never sends such a pair there, as
    [is_movie_with_sample_equal_sizes] shows. *)
Remark strict_comparison_keeps_first_on_equal_sizes
  (cfg : Config) (first second : File) (type_data : TypeData) :
  size first = size second ->
  relocate sys cfg [first; second] MOVIE_WITH_SAMPLE type_data
    = move_torrent_file sys cfg (name first) (DIR_FILM cfg).
Proof.
  intros E. unfold relocate. rewrite E, N.ltb_irrefl. reflexivity.
Qed.

End WorldFacts.

(** On two video files the classifier answers movie-with-sample exactly when
    the heuristic signals a sample, and attaches no data. *)
Lemma get_torrent_type_sample
  (cfg : Config) (first second : File) (data : TypeData) :
  get_torrent_type cfg [first; second] = Ok (MOVIE_WITH_SAMPLE, data)
  <-> is_movie_with_sample [first; second] = Ok true /\ data = NoData.
Proof.
  unfold get_torrent_type.
  destruct (is_movie_with_sample [first; second]) as [[|]|exn];
    cbn [bind_result].
  - split.
    + intros E. injection E as <-. split; reflexivity.
    + intros [_ ->]. reflexivity.
  - split; [|intros [E _]; discriminate].
    destruct (get_series_data cfg [first; second]) as [[series|]|exn];
      cbn [bind_result]; try discriminate.
    destruct (seasons_count series =? 1)%nat; discriminate.
  - split; [discriminate|intros [E _]; discriminate].
Qed.


(** C2.  On a job of exactly two video files the classifier declares
    movie-with-sample exactly when the normalized size difference, computed
    in floats as the difference of the sizes over the first size times 100,
    replaced by its absolute value when negative and divided by 10 when it
    exceeds 100, is defined and at least 90.0; it attaches no data then.
    Sizes 100 and 1000 give 90.0 and movie-with-sample; sizes 100 and 150
    give 50.0 and no movie-with-sample.  For sizes up to [2 ^ 49] bytes with
    a positive first size the float verdict is the verdict of exact
    arithmetic on the sizes. *)
Theorem sample_heuristic_threshold (cfg : Config) (first second : File) :
  (get_torrent_type cfg [first; second] = Ok (MOVIE_WITH_SAMPLE, NoData)
   <-> exists magnitude,
         normalized_size_diff (size first) (size second) = Ok magnitude
         /\ Float.leb (Float.of_Z 90) magnitude = true)
  /\ (forall data,
        get_torrent_type cfg [first; second] = Ok (MOVIE_WITH_SAMPLE, data) ->
        data = NoData)
  /\ (size first = 100%N -> size second = 1000%N ->
      normalized_size_diff (size first) (size second) = Ok (Float.of_Z 90)
      /\ get_torrent_type cfg [first; second] = Ok (MOVIE_WITH_SAMPLE, NoData))
  /\ (size first = 100%N -> size second = 150%N ->
      normalized_size_diff (size first) (size second) = Ok (Float.of_Z 50)
      /\ forall data,
           get_torrent_type cfg [first; second] <> Ok (MOVIE_WITH_SAMPLE, data))
  /\ ((0 < size first)%N ->
      (size first <= 2 ^ 49)%N -> (size second <= 2 ^ 49)%N ->
      is_movie_with_sample [first; second]
      = Ok (exact_verdict (Z.of_N (size first)) (Z.of_N (size second)))).
Proof.
  assert (Hiff : forall data,
            get_torrent_type cfg [first; second] = Ok (MOVIE_WITH_SAMPLE, data)
            <-> (exists magnitude,
                   normalized_size_diff (size first) (size second) = Ok magnitude
                   /\ Float.leb (Float.of_Z 90) magnitude = true)
                /\ data = NoData).
  { intros data. rewrite get_torrent_type_sample.
    rewrite FloatFacts.is_movie_with_sample_normalized.
    destruct (normalized_size_diff (size first) (size second)) as [m|exn];
      cbn [bind_result].
    - split.
      + intros [E ->]. injection E as E. split; [exists m; auto|reflexivity].
      + intros [[m' [E L]] ->]. injection E as ->. rewrite L. auto.
    - split.
      + intros [E _]. discriminate.
      + intros [[m' [E _]] _]. discriminate. }
  split; [|split; [|split; [|split]]].
  - rewrite Hiff. split; [intros [H _]; exact H|intros H; auto].
  - intros data H. apply Hiff in H. apply H.
  - intros E1 E2.
    assert (N : normalized_size_diff (size first) (size second)
                = Ok (Float.of_Z 90)).
    { rewrite E1, E2. vm_compute. reflexivity. }
    split; [exact N|]. apply Hiff. split; [|reflexivity].
    exists (Float.of_Z 90). split; [exact N|reflexivity].
  - intros E1 E2.
    assert (N : normalized_size_diff (size first) (size second)
                = Ok (Float.of_Z 50)).
    { rewrite E1, E2. vm_compute. reflexivity. }
    split; [exact N|]. intros data H. apply Hiff in H.
    destruct H as [[m [E L]] _]. rewrite N in E. injection E as <-.
    vm_compute in L. discriminate.
  - intros Hpos Ha Hb. apply FloatFacts.is_movie_with_sample_exact.
    + exact Hpos.
    + apply N2Z.inj_le in Ha. rewrite N2Z.inj_pow in Ha. exact Ha.
    + apply N2Z.inj_le in Hb. rewrite N2Z.inj_pow in Hb. exact Hb.
Qed.

(* ================================================================= *)
(** * Further properties of the code *)

(** ** The matcher is sound and complete for the pieces of a pattern *)

Lemma run_length_firstn (k : Re.cclass) (s : str) :
  forall n, n <= Re.run_length k s ->
  forallb (Re.cmatch k) (firstn n s) = true /\ List.length (firstn n s) = n.
Proof.
  induction s as [|c s IH]; intros n Hn; cbn in Hn.
  - assert (n = 0) by lia. subst n. split; reflexivity.
  - destruct n as [|n]; [split; reflexivity|].
    destruct (Re.cmatch k c) eqn:Hc; [|lia].
    destruct (IH n ltac:(lia)) as [Hall Hlen].
    cbn [firstn forallb List.length]. rewrite Hc, Hall, Hlen. split; reflexivity.
Qed.

Lemma run_length_app (k : Re.cclass) (chunk more : str) :
  forallb (Re.cmatch k) chunk = true ->
  List.length chunk <= Re.run_length k (chunk ++ more).
Proof.
  induction chunk as [|c chunk IH]; cbn; [lia|].
  intros H. apply andb_true_iff in H. destruct H as [-> H].
  specialize (IH H). lia.
Qed.

Lemma counts_spec (it : Re.item) (s : str) (n : nat) :
  In n (Re.counts it s) <->
  Re.rmin it <= n <= Re.run_length (Re.cls it) s
  /\ match Re.rmax it with Some m => n <= m | None => True end.
Proof.
  unfold Re.counts.
  set (run := Re.run_length (Re.cls it) s).
  set (hi := match Re.rmax it with Some m => Nat.min m run | None => run end).
  assert (In n (seq (Re.rmin it) (S hi - Re.rmin it)) <->
          Re.rmin it <= n <= run
          /\ match Re.rmax it with Some m => n <= m | None => True end).
  { rewrite in_seq. unfold hi. destruct (Re.rmax it) as [m|]; lia. }
  destruct (Re.greedy it); [rewrite <- in_rev|]; exact H.
Qed.

Lemma first_some_not_none {A B : Type} (f : A -> option B) (l : list A) (a : A) :
  In a l -> f a <> None -> Re.first_some f l <> None.
Proof.
  induction l as [|x l IH]; cbn; [contradiction|].
  intros [->|Hin] Hf.
  - destruct (f a); [discriminate|contradiction].
  - destruct (f x); [discriminate|]. exact (IH Hin Hf).
Qed.

(** What [match_here] returns is read off a split of a prefix of the text
    into one fitting piece per item. *)
Lemma match_here_sound (p : Re.pattern) :
  forall (s : str) (groups : list str),
  Re.match_here p s = Some groups ->
  exists chunks rest,
    s = List.concat chunks ++ rest
    /\ Forall2 fits p chunks
    /\ groups = captured p chunks.
Proof.
  induction p as [|it p IH]; intros s groups.
  - cbn. intros E; injection E as <-. exists [], s. repeat split. constructor.
  - cbn [Re.match_here]. intros E.
    apply first_some_some in E. destruct E as [n [Hin E]].
    apply counts_spec in Hin. destruct Hin as [[Hlo Hhi] Hmax].
    destruct (Re.match_here p (skipn n s)) as [g|] eqn:M; [|discriminate].
    injection E as <-.
    destruct (IH _ _ M) as [chunks [rest [Hs [Hfit ->]]]].
    destruct (run_length_firstn _ _ _ Hhi) as [Hall Hlen].
    exists (firstn n s :: chunks), rest. split; [|split].
    + cbn [List.concat]. rewrite <- app_assoc, <- Hs. symmetry. apply firstn_skipn.
    + constructor; [|exact Hfit]. unfold fits. rewrite Hlen.
      repeat split; assumption.
    + reflexivity.
Qed.

(** Any such split makes [match_here] succeed. *)
Lemma match_here_complete (p : Re.pattern) :
  forall (chunks : list str) (rest : str),
  Forall2 fits p chunks ->
  Re.match_here p (List.concat chunks ++ rest) <> None.
Proof.
  induction p as [|it p IH]; intros chunks rest F.
  - cbn. discriminate.
  - inversion F as [|? chunk ? chunks' [Hall [Hlo Hmax]] F']; subst.
    cbn [Re.match_here List.concat]. rewrite <- app_assoc.
    apply (first_some_not_none _ _ (List.length chunk)).
    + apply counts_spec. repeat split; try assumption.
      apply run_length_app; exact Hall.
    + rewrite skipn_app, skipn_all, Nat.sub_diag. cbn [skipn app].
      specialize (IH chunks' rest F').
      destruct (Re.match_here p (List.concat chunks' ++ rest)); [discriminate|].
      contradiction.
Qed.

Lemma captured_fits (p : Re.pattern) :
  forall chunks, Forall2 fits p chunks ->
  Forall2 fits (filter Re.capture p) (captured p chunks).
Proof.
  induction p as [|it p IH]; intros chunks F.
  - constructor.
  - inversion F as [|? chunk ? chunks' Hfit F']; subst.
    cbn [filter captured]. destruct (Re.capture it).
    + constructor; [exact Hfit|exact (IH _ F')].
    + exact (IH _ F').
Qed.

Lemma captured_In (p : Re.pattern) :
  forall chunks g, In g (captured p chunks) -> In g chunks.
Proof.
  induction p as [|it p IH]; intros [|chunk chunks] g; cbn; try contradiction.
  destruct (Re.capture it).
  - intros [->|H]; [left; reflexivity|right; exact (IH _ _ H)].
  - intros H. right. exact (IH _ _ H).
Qed.

Lemma In_skipn {A : Type} (n : nat) (l : list A) (x : A) :
  In x (skipn n l) -> In x l.
Proof.
  intros H. rewrite <- (firstn_skipn n l). apply in_or_app. right. exact H.
Qed.

(** The groups of a search fit the capturing items of the pattern, and
    their characters are characters of the text. *)
Lemma search_groups (p : Re.pattern) (s : str) (groups : list str) :
  Re.search p s = Some groups ->
  Forall2 fits (filter Re.capture p) groups
  /\ forall g c, In g groups -> In c g -> In c s.
Proof.
  intros E. apply search_some in E. destruct E as [n E].
  apply match_here_sound in E. destruct E as [chunks [rest [Hs [F ->]]]].
  split; [apply captured_fits; exact F|].
  intros g c Hg Hc. apply (In_skipn n). rewrite Hs.
  apply in_or_app. left. apply in_concat. exists g.
  split; [exact (captured_In _ _ _ Hg)|exact Hc].
Qed.

(** A text that holds the pieces of a pattern somewhere is found. *)
Lemma search_complete (p : Re.pattern) (pre : str) (chunks : list str) (rest : str) :
  Forall2 fits p chunks ->
  Re.search p (pre ++ List.concat chunks ++ rest) <> None.
Proof.
  intros F. pose proof (match_here_complete p chunks rest F) as H.
  destruct (Re.match_here p (List.concat chunks ++ rest)) as [g|] eqn:M;
    [|contradiction].
  destruct (search_app p pre _ _ M) as [g' ->]. discriminate.
Qed.

(** ** What [get_episode_data] returns, whatever pattern matched *)

Lemma basename_suffix (p : str) : exists dir, p = dir ++ Path.basename p.
Proof.
  induction p as [|c p [dir IH]]; [exists []; reflexivity|].
  cbn [Path.basename]. destruct (existsb is_sep p).
  - exists (c :: dir). cbn. f_equal. exact IH.
  - destruct (is_sep c); [exists [c]|exists []]; reflexivity.
Qed.

Lemma basename_no_sep (p : str) : existsb is_sep (Path.basename p) = false.
Proof.
  induction p as [|c p IH]; [reflexivity|].
  cbn [Path.basename]. destruct (existsb is_sep p) eqn:E; [exact IH|].
  destruct (is_sep c) eqn:C; [exact E|].
  cbn [existsb]. rewrite C, E. reflexivity.
Qed.

Lemma basename_of_sep_free (p : str) :
  existsb is_sep p = false -> Path.basename p = p.
Proof.
  destruct p as [|c p]; [reflexivity|]. cbn [existsb Path.basename].
  intros H. apply orb_false_iff in H. destruct H as [-> ->]. reflexivity.
Qed.

Lemma basename_idempotent (p : str) :
  Path.basename (Path.basename p) = Path.basename p.
Proof. apply basename_of_sep_free, basename_no_sep. Qed.

Lemma strip_In (chars s : str) (c : ascii) : In c (strip chars s) -> In c s.
Proof.
  unfold strip. intros H.
  destruct (rstrip_prefix chars (lstrip chars s)) as [suf E].
  destruct (lstrip_suffix chars s) as [pre E'].
  rewrite E'. apply in_or_app. right. rewrite E. apply in_or_app. left. exact H.
Qed.


Lemma SERIES_PATTERNS_groups (pat : Re.pattern) :
  In pat SERIES_PATTERNS ->
  exists lo,
    filter Re.capture pat
    = [Re.group (Re.star_lazy Re.CAny); Re.group (Re.rep Re.CDigit 1 2);
       Re.group (Re.rep Re.CDigit lo 2); Re.group (Re.star Re.CAny)]
    /\ 1 <= lo.
Proof.
  unfold SERIES_PATTERNS. intros [<-|[<-|[<-|[]]]].
  - exists 2. split; [reflexivity|lia].
  - exists 2. split; [reflexivity|lia].
  - exists 1. split; [reflexivity|lia].
Qed.

(** The digits of a match: the season and the episode as they are written
    in the base name. *)
Lemma get_episode_data_digits (cfg : Config) (file : str) (d : EpisodeData) :
  get_episode_data cfg file = Some d ->
  exists season episode : str,
    forallb is_digit season = true /\ 1 <= List.length season <= 2
    /\ forallb is_digit episode = true /\ 1 <= List.length episode <= 2
    /\ (forall c, In c season -> In c (Path.basename file))
    /\ (forall c, In c episode -> In c (Path.basename file))
    /\ (forall c, In c (series_name d) -> In c (Path.basename file))
    /\ season_num d = zero_pad2 season
    /\ episode_num d = zero_pad2 episode
    /\ filename d = file.
Proof.
  intros E. apply get_episode_data_some in E.
  destruct E as [pat [g1 [g2 [g3 [rest [Hin [Hsearch ->]]]]]]].
  destruct (SERIES_PATTERNS_groups pat Hin) as [lo [Hcap Hlo]].
  destruct (search_groups _ _ _ Hsearch) as [F Hchars]. rewrite Hcap in F.
  inversion F as [|? ? ? ? _ F1]; subst.
  inversion F1 as [|? ? ? ? [D2 [L2 U2]] F2]; subst.
  inversion F2 as [|? ? ? ? [D3 [L3 U3]] _]; subst.
  cbn in D2, L2, U2, D3, L3, U3.
  exists g2, g3. cbn [series_name season_num episode_num filename].
  destruct (format_02d_digits g2 D2 ltac:(lia)) as [-> _].
  destruct (format_02d_digits g3 D3 ltac:(lia)) as [-> _].
  repeat (split; [assumption || lia || idtac|]); try reflexivity.
  - intros c Hc. apply (Hchars g2); [cbn; auto|exact Hc].
  - intros c Hc. apply (Hchars g3); [cbn; auto|exact Hc].
  - intros c Hc. apply strip_In in Hc. apply (Hchars g1); [cbn; auto|exact Hc].
Qed.

Lemma zero_pad2_shape (g : str) :
  forallb is_digit g = true -> 1 <= List.length g <= 2 ->
  List.length (zero_pad2 g) = 2 /\ forallb is_digit (zero_pad2 g) = true.
Proof. intros D L. destruct (format_02d_digits g D L) as [_ H]. exact H. Qed.


(** ** Only the base name is read *)

Lemma first_some_map {A B C : Type} (g : B -> C) (f : A -> option B) (l : list A) :
  option_map g (Re.first_some f l)
  = Re.first_some (fun a => option_map g (f a)) l.
Proof.
  induction l as [|a l IH]; [reflexivity|]. cbn. destruct (f a); [reflexivity|exact IH].
Qed.

Lemma identity_get_episode_data (cfg : Config) (file : str) :
  identity (get_episode_data cfg file)
  = Re.first_some
      (fun pat =>
         match Re.search pat (Path.basename file) with
         | Some (g1 :: g2 :: g3 :: _) =>
             Some (strip (STRIP_CHARS cfg) g1,
                   format_02d (int_of_digits g2),
                   format_02d (int_of_digits g3))
         | _ => None
         end)
      SERIES_PATTERNS.
Proof.
  unfold get_episode_data.
  change identity with
    (option_map (fun d => (series_name d, season_num d, episode_num d))).
  rewrite first_some_map. apply first_some_ext. intros pat.
  destruct (Re.search pat (Path.basename file)) as [[|g1 [|g2 [|g3 rest]]]|];
    reflexivity.
Qed.

(** X2.  [get_episode_data] reads nothing but the base name of the file:
    two paths with the same base name give the same show, season and
    episode, or both give none; the directories of the path, whatever
    markers they hold, have no part in it. *)
Theorem episode_data_reads_base_name_only (cfg : Config) (file1 file2 : str) :
  Path.basename file1 = Path.basename file2 ->
  identity (get_episode_data cfg file1) = identity (get_episode_data cfg file2).
Proof.
  intros E. rewrite !identity_get_episode_data, E. reflexivity.
Qed.

(** ** Names without a digit *)

Lemma fits_digit_nonempty (lo hi : nat) (g : str) :
  1 <= lo -> fits (Re.group (Re.rep Re.CDigit lo hi)) g ->
  exists c, In c g /\ is_digit c = true.
Proof.
  intros Hlo [D [L _]]. cbn in D, L.
  destruct g as [|c g]; [cbn in L; lia|].
  exists c. split; [left; reflexivity|].
  cbn in D. apply andb_true_iff in D. apply D.
Qed.

Lemma get_episode_data_needs_digit (cfg : Config) (file : str) :
  forallb (fun c => negb (is_digit c)) (Path.basename file) = true ->
  get_episode_data cfg file = None.
Proof.
  intros H. destruct (get_episode_data cfg file) as [d|] eqn:E; [|reflexivity].
  exfalso.
  destruct (get_episode_data_digits cfg file d E)
    as [season [_ [Ds [Ls [_ [_ [Cs _]]]]]]].
  destruct season as [|c season]; [cbn in Ls; lia|].
  cbn in Ds. apply andb_true_iff in Ds. destruct Ds as [Dc _].
  rewrite forallb_forall in H. specialize (H c (Cs c (or_introl eq_refl))).
  rewrite Dc in H. discriminate.
Qed.

(** X3.  A job of one video file never raises in the classifier: it is an
    episode, with the record of [get_episode_data], when the name matches a
    pattern and a movie otherwise; a base name without a digit matches no
    pattern, so such a file is always a movie. *)
Theorem single_file_is_movie_or_episode (cfg : Config) (video_file : File) :
  (get_torrent_type cfg [video_file]
   = match get_episode_data cfg (name video_file) with
     | Some episode_data => Ok (EPISODE, EpisodeInfo episode_data)
     | None => Ok (MOVIE, NoData)
     end)
  /\ (forallb (fun c => negb (is_digit c)) (Path.basename (name video_file)) = true ->
      get_episode_data cfg (name video_file) = None
      /\ get_torrent_type cfg [video_file] = Ok (MOVIE, NoData)).
Proof.
  split; [reflexivity|]. intros H.
  pose proof (get_episode_data_needs_digit cfg _ H) as E.
  split; [exact E|]. cbn [get_torrent_type]. rewrite E. reflexivity.
Qed.

(** ** Capitals and small letters *)

Lemma lower_idempotent (c : ascii) : lower (lower c) = lower c.
Proof. destruct c as [[] [] [] [] [] [] [] []]; reflexivity. Qed.

Lemma is_sep_lower (c : ascii) : is_sep (lower c) = is_sep c.
Proof. destruct c as [[] [] [] [] [] [] [] []]; reflexivity. Qed.

Lemma is_digit_lower (c : ascii) : is_digit (lower c) = is_digit c.
Proof. destruct c as [[] [] [] [] [] [] [] []]; reflexivity. Qed.

Lemma digit_lower (c : ascii) : is_digit c = true -> lower c = c.
Proof. destruct c as [[] [] [] [] [] [] [] []]; vm_compute; congruence. Qed.

Lemma newline_lower (c : ascii) :
  Ascii.eqb (lower c) newline = Ascii.eqb c newline.
Proof. destruct c as [[] [] [] [] [] [] [] []]; reflexivity. Qed.

Lemma cmatch_lower (k : Re.cclass) (c : ascii) :
  Re.cmatch k (lower c) = Re.cmatch k c.
Proof.
  destruct k as [| |l]; cbn [Re.cmatch].
  - rewrite newline_lower. reflexivity.
  - apply is_digit_lower.
  - rewrite lower_idempotent. reflexivity.
Qed.

Lemma existsb_is_sep_lower (s : str) :
  existsb is_sep (lower_case s) = existsb is_sep s.
Proof.
  induction s as [|c s IH]; [reflexivity|].
  cbn [lower_case map existsb]. rewrite is_sep_lower. f_equal. exact IH.
Qed.

Lemma basename_lower (p : str) :
  Path.basename (lower_case p) = lower_case (Path.basename p).
Proof.
  induction p as [|c p IH]; [reflexivity|].
  change (lower_case (c :: p)) with (lower c :: lower_case p).
  cbn [Path.basename]. rewrite existsb_is_sep_lower, is_sep_lower, IH.
  destruct (existsb is_sep p); [reflexivity|].
  destruct (is_sep c); reflexivity.
Qed.

Lemma run_length_lower (k : Re.cclass) (s : str) :
  Re.run_length k (lower_case s) = Re.run_length k s.
Proof.
  induction s as [|c s IH]; [reflexivity|].
  cbn [lower_case map Re.run_length]. rewrite cmatch_lower.
  fold (lower_case s). rewrite IH. reflexivity.
Qed.

Lemma counts_lower (it : Re.item) (s : str) :
  Re.counts it (lower_case s) = Re.counts it s.
Proof. unfold Re.counts. rewrite run_length_lower. reflexivity. Qed.

Lemma skipn_lower (n : nat) (s : str) :
  skipn n (lower_case s) = lower_case (skipn n s).
Proof. unfold lower_case. apply skipn_map. Qed.

Lemma firstn_lower (n : nat) (s : str) :
  firstn n (lower_case s) = lower_case (firstn n s).
Proof. unfold lower_case. apply firstn_map. Qed.

Lemma match_here_lower (p : Re.pattern) :
  forall s, Re.match_here p (lower_case s)
            = option_map (map lower_case) (Re.match_here p s).
Proof.
  induction p as [|it p IH]; intros s; [reflexivity|].
  cbn [Re.match_here]. rewrite counts_lower, first_some_map.
  apply first_some_ext. intros n.
  rewrite skipn_lower, firstn_lower, IH.
  destruct (Re.match_here p (skipn n s)) as [g|]; [|reflexivity].
  cbn [option_map]. destruct (Re.capture it); reflexivity.
Qed.

Lemma search_lower (p : Re.pattern) :
  forall s, Re.search p (lower_case s)
            = option_map (map lower_case) (Re.search p s).
Proof.
  induction s as [|c s IH].
  - pose proof (match_here_lower p []) as H.
    change (lower_case []) with (@nil ascii) in *. cbn [Re.search].
    destruct (Re.match_here p []) as [g|]; [exact H|reflexivity].
  - change (lower_case (c :: s)) with (lower c :: lower_case s).
    cbn [Re.search]. change (lower c :: lower_case s) with (lower_case (c :: s)).
    rewrite match_here_lower.
    destruct (Re.match_here p (c :: s)); [reflexivity|exact IH].
Qed.

Lemma digits_lower (g : str) :
  forallb is_digit g = true -> lower_case g = g.
Proof.
  induction g as [|c g IH]; [reflexivity|]. cbn [forallb]. intros H.
  apply andb_true_iff in H. destruct H as [Hc Hg].
  change (lower_case (c :: g)) with (lower c :: lower_case g).
  rewrite (digit_lower c Hc), (IH Hg). reflexivity.
Qed.

Lemma lstrip_lower (chars s : str) :
  (forall c, mem (lower c) chars = mem c chars) ->
  lstrip chars (lower_case s) = lower_case (lstrip chars s).
Proof.
  intros H. induction s as [|c s IH]; [reflexivity|].
  change (lower_case (c :: s)) with (lower c :: lower_case s).
  cbn [lstrip]. rewrite H. destruct (mem c chars); [exact IH|reflexivity].
Qed.

Lemma strip_lower (chars s : str) :
  (forall c, mem (lower c) chars = mem c chars) ->
  strip chars (lower_case s) = lower_case (strip chars s).
Proof.
  intros H. unfold strip, rstrip. rewrite (lstrip_lower _ _ H).
  unfold lower_case at 1. rewrite <- map_rev. fold (lower_case (rev (lstrip chars s))).
  rewrite (lstrip_lower _ _ H). unfold lower_case. rewrite map_rev. reflexivity.
Qed.

(** X4.  The patterns are matched without regard to case: a name written in
    small letters matches exactly when the name itself does, with the same
    season and episode; when the strip set treats a capital as its small
    letter, the show name is the same too, in small letters.  The show name
    itself keeps the case of the file name. *)
Theorem episode_data_ignores_case (cfg : Config) (file : str) :
  (get_episode_data cfg (lower_case file) = None
   <-> get_episode_data cfg file = None)
  /\ (forall d d',
        get_episode_data cfg file = Some d ->
        get_episode_data cfg (lower_case file) = Some d' ->
        season_num d' = season_num d /\ episode_num d' = episode_num d
        /\ ((forall c, mem (lower c) (STRIP_CHARS cfg) = mem c (STRIP_CHARS cfg)) ->
            series_name d' = lower_case (series_name d))).
Proof.
  assert (Hpat : forall pat, In pat SERIES_PATTERNS ->
    match Re.search pat (Path.basename file) with
    | Some groups =>
        exists g1 g2 g3 rest,
          groups = g1 :: g2 :: g3 :: rest
          /\ Re.search pat (Path.basename (lower_case file))
             = Some (lower_case g1 :: g2 :: g3 :: map lower_case rest)
    | None => Re.search pat (Path.basename (lower_case file)) = None
    end).
  { intros pat Hin. rewrite basename_lower, search_lower.
    destruct (Re.search pat (Path.basename file)) as [groups|] eqn:S;
      [|reflexivity].
    destruct (SERIES_PATTERNS_groups pat Hin) as [lo [Hcap Hlo]].
    destruct (search_groups _ _ _ S) as [F _]. rewrite Hcap in F.
    inversion F as [|? g1 ? ? _ F1]; subst.
    inversion F1 as [|? g2 ? ? [D2 _] F2]; subst.
    inversion F2 as [|? g3 ? rest [D3 _] _]; subst.
    cbn in D2, D3. exists g1, g2, g3, rest. split; [reflexivity|].
    cbn [option_map map]. rewrite (digits_lower g2 D2), (digits_lower g3 D3).
    reflexivity. }
  assert (Hall : forall pats, (forall pat, In pat pats -> In pat SERIES_PATTERNS) ->
    let run f :=
      Re.first_some
        (fun pat => match Re.search pat (Path.basename f) with
                    | Some groups => episode_of_match cfg f groups
                    | None => None
                    end) pats in
    match run file with
    | Some d =>
        exists d', run (lower_case file) = Some d'
          /\ season_num d' = season_num d /\ episode_num d' = episode_num d
          /\ ((forall c, mem (lower c) (STRIP_CHARS cfg) = mem c (STRIP_CHARS cfg)) ->
              series_name d' = lower_case (series_name d))
    | None => run (lower_case file) = None
    end).
  { induction pats as [|pat pats IH]; intros Hsub; cbv zeta; [reflexivity|].
    cbn [Re.first_some]. specialize (Hpat pat (Hsub pat (or_introl eq_refl))).
    destruct (Re.search pat (Path.basename file)) as [groups|].
    - destruct Hpat as [g1 [g2 [g3 [rest [-> ->]]]]]. cbn [episode_of_match].
      eexists. split; [reflexivity|]. cbn [season_num episode_num series_name].
      repeat split. intros H. apply strip_lower. exact H.
    - rewrite Hpat. apply IH. intros q Hq. apply Hsub. right. exact Hq. }
  specialize (Hall SERIES_PATTERNS (fun _ H => H)). cbv zeta in Hall.
  change (match get_episode_data cfg file with
          | Some d =>
              exists d', get_episode_data cfg (lower_case file) = Some d'
                /\ season_num d' = season_num d /\ episode_num d' = episode_num d
                /\ ((forall c, mem (lower c) (STRIP_CHARS cfg)
                               = mem c (STRIP_CHARS cfg)) ->
                    series_name d' = lower_case (series_name d))
          | None => get_episode_data cfg (lower_case file) = None
          end) in Hall.
  split.
  - destruct (get_episode_data cfg file) as [d|].
    + destruct Hall as [d' [-> _]]. split; discriminate.
    + rewrite Hall. split; reflexivity.
  - intros d d' E E'. rewrite E in Hall. destruct Hall as [d2 [E2 H]].
    rewrite E' in E2. injection E2 as <-. exact H.
Qed.

(** ** Markers of the second and third pattern *)

Lemma search_found_is_episode (cfg : Config) (file : str) (pat : Re.pattern) :
  In pat SERIES_PATTERNS ->
  Re.search pat (Path.basename file) <> None ->
  exists d, get_episode_data cfg file = Some d.
Proof.
  intros Hin Hs.
  assert (H : get_episode_data cfg file <> None).
  { unfold get_episode_data. apply (first_some_not_none _ _ pat Hin).
    destruct (Re.search pat (Path.basename file)) as [groups|] eqn:S;
      [|contradiction].
    destruct (SERIES_PATTERNS_groups pat Hin) as [lo [Hcap _]].
    destruct (search_groups _ _ _ S) as [F _]. rewrite Hcap in F.
    inversion F as [|? g1 ? ? _ F1]; subst.
    inversion F1 as [|? g2 ? ? _ F2]; subst.
    inversion F2 as [|? g3 ? rest _ _]; subst.
    discriminate. }
  destruct (get_episode_data cfg file) as [d|]; [exists d; reflexivity|contradiction].
Qed.

Lemma fits_empty (it : Re.item) : Re.rmin it = 0 -> fits it [].
Proof.
  intros H. unfold fits. rewrite H. cbn. repeat split; [lia|].
  destruct (Re.rmax it); [lia|exact I].
Qed.

Lemma lit_fits (word w : str) :
  lower_case w = lower_case word ->
  Forall2 fits (map (fun c => Re.one (Re.CChar c)) word) (map (fun c => [c]) w).
Proof.
  revert w. induction word as [|l word IH]; intros [|c w] E; try discriminate.
  - constructor.
  - injection E as Ec Ew. cbn [map]. constructor; [|exact (IH _ Ew)].
    unfold fits. cbn. rewrite Ec, Ascii.eqb_refl. repeat split; lia.
Qed.

Lemma concat_singletons (w : str) : List.concat (map (fun c => [c]) w) = w.
Proof. induction w as [|c w IH]; [reflexivity|]. cbn. f_equal. exact IH. Qed.

(** X5.  A base name that holds, anywhere, one or two digits, an x in
    either case and two digits is taken for an episode, brackets or not:
    the name of a film that carries a frame size such as 1920x1080 is. *)
Theorem NxNN_marker_is_an_episode
  (cfg : Config) (file pre sd ed post : str) (cx : ascii) :
  Path.basename file = pre ++ sd ++ cx :: ed ++ post ->
  forallb is_digit sd = true -> 1 <= List.length sd <= 2 ->
  is_x cx = true ->
  forallb is_digit ed = true -> List.length ed = 2 ->
  exists d,
    get_episode_data cfg file = Some d
    /\ forall video_file, name video_file = file ->
         get_torrent_type cfg [video_file] = Ok (EPISODE, EpisodeInfo d).
Proof.
  intros Hbase Dsd Lsd Hx Ded Led.
  assert (F : Forall2 fits PATTERN_NxNN [[]; []; sd; [cx]; ed; []; []]).
  { assert (Fx : fits (Re.one (Re.CChar "x")) [cx]).
    { unfold fits, is_x in *.
      cbn [Re.one Re.cls Re.rmin Re.rmax forallb Re.cmatch List.length].
      change (lower "x") with "x"%char. rewrite Hx. repeat split; lia. }
    unfold PATTERN_NxNN. cbn [app Re.lit map of_string list_ascii_of_string].
    apply Forall2_cons; [apply fits_empty; reflexivity|].
    apply Forall2_cons; [apply fits_empty; reflexivity|].
    apply Forall2_cons; [unfold fits; cbn; repeat split; (assumption || lia)|].
    apply Forall2_cons; [exact Fx|].
    apply Forall2_cons; [unfold fits; cbn; repeat split; (assumption || lia)|].
    apply Forall2_cons; [apply fits_empty; reflexivity|].
    apply Forall2_cons; [apply fits_empty; reflexivity|].
    apply Forall2_nil. }
  pose proof (search_complete PATTERN_NxNN pre _ post F) as S.
  cbn [List.concat app] in S. rewrite app_nil_r in S.
  replace (pre ++ (sd ++ cx :: ed) ++ post)
    with (pre ++ sd ++ cx :: ed ++ post) in S
    by (rewrite <- !app_assoc; reflexivity).
  rewrite <- Hbase in S.
  destruct (search_found_is_episode cfg file PATTERN_NxNN) as [d E];
    [right; left; reflexivity|exact S|].
  exists d. split; [exact E|].
  intros video_file <-. cbn [get_torrent_type]. rewrite E. reflexivity.
Qed.

(** X6.  A base name that holds the word Season, at most one character,
    one or two digits, any text, the word Episode, at most one character and
    one or two digits, on one line and in any case, is taken for an episode:
    here an episode number of a single digit is enough. *)
Theorem verbose_marker_is_an_episode
  (cfg : Config) (file pre w1 gap1 sd mid w2 gap2 ed post : str) :
  Path.basename file = pre ++ w1 ++ gap1 ++ sd ++ mid ++ w2 ++ gap2 ++ ed ++ post ->
  spells w1 "Season" -> spells w2 "Episode" ->
  List.length gap1 <= 1 -> List.length gap2 <= 1 ->
  no_newline (gap1 ++ mid ++ gap2) = true ->
  forallb is_digit sd = true -> 1 <= List.length sd <= 2 ->
  forallb is_digit ed = true -> 1 <= List.length ed <= 2 ->
  exists d,
    get_episode_data cfg file = Some d
    /\ forall video_file, name video_file = file ->
         get_torrent_type cfg [video_file] = Ok (EPISODE, EpisodeInfo d).
Proof.
  intros Hbase S1 S2 G1 G2 NL Dsd Lsd Ded Led.
  unfold no_newline in NL. rewrite !forallb_app in NL.
  apply andb_true_iff in NL. destruct NL as [N1 NL].
  apply andb_true_iff in NL. destruct NL as [Nm N2].
  assert (F : Forall2 fits PATTERN_verbose
                ([[]] ++ map (fun c => [c]) w1 ++ [gap1; sd; mid]
                 ++ map (fun c => [c]) w2 ++ [gap2; ed; []])).
  { unfold PATTERN_verbose.
    apply Forall2_app.
    { apply Forall2_cons; [apply fits_empty; reflexivity|apply Forall2_nil]. }
    apply Forall2_app; [apply lit_fits; exact S1|].
    apply Forall2_app.
    { apply Forall2_cons; [unfold fits; cbn; repeat split; (assumption || lia)|].
      apply Forall2_cons; [unfold fits; cbn; repeat split; (assumption || lia)|].
      apply Forall2_cons; [unfold fits; cbn; repeat split; (assumption || lia)|].
      apply Forall2_nil. }
    apply Forall2_app; [apply lit_fits; exact S2|].
    apply Forall2_cons; [unfold fits; cbn; repeat split; (assumption || lia)|].
    apply Forall2_cons; [unfold fits; cbn; repeat split; (assumption || lia)|].
    apply Forall2_cons; [apply fits_empty; reflexivity|].
    apply Forall2_nil. }
  pose proof (search_complete PATTERN_verbose pre _ post F) as S.
  rewrite !concat_app, !concat_singletons in S.
  cbn [List.concat app] in S. rewrite !app_nil_r in S.
  replace (pre ++ (w1 ++ (gap1 ++ sd ++ mid) ++ w2 ++ gap2 ++ ed) ++ post)
    with (pre ++ w1 ++ gap1 ++ sd ++ mid ++ w2 ++ gap2 ++ ed ++ post) in S
    by (rewrite <- !app_assoc; reflexivity).
  rewrite <- Hbase in S.
  destruct (search_found_is_episode cfg file PATTERN_verbose) as [d E];
    [right; right; left; reflexivity|exact S|].
  exists d. split; [exact E|].
  intros video_file <-. cbn [get_torrent_type]. rewrite E. reflexivity.
Qed.

(** ** Which files are video files *)

Lemma last_dot_suffix_some (s e : str) :
  Path.last_dot_suffix s = Some e ->
  exists stem tail_,
    s = stem ++ e /\ e = extsep :: tail_ /\ Path.last_dot_suffix tail_ = None.
Proof.
  revert e. induction s as [|c s IH]; intros e; [discriminate|].
  cbn [Path.last_dot_suffix].
  destruct (Path.last_dot_suffix s) as [e'|] eqn:L.
  - intros E; injection E as <-.
    destruct (IH e' eq_refl) as [stem [tail_ [-> [-> N]]]].
    exists (c :: stem), tail_. repeat split. exact N.
  - destruct (Ascii.eqb_spec c extsep) as [->|_]; [|discriminate].
    intros E; injection E as <-. exists [], s. repeat split. exact L.
Qed.

Lemma last_dot_suffix_app (stem tail_ : str) :
  Path.last_dot_suffix tail_ = None ->
  Path.last_dot_suffix (stem ++ extsep :: tail_) = Some (extsep :: tail_).
Proof.
  intros N. induction stem as [|c stem IH].
  - cbn [app Path.last_dot_suffix]. rewrite N, Ascii.eqb_refl. reflexivity.
  - cbn [app Path.last_dot_suffix]. rewrite IH. reflexivity.
Qed.

Lemma firstn_stem (stem e : str) :
  firstn (List.length (stem ++ e) - List.length e) (stem ++ e) = stem.
Proof.
  rewrite length_app, Nat.add_sub. rewrite firstn_app, Nat.sub_diag.
  cbn [firstn]. rewrite app_nil_r. apply firstn_all.
Qed.

Lemma video_extension_shape (ext : str) :
  In ext VIDEO_FILE_EXTENSIONS ->
  exists tail_, ext = extsep :: tail_ /\ Path.last_dot_suffix tail_ = None.
Proof.
  unfold VIDEO_FILE_EXTENSIONS.
  intros [<-|[<-|[<-|[]]]]; eexists; split; reflexivity.
Qed.

Lemma existsb_str_eqb (s : str) (l : list str) :
  existsb (Str.eqb s) l = true <-> In s l.
Proof.
  rewrite existsb_exists. split.
  - intros [x [Hin E]]. apply str_eqb_eq in E. subst. exact Hin.
  - intros Hin. exists s. split; [exact Hin|apply str_eqb_refl].
Qed.

Lemma splitext_ext_video (p ext : str) :
  In ext VIDEO_FILE_EXTENSIONS ->
  Path.splitext_ext p = ext <->
  exists stem, Path.basename p = stem ++ ext
               /\ forallb (Ascii.eqb extsep) stem = false.
Proof.
  intros Hin. destruct (video_extension_shape ext Hin) as [tail_ [Hext Hnone]].
  unfold Path.splitext_ext. cbv zeta. split.
  - destruct (Path.last_dot_suffix (Path.basename p)) as [e|] eqn:L.
    + destruct (last_dot_suffix_some _ _ L) as [stem [t [Hb _]]].
      rewrite Hb at 1 2. rewrite firstn_stem.
      destruct (forallb (Ascii.eqb extsep) stem) eqn:A.
      * intros <-. discriminate.
      * intros <-. exists stem. split; assumption.
    + intros <-. discriminate.
  - intros [stem [Hb A]]. rewrite Hb, Hext.
    rewrite (last_dot_suffix_app stem tail_ Hnone), <- Hext, firstn_stem, A.
    reflexivity.
Qed.

(** X7.  [get_video_files] keeps, in their order, exactly the files whose
    base name is a stem followed by [.mp4], [.mkv] or [.avi] written in
    small letters, where the stem holds a character other than a dot: a
    name that is only an extension, such as [.mkv], is not a video file. *)
Theorem video_files_are_those_with_video_suffix
  (files_ : list File) (file_info : File) :
  (In file_info (get_video_files files_) <->
   In file_info files_
   /\ exists stem ext,
        In ext VIDEO_FILE_EXTENSIONS
        /\ Path.basename (name file_info) = stem ++ ext
        /\ exists c, In c stem /\ c <> extsep)
  /\ (forall more, get_video_files (files_ ++ more)
                   = get_video_files files_ ++ get_video_files more)
  /\ get_video_files (get_video_files files_) = get_video_files files_.
Proof.
  split; [|split].
  - unfold get_video_files. rewrite filter_In, existsb_str_eqb.
    assert (Hdots : forall stem,
              forallb (Ascii.eqb extsep) stem = false <->
              exists c, In c stem /\ c <> extsep).
    { intros stem. induction stem as [|c stem IH]; cbn [forallb].
      - split; [discriminate|intros [c [[] _]]].
      - destruct (Ascii.eqb_spec extsep c) as [<-|Hc]; cbn [andb].
        + rewrite IH. split.
          * intros [c [Hin Hne]]. exists c. split; [right; exact Hin|exact Hne].
          * intros [c [[<-|Hin] Hne]]; [contradiction|]. exists c. auto.
        + split; [|reflexivity]. intros _. exists c.
          split; [left; reflexivity|congruence]. }
    split.
    + intros [Hin Hext]. split; [exact Hin|].
      destruct (splitext_ext_video (name file_info) _ Hext) as [H _].
      destruct (H eq_refl) as [stem [Hb A]].
      exists stem, (Path.splitext_ext (name file_info)).
      split; [exact Hext|]. split; [exact Hb|]. apply Hdots. exact A.
    + intros [Hin [stem [ext [Hext [Hb A]]]]]. split; [exact Hin|].
      destruct (splitext_ext_video (name file_info) _ Hext) as [_ H].
      rewrite H; [exact Hext|]. exists stem. split; [exact Hb|].
      apply Hdots. exact A.
  - intros more. unfold get_video_files. apply filter_app.
  - unfold get_video_files. induction files_ as [|f l IH]; [reflexivity|].
    cbn [filter].
    destruct (existsb _ VIDEO_FILE_EXTENSIONS) eqn:E; [|exact IH].
    cbn [filter]. rewrite E, IH. reflexivity.
Qed.

(** ** Grouping the episodes by season *)

Lemma str_eqb_neq (a b : str) : Str.eqb a b = false <-> a <> b.
Proof.
  split.
  - intros E H. apply str_eqb_eq in H. congruence.
  - intros H. destruct (Str.eqb a b) eqn:E; [|reflexivity].
    apply str_eqb_eq in E. contradiction.
Qed.

Lemma str_eqb_sym (a b : str) : Str.eqb a b = Str.eqb b a.
Proof.
  destruct (Str.eqb b a) eqn:E.
  - apply str_eqb_eq in E. subst. apply str_eqb_refl.
  - apply str_eqb_neq. apply str_eqb_neq in E. congruence.
Qed.

Lemma first_occurrences_In (l : list str) (k : str) :
  In k (first_occurrences l) <-> In k l.
Proof.
  induction l as [|a l IH]; cbn [first_occurrences]; [reflexivity|].
  cbn [In]. rewrite filter_In, IH. split.
  - intros [H|[H _]]; auto.
  - intros [H|H]; [left; exact H|].
    destruct (Str.eqb k a) eqn:E.
    + left. apply str_eqb_eq in E. congruence.
    + right. split; [exact H|]. reflexivity.
Qed.

Lemma first_occurrences_NoDup (l : list str) : NoDup (first_occurrences l).
Proof.
  induction l as [|a l IH]; cbn [first_occurrences]; constructor.
  - rewrite filter_In. intros [_ H]. cbv beta in H.
    rewrite str_eqb_refl in H. discriminate.
  - apply NoDup_filter. exact IH.
Qed.

Lemma first_occurrences_snoc (l : list str) (k : str) :
  first_occurrences (l ++ [k])
  = if existsb (Str.eqb k) l then first_occurrences l
    else first_occurrences l ++ [k].
Proof.
  induction l as [|a l IH]; [reflexivity|].
  cbn [app first_occurrences existsb]. rewrite IH.
  destruct (Str.eqb k a) eqn:E; cbn [orb].
  - destruct (existsb (Str.eqb k) l); [reflexivity|].
    rewrite filter_app. simpl filter at 2. rewrite E. cbn [negb].
    rewrite app_nil_r. reflexivity.
  - destruct (existsb (Str.eqb k) l); [reflexivity|].
    rewrite filter_app. simpl filter at 2. rewrite E. reflexivity.
Qed.

Lemma seasons_append_keys (k : str) (e : EpisodeData) (h : str -> list EpisodeData) :
  forall keys, NoDup keys ->
  seasons_append k e (map (fun key => (key, h key)) keys)
  = if existsb (Str.eqb k) keys
    then map (fun key => (key, if Str.eqb key k then h key ++ [e] else h key)) keys
    else map (fun key => (key, h key)) keys ++ [(k, [e])].
Proof.
  induction keys as [|a keys IH]; intros ND; [reflexivity|].
  inversion ND as [|? ? Hnot ND']; subst.
  cbn [map seasons_append existsb]. rewrite (str_eqb_sym k a).
  destruct (Str.eqb a k) eqn:E; cbn [orb].
  - f_equal. apply map_ext_in. intros key Hin.
    apply str_eqb_eq in E. subst a.
    assert (N : Str.eqb key k = false).
    { apply str_eqb_neq. intros ->. contradiction. }
    rewrite N. reflexivity.
  - rewrite (IH ND'). destruct (existsb (Str.eqb k) keys); reflexivity.
Qed.

(** Appending an episode to the dictionary of the episodes read so far
    gives the dictionary of the longer list. *)
Lemma group_by_season_snoc (episodes : list EpisodeData) (e : EpisodeData) :
  seasons_append (season_num e) e (group_by_season episodes)
  = group_by_season (episodes ++ [e]).
Proof.
  unfold group_by_season.
  rewrite seasons_append_keys by apply first_occurrences_NoDup.
  rewrite map_app. cbn [map]. rewrite first_occurrences_snoc.
  set (k := season_num e). set (keys := map season_num episodes).
  assert (Hfilter : forall key,
            filter (in_season key) (episodes ++ [e])
            = if Str.eqb key k then filter (in_season key) episodes ++ [e]
              else filter (in_season key) episodes).
  { intros key. rewrite filter_app. cbn [filter]. unfold in_season at 2.
    fold k. rewrite (str_eqb_sym k key).
    destruct (Str.eqb key k); [reflexivity|apply app_nil_r]. }
  assert (Hex : existsb (Str.eqb k) (first_occurrences keys)
                = existsb (Str.eqb k) keys).
  { destruct (existsb (Str.eqb k) keys) eqn:X.
    - apply existsb_str_eqb. apply first_occurrences_In.
      apply existsb_str_eqb. exact X.
    - destruct (existsb (Str.eqb k) (first_occurrences keys)) eqn:Y;
        [|reflexivity].
      apply (proj1 (existsb_str_eqb _ _)) in Y.
      apply (proj1 (first_occurrences_In _ _)) in Y.
      apply (proj2 (existsb_str_eqb _ _)) in Y. congruence. }
  rewrite Hex. destruct (existsb (Str.eqb k) keys) eqn:X.
  - apply map_ext. intros key. rewrite Hfilter. reflexivity.
  - rewrite map_app. cbn [map]. f_equal.
    + apply map_ext_in. intros key Hin. rewrite Hfilter.
      assert (N : Str.eqb key k = false).
      { apply str_eqb_neq. intros ->.
        apply (proj1 (first_occurrences_In _ _)) in Hin.
        apply (proj2 (existsb_str_eqb _ _)) in Hin. congruence. }
      rewrite N. reflexivity.
    + rewrite Hfilter, str_eqb_refl.
      assert (Hnone : filter (in_season k) episodes = []).
      { destruct (filter (in_season k) episodes) as [|x l] eqn:F; [reflexivity|].
        assert (Hx : In x (filter (in_season k) episodes))
          by (rewrite F; left; reflexivity).
        apply filter_In in Hx. destruct Hx as [Hx Hk].
        unfold in_season in Hk. apply str_eqb_eq in Hk.
        assert (Hk' : In k keys) by (rewrite <- Hk; apply in_map; exact Hx).
        apply (proj2 (existsb_str_eqb _ _)) in Hk'. congruence. }
      rewrite Hnone. reflexivity.
Qed.

Lemma group_by_season_keys (episodes : list EpisodeData) :
  map fst (group_by_season episodes)
  = first_occurrences (map season_num episodes).
Proof.
  unfold group_by_season. rewrite map_map. cbn [fst]. apply map_id.
Qed.

Lemma filter_in_season_cons (key : str) (e : EpisodeData) (episodes : list EpisodeData) :
  filter (in_season key) (e :: episodes)
  = if Str.eqb (season_num e) key then e :: filter (in_season key) episodes
    else filter (in_season key) episodes.
Proof. reflexivity. Qed.

Lemma buckets_length_cons (e : EpisodeData) (episodes : list EpisodeData) :
  forall keys, NoDup keys ->
  List.length (List.concat (map (fun key => filter (in_season key) (e :: episodes)) keys))
  = (if existsb (Str.eqb (season_num e)) keys then 1 else 0)
    + List.length (List.concat (map (fun key => filter (in_season key) episodes) keys)).
Proof.
  induction keys as [|k keys IH]; intros ND; [reflexivity|].
  inversion ND as [|? ? Hnot ND']; subst.
  cbn [map List.concat existsb]. rewrite !length_app, (IH ND').
  rewrite filter_in_season_cons.
  destruct (Str.eqb (season_num e) k) eqn:E; cbn [orb List.length].
  - apply str_eqb_eq in E. subst k.
    destruct (existsb (Str.eqb (season_num e)) keys) eqn:X; [|lia].
    apply (proj1 (existsb_str_eqb _ _)) in X. contradiction.
  - lia.
Qed.

Lemma buckets_length (episodes : list EpisodeData) :
  forall keys, NoDup keys ->
  (forall e, In e episodes -> In (season_num e) keys) ->
  List.length (List.concat (map (fun key => filter (in_season key) episodes) keys))
  = List.length episodes.
Proof.
  induction episodes as [|e episodes IH]; intros keys ND Hcover.
  - clear. induction keys as [|k keys IHk]; [reflexivity|exact IHk].
  - rewrite (buckets_length_cons e episodes keys ND).
    rewrite (IH keys ND) by (intros x Hx; apply Hcover; right; exact Hx).
    rewrite (proj2 (existsb_str_eqb _ _) (Hcover e (or_introl eq_refl))).
    reflexivity.
Qed.

(** The dictionary of a list of episodes: its keys are distinct, each is
    the season of its episodes, no bucket is empty, every episode lies in
    the bucket of its season, and the buckets hold as many episodes as the
    list. *)
Lemma group_by_season_facts (episodes : list EpisodeData) :
  NoDup (map fst (group_by_season episodes))
  /\ (forall key bucket, In (key, bucket) (group_by_season episodes) ->
        bucket = filter (in_season key) episodes /\ bucket <> [])
  /\ (forall e, In e episodes ->
        In (season_num e, filter (in_season (season_num e)) episodes)
           (group_by_season episodes)
        /\ In e (filter (in_season (season_num e)) episodes))
  /\ List.length (List.concat (map snd (group_by_season episodes)))
     = List.length episodes.
Proof.
  split; [|split; [|split]].
  - rewrite group_by_season_keys. apply first_occurrences_NoDup.
  - intros key bucket Hin. unfold group_by_season in Hin.
    apply in_map_iff in Hin. destruct Hin as [k [E Hk]].
    injection E as <- <-. split; [reflexivity|].
    apply (proj1 (first_occurrences_In _ _)) in Hk.
    apply in_map_iff in Hk. destruct Hk as [e [Ek He]].
    intros Hnil.
    assert (Hf : In e (filter (in_season k) episodes)).
    { apply filter_In. split; [exact He|]. unfold in_season. rewrite Ek.
      apply str_eqb_refl. }
    rewrite Hnil in Hf. contradiction.
  - intros e He. split.
    + unfold group_by_season. apply in_map_iff. exists (season_num e).
      split; [reflexivity|]. apply first_occurrences_In. apply in_map. exact He.
    + apply filter_In. split; [exact He|]. apply str_eqb_refl.
  - unfold group_by_season. rewrite map_map. cbn [snd].
    apply buckets_length; [apply first_occurrences_NoDup|].
    intros e He. apply first_occurrences_In. apply in_map. exact He.
Qed.

(** ** What [get_series_data] returns *)

Lemma get_series_loop_step (cfg : Config) (f : File) (rest : list File)
  (sn : option str) (read : list EpisodeData) :
  get_series_loop cfg (f :: rest) sn (group_by_season read)
  = match get_episode_data cfg (name f) with
    | None => Raise TypeError
    | Some d =>
        match sn with
        | None =>
            get_series_loop cfg rest (Some (series_name d))
              (group_by_season (read ++ [d]))
        | Some current =>
            if Str.eqb (series_name d) current
            then get_series_loop cfg rest sn (group_by_season (read ++ [d]))
            else Ok None
        end
    end.
Proof.
  cbn [get_series_loop]. destruct (get_episode_data cfg (name f)) as [d|];
    [|reflexivity].
  rewrite group_by_season_snoc. destruct sn as [current|]; [|reflexivity].
  destruct (Str.eqb (series_name d) current); reflexivity.
Qed.

Lemma get_series_loop_success (cfg : Config) (video_files : list File) :
  forall (current : str) (read : list EpisodeData) (r : option str * Seasons),
  get_series_loop cfg video_files (Some current) (group_by_season read)
  = Ok (Some r)
  <-> exists episodes,
        parse_all cfg video_files = Some episodes
        /\ all_of_show current episodes
        /\ r = (Some current, group_by_season (read ++ episodes)).
Proof.
  induction video_files as [|f rest IH]; intros current read r.
  - cbn [get_series_loop parse_all]. split.
    + intros E. injection E as <-. exists []. rewrite app_nil_r.
      repeat split. constructor.
    + intros [episodes [E [_ ->]]]. injection E as <-.
      rewrite app_nil_r. reflexivity.
  - rewrite get_series_loop_step. cbn [parse_all].
    destruct (get_episode_data cfg (name f)) as [d|].
    + destruct (Str.eqb (series_name d) current) eqn:Hn.
      * apply str_eqb_eq in Hn. rewrite IH. split.
        -- intros [episodes [E [A ->]]]. exists (d :: episodes). rewrite E.
           split; [reflexivity|]. split; [constructor; assumption|].
           rewrite <- app_assoc. reflexivity.
        -- intros [episodes [E [A ->]]].
           destruct (parse_all cfg rest) as [ds|]; [|discriminate].
           injection E as <-. inversion A; subst. exists ds.
           split; [reflexivity|]. split; [assumption|].
           rewrite <- app_assoc. reflexivity.
      * split; [discriminate|]. intros [episodes [E [A _]]].
        destruct (parse_all cfg rest) as [ds|]; [|discriminate].
        injection E as <-. inversion A; subst.
        rewrite str_eqb_refl in Hn. discriminate.
    + split; [discriminate|]. intros [episodes [E _]]. discriminate.
Qed.

Lemma parse_all_app (cfg : Config) (pre post : list File) :
  parse_all cfg (pre ++ post)
  = match parse_all cfg pre, parse_all cfg post with
    | Some a, Some b => Some (a ++ b)
    | _, _ => None
    end.
Proof.
  induction pre as [|f pre IH]; cbn [app parse_all].
  - destruct (parse_all cfg post); reflexivity.
  - rewrite IH. destruct (get_episode_data cfg (name f)); [|reflexivity].
    destruct (parse_all cfg pre); [|reflexivity].
    destruct (parse_all cfg post); reflexivity.
Qed.

Lemma get_series_loop_raises (cfg : Config) (video_files : list File) :
  forall (current : str) (read : list EpisodeData) (e : Exn),
  get_series_loop cfg video_files (Some current) (group_by_season read)
  = Raise e
  <-> e = TypeError
      /\ exists pre f post episodes,
           video_files = pre ++ f :: post
           /\ parse_all cfg pre = Some episodes
           /\ all_of_show current episodes
           /\ get_episode_data cfg (name f) = None.
Proof.
  induction video_files as [|f rest IH]; intros current read e.
  - cbn [get_series_loop]. split; [discriminate|].
    intros [_ [pre [g [post [eps [E _]]]]]]. destruct pre; discriminate.
  - rewrite get_series_loop_step.
    destruct (get_episode_data cfg (name f)) as [d|] eqn:G.
    + destruct (Str.eqb (series_name d) current) eqn:Hn.
      * apply str_eqb_eq in Hn. rewrite IH. split.
        -- intros [-> [pre [g [post [eps [-> [P [A N]]]]]]]].
           split; [reflexivity|]. exists (f :: pre), g, post, (d :: eps).
           cbn [app parse_all]. rewrite G, P.
           repeat split; [constructor; assumption|exact N].
        -- intros [-> [pre [g [post [eps [E [P [A N]]]]]]]].
           split; [reflexivity|].
           destruct pre as [|f' pre]; cbn [app] in E; injection E as <- ->.
           ++ congruence.
           ++ cbn [parse_all] in P. rewrite G in P.
              destruct (parse_all cfg pre) as [ds|] eqn:P'; [|discriminate].
              injection P as <-. inversion A; subst.
              exists pre, g, post, ds. repeat split; assumption.
      * split; [discriminate|].
        intros [_ [pre [g [post [eps [E [P [A N]]]]]]]].
        destruct pre as [|f' pre]; cbn [app] in E; injection E as <- ->.
        -- congruence.
        -- cbn [parse_all] in P. rewrite G in P.
           destruct (parse_all cfg pre) as [ds|]; [|discriminate].
           injection P as <-. inversion A; subst.
           rewrite str_eqb_refl in Hn. discriminate.
    + split.
      * intros E. injection E as <-. split; [reflexivity|].
        exists [], f, rest, []. repeat split; [constructor|exact G].
      * intros [-> _]. reflexivity.
Qed.

Lemma group_by_season_nonempty (e : EpisodeData) (episodes : list EpisodeData) :
  exists key bucket rest, group_by_season (e :: episodes) = (key, bucket) :: rest.
Proof. unfold group_by_season. cbn [map first_occurrences]. eauto. Qed.

Lemma get_series_data_success (cfg : Config) (video_files : list File)
  (data : SeriesData) :
  get_series_data cfg video_files = Ok (Some data)
  <-> exists first rest,
        parse_all cfg video_files = Some (first :: rest)
        /\ all_of_show (series_name first) rest
        /\ data = {| sd_series_name := Some (series_name first);
                     seasons := group_by_season (first :: rest);
                     seasons_count :=
                       List.length (group_by_season (first :: rest)) |}.
Proof.
  unfold get_series_data. destruct video_files as [|f files_].
  - cbn. split; [discriminate|]. intros [d [ds [E _]]]. discriminate.
  - change (@nil (str * list EpisodeData)) with (group_by_season []).
    rewrite get_series_loop_step. cbn [parse_all app].
    destruct (get_episode_data cfg (name f)) as [d|] eqn:G.
    + destruct (get_series_loop cfg files_ (Some (series_name d))
                  (group_by_season [d])) as [[r|]|e] eqn:L; cbn [bind_result].
      * apply get_series_loop_success in L.
        destruct L as [eps [P [A ->]]]. rewrite P. cbn [app].
        destruct (group_by_season_nonempty d eps) as [k [b [ss Hg]]].
        rewrite Hg. cbn [List.length]. rewrite <- Hg. split.
        -- intros E. injection E as <-. exists d, eps.
           repeat split; try assumption. rewrite Hg. reflexivity.
        -- intros [d' [eps' [E [A' ->]]]]. injection E as <- <-.
           rewrite Hg. reflexivity.
      * split; [discriminate|]. intros [d' [eps' [E [A' ->]]]].
        destruct (parse_all cfg files_) as [ds|] eqn:P; [|discriminate].
        injection E as <- <-.
        assert (X : get_series_loop cfg files_ (Some (series_name d))
                      (group_by_season [d])
                    = Ok (Some (Some (series_name d), group_by_season ([d] ++ ds)))).
        { apply get_series_loop_success. exists ds. repeat split; assumption. }
        congruence.
      * split; [discriminate|]. intros [d' [eps' [E [A' ->]]]].
        destruct (parse_all cfg files_) as [ds|] eqn:P; [|discriminate].
        injection E as <- <-.
        assert (X : get_series_loop cfg files_ (Some (series_name d))
                      (group_by_season [d])
                    = Ok (Some (Some (series_name d), group_by_season ([d] ++ ds)))).
        { apply get_series_loop_success. exists ds. repeat split; assumption. }
        congruence.
    + cbn [bind_result]. split; [discriminate|].
      intros [d' [eps' [E _]]]. discriminate.
Qed.

Lemma get_series_data_raises (cfg : Config) (video_files : list File) (e : Exn) :
  get_series_data cfg video_files = Raise e
  <-> e = TypeError
      /\ exists pre f post episodes,
           video_files = pre ++ f :: post
           /\ parse_all cfg pre = Some episodes
           /\ one_show episodes
           /\ get_episode_data cfg (name f) = None.
Proof.
  unfold get_series_data. destruct video_files as [|f files_].
  - cbn. split; [discriminate|].
    intros [_ [pre [g [post [eps [E _]]]]]]. destruct pre; discriminate.
  - change (@nil (str * list EpisodeData)) with (group_by_season []).
    rewrite get_series_loop_step. cbn [app].
    destruct (get_episode_data cfg (name f)) as [d|] eqn:G.
    + destruct (get_series_loop cfg files_ (Some (series_name d))
                  (group_by_season [d])) as [[[sn ss]|]|e'] eqn:L; cbn [bind_result].
      * assert (He : forall x, get_series_loop cfg files_ (Some (series_name d))
                                 (group_by_season [d]) <> Raise x)
          by (intros x; congruence).
        split.
        -- destruct (List.length ss); discriminate.
        -- intros [-> [pre [g [post [eps [E [P [A N]]]]]]]]. exfalso.
           destruct pre as [|f' pre]; cbn [app] in E; injection E as <- ->;
             [congruence|].
           cbn [parse_all] in P. rewrite G in P.
           destruct (parse_all cfg pre) as [ds|] eqn:P'; [|discriminate].
           injection P as <-. cbn [one_show] in A.
           apply (He TypeError). apply get_series_loop_raises.
           split; [reflexivity|]. exists pre, g, post, ds.
           repeat split; assumption.
      * split; [discriminate|].
        intros [-> [pre [g [post [eps [E [P [A N]]]]]]]]. exfalso.
        destruct pre as [|f' pre]; cbn [app] in E; injection E as <- ->;
          [congruence|].
        cbn [parse_all] in P. rewrite G in P.
        destruct (parse_all cfg pre) as [ds|] eqn:P'; [|discriminate].
        injection P as <-. cbn [one_show] in A.
        assert (X : get_series_loop cfg (pre ++ g :: post) (Some (series_name d))
                      (group_by_season [d]) = Raise TypeError).
        { apply get_series_loop_raises. split; [reflexivity|].
          exists pre, g, post, ds. repeat split; assumption. }
        congruence.
      * apply get_series_loop_raises in L.
        destruct L as [-> [pre [g [post [eps [-> [P [A N]]]]]]]]. split.
        -- intros E. injection E as <-. split; [reflexivity|].
           exists (f :: pre), g, post, (d :: eps). cbn [app parse_all one_show].
           rewrite G, P. repeat split; assumption.
        -- intros [-> _]. reflexivity.
    + cbn [bind_result]. split.
      * intros E. injection E as <-. split; [reflexivity|].
        exists [], f, files_, []. repeat split. exact G.
      * intros [-> _]. reflexivity.
Qed.

Lemma parse_all_facts (cfg : Config) (video_files : list File) :
  forall episodes, parse_all cfg video_files = Some episodes ->
  List.length episodes = List.length video_files
  /\ map filename episodes = map name video_files
  /\ forall e, In e episodes ->
       exists f, In f video_files /\ get_episode_data cfg (name f) = Some e.
Proof.
  induction video_files as [|f rest IH]; intros episodes; cbn [parse_all].
  - intros E. injection E as <-. repeat split. intros e [].
  - destruct (get_episode_data cfg (name f)) as [d|] eqn:G; [|discriminate].
    destruct (parse_all cfg rest) as [ds|]; [|discriminate].
    intros E. injection E as <-. destruct (IH ds eq_refl) as [L [N H]].
    destruct (get_episode_data_digits cfg _ d G)
      as [_ [_ [_ [_ [_ [_ [_ [_ [_ [_ [_ Fn]]]]]]]]]]].
    cbn [List.length map]. rewrite L, N, Fn. repeat split.
    intros e [<-|He].
    + exists f. split; [left; reflexivity|exact G].
    + destruct (H e He) as [g [Hg Eg]]. exists g. split; [right; exact Hg|exact Eg].
Qed.

Lemma parse_all_some (cfg : Config) (video_files : list File) :
  (forall f, In f video_files -> get_episode_data cfg (name f) <> None) ->
  exists episodes, parse_all cfg video_files = Some episodes.
Proof.
  induction video_files as [|f rest IH]; intros H; [exists []; reflexivity|].
  cbn [parse_all].
  destruct (get_episode_data cfg (name f)) as [d|] eqn:G.
  - destruct IH as [ds ->]; [intros g Hg; apply H; right; exact Hg|].
    exists (d :: ds). reflexivity.
  - exfalso. apply (H f); [left; reflexivity|exact G].
Qed.

(** X8.  [get_series_data] returns a record exactly when there is at least
    one file, every name matches a pattern and every show name found is the
    one of the first file.  The record carries that show name and the
    episodes grouped by their two-digit season: the seasons in the order in
    which they first occur, each with its episodes in the order of the
    files.  So the season keys are distinct, no season is empty, every
    episode is under its own season, as many episodes are grouped as there
    are files, and [seasons_count] is the number of seasons, at least one. *)
Theorem series_data_groups_by_season
  (cfg : Config) (video_files : list File) (data : SeriesData) :
  (get_series_data cfg video_files = Ok (Some data)
   <-> exists first rest,
         parse_all cfg video_files = Some (first :: rest)
         /\ all_of_show (series_name first) rest
         /\ sd_series_name data = Some (series_name first)
         /\ seasons data = group_by_season (first :: rest)
         /\ seasons_count data = List.length (seasons data))
  /\ (get_series_data cfg video_files = Ok (Some data) ->
      NoDup (map fst (seasons data))
      /\ (forall key bucket, In (key, bucket) (seasons data) ->
            bucket <> []
            /\ forall e, In e bucket ->
                 season_num e = key
                 /\ exists f, In f video_files
                              /\ get_episode_data cfg (name f) = Some e)
      /\ List.length (List.concat (map snd (seasons data)))
         = List.length video_files
      /\ 1 <= seasons_count data).
Proof.
  split.
  - rewrite get_series_data_success. split.
    + intros [first [rest [P [A ->]]]]. exists first, rest.
      repeat split; assumption.
    + intros [first [rest [P [A [Hn [Hs Hc]]]]]]. exists first, rest.
      split; [exact P|]. split; [exact A|].
      destruct data as [n s c]. cbn in Hn, Hs, Hc. subst. reflexivity.
  - intros E. apply get_series_data_success in E.
    destruct E as [first [rest [P [A ->]]]]. cbn [seasons seasons_count].
    destruct (group_by_season_facts (first :: rest)) as [ND [Hb [_ Hl]]].
    destruct (parse_all_facts cfg video_files _ P) as [L [_ Hf]].
    split; [exact ND|]. split; [|split].
    + intros key bucket Hin. destruct (Hb key bucket Hin) as [-> Hne].
      split; [exact Hne|]. intros e He. apply filter_In in He.
      destruct He as [He Hk]. unfold in_season in Hk. apply str_eqb_eq in Hk.
      split; [exact Hk|]. exact (Hf e He).
    + rewrite Hl. exact L.
    + destruct (group_by_season_nonempty first rest) as [k [b [ss ->]]].
      cbn [List.length]. lia.
Qed.

Lemma one_show_cons (d : EpisodeData) (episodes : list EpisodeData) :
  one_show (d :: episodes) <-> all_of_show (series_name d) episodes.
Proof. reflexivity. Qed.

Lemma get_series_data_mixed (cfg : Config) (video_files : list File)
  (episodes : list EpisodeData) :
  parse_all cfg video_files = Some episodes ->
  ~ one_show episodes ->
  get_series_data cfg video_files = Ok None.
Proof.
  intros P Hmixed.
  destruct (get_series_data cfg video_files) as [[data|]|e] eqn:E.
  - exfalso. apply get_series_data_success in E.
    destruct E as [first [rest [P' [A _]]]]. rewrite P in P'.
    injection P' as ->. apply Hmixed. exact A.
  - reflexivity.
  - exfalso. apply get_series_data_raises in E.
    destruct E as [_ [pre [f [post [eps [-> [_ [_ N]]]]]]]].
    rewrite parse_all_app in P. cbn [parse_all] in P. rewrite N in P.
    destruct (parse_all cfg pre); discriminate.
Qed.

Lemma is_movie_with_sample_not_two (video_files : list File) :
  List.length video_files <> 2 -> is_movie_with_sample video_files = Ok false.
Proof.
  destruct video_files as [|a [|b [|c l]]]; cbn [List.length]; try reflexivity.
  intros H. exfalso. apply H. reflexivity.
Qed.

(** X9.  When every name matches but two files give different show names,
    compared as they are after stripping, capitals and small letters
    distinct, [get_series_data] returns [False]: the job is neither a
    season nor a series, and unless the sample heuristic takes it for a
    movie with sample it is classified unknown. *)
Theorem mixed_shows_are_not_a_series
  (cfg : Config) (video_files : list File) (episodes : list EpisodeData)
  (a b : EpisodeData) :
  parse_all cfg video_files = Some episodes ->
  In a episodes -> In b episodes -> series_name a <> series_name b ->
  get_series_data cfg video_files = Ok None
  /\ (is_movie_with_sample video_files = Ok false ->
      get_torrent_type cfg video_files = Ok (UNKNOWN, NoData))
  /\ (List.length video_files <> 2 ->
      get_torrent_type cfg video_files = Ok (UNKNOWN, NoData)).
Proof.
  intros P Ha Hb Hne.
  assert (Hmixed : ~ one_show episodes).
  { destruct episodes as [|d eps]; [contradiction|].
    cbn [one_show]. unfold all_of_show. rewrite Forall_forall. intros A.
    assert (Hd : forall e, In e (d :: eps) -> series_name e = series_name d).
    { intros e [<-|He]; [reflexivity|exact (A e He)]. }
    apply Hne. rewrite (Hd a Ha), (Hd b Hb). reflexivity. }
  pose proof (get_series_data_mixed cfg video_files episodes P Hmixed) as E.
  assert (Hlen : List.length video_files <> 1).
  { destruct (parse_all_facts cfg _ _ P) as [L _]. rewrite <- L.
    destruct episodes as [|d [|d' eps]]; cbn [List.length]; try lia.
    intros _. destruct Ha as [<-|[]], Hb as [<-|[]]. congruence. }
  assert (Hu : is_movie_with_sample video_files = Ok false ->
               get_torrent_type cfg video_files = Ok (UNKNOWN, NoData)).
  { intros S. unfold get_torrent_type.
    destruct video_files as [|f [|g l]]; [| exfalso; apply Hlen; reflexivity |];
      rewrite S; cbn [bind_result]; rewrite E; reflexivity. }
  split; [exact E|]. split; [exact Hu|].
  intros H2. apply Hu. apply is_movie_with_sample_not_two. exact H2.
Qed.

(** X10.  [get_series_data] raises nothing but [TypeError], and it raises
    it exactly when some file matches no pattern while every file before it
    matches and gives one and the same show name: a file without a match is
    only passed over when a change of show name ends the loop before it. *)
Theorem series_data_raises_on_unmatched_file
  (cfg : Config) (video_files : list File) :
  (forall e, get_series_data cfg video_files = Raise e -> e = TypeError)
  /\ (get_series_data cfg video_files = Raise TypeError
      <-> exists pre f post episodes,
            video_files = pre ++ f :: post
            /\ parse_all cfg pre = Some episodes
            /\ one_show episodes
            /\ get_episode_data cfg (name f) = None)
  /\ (forall f rest,
        video_files = f :: rest -> get_episode_data cfg (name f) = None ->
        get_series_data cfg video_files = Raise TypeError).
Proof.
  split; [|split].
  - intros e E. apply get_series_data_raises in E. apply E.
  - rewrite get_series_data_raises. split.
    + intros [_ H]. exact H.
    + intros H. split; [reflexivity|exact H].
  - intros f rest -> N. apply get_series_data_raises. split; [reflexivity|].
    exists [], f, rest, []. repeat split. exact N.
Qed.

Lemma get_series_data_count
  (cfg : Config) (video_files : list File) (data : SeriesData) :
  get_series_data cfg video_files = Ok (Some data) ->
  seasons_count data = List.length (seasons data)
  /\ 1 <= List.length (seasons data)
  /\ List.length (seasons data) <= List.length video_files.
Proof.
  intros E. apply get_series_data_success in E.
  destruct E as [first [rest [P [A ->]]]]. cbn [seasons seasons_count].
  split; [reflexivity|].
  destruct (group_by_season_nonempty first rest) as [k [b [ss Hg]]].
  split; [rewrite Hg; cbn [List.length]; lia|].
  destruct (parse_all_facts cfg video_files _ P) as [L _]. rewrite <- L.
  unfold group_by_season. rewrite length_map.
  rewrite <- (length_map season_num (first :: rest)).
  generalize (map season_num (first :: rest)). clear.
  induction l as [|k l IH]; cbn [first_occurrences List.length]; [lia|].
  pose proof (filter_length_le (fun k' => negb (Str.eqb k' k)) (first_occurrences l)).
  lia.
Qed.

(** ** What the classifier returns *)

Lemma is_movie_with_sample_raises (video_files : list File) (e : Exn) :
  is_movie_with_sample video_files = Raise e ->
  List.length video_files = 2 /\ (e = ZeroDivisionError \/ e = OverflowError).
Proof.
  destruct video_files as [|a [|b [|c l]]]; try discriminate.
  intros E. split; [reflexivity|]. unfold is_movie_with_sample in E.
  destruct (Z.eq_dec (Z.of_N (size a)) 0) as [Z0|NZ].
  - rewrite Z0 in E. cbn in E. injection E as <-. left. reflexivity.
  - destruct (int_truediv_nonzero (Z.of_N (size b) - Z.of_N (size a)) _ NZ)
      as [R|[q [R _]]]; rewrite R in E; cbn [bind_result] in E.
    + injection E as <-. right. reflexivity.
    + discriminate.
Qed.

(** The cases of the classifier, with what each result comes from. *)
Lemma get_torrent_type_cases (cfg : Config) (video_files : list File) :
  (forall torrent_type type_data,
     get_torrent_type cfg video_files = Ok (torrent_type, type_data) ->
     match torrent_type with
     | MOVIE =>
         type_data = NoData
         /\ exists f, video_files = [f] /\ get_episode_data cfg (name f) = None
     | EPISODE =>
         exists f d, video_files = [f]
                     /\ get_episode_data cfg (name f) = Some d
                     /\ type_data = EpisodeInfo d
     | MOVIE_WITH_SAMPLE =>
         type_data = NoData
         /\ exists first second,
              video_files = [first; second]
              /\ is_movie_with_sample video_files = Ok true
     | SEASON =>
         exists data, type_data = SeriesInfo data
           /\ get_series_data cfg video_files = Ok (Some data)
           /\ List.length (seasons data) = 1
     | SERIES =>
         exists data, type_data = SeriesInfo data
           /\ get_series_data cfg video_files = Ok (Some data)
           /\ 2 <= List.length (seasons data)
           /\ 2 <= List.length video_files
     | UNKNOWN =>
         type_data = NoData /\ List.length video_files <> 1
         /\ get_series_data cfg video_files = Ok None
     end)
  /\ (forall e,
        get_torrent_type cfg video_files = Raise e ->
        (List.length video_files = 2
         /\ is_movie_with_sample video_files = Raise e
         /\ (e = ZeroDivisionError \/ e = OverflowError))
        \/ (2 <= List.length video_files
            /\ get_series_data cfg video_files = Raise e /\ e = TypeError)).
Proof.
  destruct video_files as [|f [|g rest]].
  - split.
    + intros ty td. cbn. intros E. injection E as <- <-. repeat split. lia.
    + intros e. cbn. discriminate.
  - split.
    + intros ty td. cbn [get_torrent_type].
      destruct (get_episode_data cfg (name f)) as [d|] eqn:G;
        intros E; injection E as <- <-.
      * exists f, d. repeat split. exact G.
      * split; [reflexivity|]. exists f. split; [reflexivity|exact G].
    + intros e. cbn [get_torrent_type].
      destruct (get_episode_data cfg (name f)); discriminate.
  - set (vf := f :: g :: rest).
    assert (Hdef : get_torrent_type cfg vf
                   = do sample <- is_movie_with_sample vf;
                     if sample then Ok (MOVIE_WITH_SAMPLE, NoData)
                     else do series_data <- get_series_data cfg vf;
                          match series_data with
                          | Some data =>
                              if (seasons_count data =? 1)%nat
                              then Ok (SEASON, SeriesInfo data)
                              else Ok (SERIES, SeriesInfo data)
                          | None => Ok (UNKNOWN, NoData)
                          end) by reflexivity.
    rewrite Hdef. clear Hdef.
    assert (Hlen : 2 <= List.length vf) by (unfold vf; cbn [List.length]; lia).
    destruct (is_movie_with_sample vf) as [[|]|e0] eqn:S; cbn [bind_result].
    + split; [|discriminate]. intros ty td E. injection E as <- <-.
      split; [reflexivity|].
      destruct rest as [|h rest]; [|discriminate].
      exists f, g. split; reflexivity.
    + destruct (get_series_data cfg vf) as [[data|]|e1] eqn:D; cbn [bind_result].
      * pose proof (get_series_data_count cfg vf data D) as [Hc [Hl1 Hl2]].
        split; [|destruct (seasons_count data =? 1)%nat; discriminate].
        intros ty td.
        destruct (Nat.eqb_spec (seasons_count data) 1) as [H1|H1];
          intros E; injection E as <- <-; exists data.
        -- repeat split. congruence.
        -- repeat split; lia.
      * split; [|discriminate]. intros ty td E. injection E as <- <-.
        repeat split. lia.
      * split; [discriminate|]. intros e E. injection E as <-. right.
        apply get_series_data_raises in D. destruct D as [-> _].
        repeat split. exact Hlen.
    + split; [discriminate|]. intros e E. injection E as <-.
      destruct (is_movie_with_sample_raises vf e0 S) as [L H].
      left. repeat split; assumption.
Qed.

(** X11.  What the classifier returns fits together: a movie or an episode
    is a job of one file, the episode with the record of its name; a movie
    with sample is a job of two files and carries no data; a season carries
    the record of [get_series_data] with exactly one season, a series one
    with two seasons or more; unknown carries no data.  The classifier
    raises only on jobs of two or more files: the division error of the
    sample heuristic on two files, or the [TypeError] of [get_series_data]. *)
Theorem classifier_outcomes (cfg : Config) (video_files : list File) :
  (forall torrent_type type_data,
     get_torrent_type cfg video_files = Ok (torrent_type, type_data) ->
     match torrent_type with
     | MOVIE =>
         type_data = NoData
         /\ exists f, video_files = [f] /\ get_episode_data cfg (name f) = None
     | EPISODE =>
         exists f d, video_files = [f]
                     /\ get_episode_data cfg (name f) = Some d
                     /\ type_data = EpisodeInfo d
     | MOVIE_WITH_SAMPLE =>
         type_data = NoData
         /\ exists first second,
              video_files = [first; second]
              /\ is_movie_with_sample video_files = Ok true
     | SEASON =>
         exists data, type_data = SeriesInfo data
           /\ get_series_data cfg video_files = Ok (Some data)
           /\ List.length (seasons data) = 1
     | SERIES =>
         exists data, type_data = SeriesInfo data
           /\ get_series_data cfg video_files = Ok (Some data)
           /\ 2 <= List.length (seasons data)
           /\ 2 <= List.length video_files
     | UNKNOWN =>
         type_data = NoData /\ List.length video_files <> 1
         /\ get_series_data cfg video_files = Ok None
     end)
  /\ (forall e,
        get_torrent_type cfg video_files = Raise e ->
        (List.length video_files = 2
         /\ is_movie_with_sample video_files = Raise e
         /\ (e = ZeroDivisionError \/ e = OverflowError))
        \/ (2 <= List.length video_files
            /\ get_series_data cfg video_files = Raise e /\ e = TypeError)).
Proof. exact (get_torrent_type_cases cfg video_files). Qed.

(** ** Paths *)

Lemma join_relative (a b : str) :
  startswith_sep b = false -> Path.join a b = with_slash a ++ b.
Proof.
  intros H. unfold Path.join, with_slash. rewrite H.
  destruct ((match a with [] => true | _ => false end) || endswith_sep a);
    [reflexivity|].
  rewrite <- app_assoc. reflexivity.
Qed.

Lemma join_absolute (a b : str) :
  startswith_sep b = true -> Path.join a b = b.
Proof. intros H. unfold Path.join. rewrite H. reflexivity. Qed.

Lemma endswith_sep_app (a b : str) :
  b <> [] -> endswith_sep (a ++ b) = endswith_sep b.
Proof.
  intros Hb. unfold endswith_sep. rewrite rev_app_distr.
  destruct (rev b) as [|c r] eqn:R; [|reflexivity].
  exfalso. apply Hb. rewrite <- (rev_involutive b), R. reflexivity.
Qed.

Lemma with_slash_ends (a : str) :
  (match with_slash a with [] => true | _ => false end)
  || endswith_sep (with_slash a) = true.
Proof.
  unfold with_slash.
  destruct ((match a with [] => true | _ => false end) || endswith_sep a) eqn:C;
    [exact C|].
  rewrite endswith_sep_app by discriminate. apply orb_true_r.
Qed.

Lemma with_slash_idempotent (a : str) : with_slash (with_slash a) = with_slash a.
Proof. unfold with_slash at 1. rewrite with_slash_ends. reflexivity. Qed.

Lemma with_slash_app (a b : str) :
  with_slash (with_slash a ++ b) = with_slash a ++ with_slash b.
Proof.
  destruct b as [|c b].
  - rewrite app_nil_r, with_slash_idempotent.
    change (with_slash []) with (@nil ascii). rewrite app_nil_r. reflexivity.
  - generalize (with_slash a). intros w. unfold with_slash.
    rewrite endswith_sep_app by discriminate.
    assert (N : match w ++ c :: b with [] => true | _ => false end = false)
      by (destruct w; reflexivity).
    rewrite N. cbn [orb].
    destruct (endswith_sep (c :: b)); [reflexivity|].
    rewrite <- app_assoc. reflexivity.
Qed.

Lemma join3_relative (a b c : str) :
  startswith_sep b = false -> startswith_sep c = false ->
  Path.join3 a b c = with_slash a ++ with_slash b ++ c.
Proof.
  intros Hb Hc. unfold Path.join3.
  rewrite (join_relative _ c Hc), (join_relative a b Hb), with_slash_app.
  rewrite <- app_assoc. reflexivity.
Qed.

Lemma sep_free_relative (s : str) :
  existsb is_sep s = false -> startswith_sep s = false.
Proof.
  destruct s as [|c s]; [reflexivity|]. cbn. intros H.
  apply orb_false_iff in H. apply H.
Qed.

Lemma series_name_sep_free (cfg : Config) (file : str) (d : EpisodeData) :
  get_episode_data cfg file = Some d -> existsb is_sep (series_name d) = false.
Proof.
  intros E.
  destruct (get_episode_data_digits cfg file d E)
    as [_ [_ [_ [_ [_ [_ [_ [_ [Cn _]]]]]]]]].
  destruct (existsb is_sep (series_name d)) eqn:X; [|reflexivity].
  apply existsb_exists in X. destruct X as [c [Hc Hsep]].
  pose proof (basename_no_sep file) as B.
  assert (existsb is_sep (Path.basename file) = true)
    by (apply existsb_exists; exists c; split; [apply Cn; exact Hc|exact Hsep]).
  congruence.
Qed.

Lemma season_num_starts_with_digit (cfg : Config) (file : str) (d : EpisodeData) :
  get_episode_data cfg file = Some d ->
  exists c rest, season_num d = c :: rest /\ is_digit c = true.
Proof.
  intros E.
  destruct (get_episode_data_digits cfg file d E)
    as [season [_ [Ds [Ls [_ [_ [_ [_ [_ [Es _]]]]]]]]]].
  destruct (zero_pad2_shape season Ds Ls) as [L2 D2]. rewrite <- Es in L2, D2.
  destruct (season_num d) as [|c rest]; [discriminate|].
  exists c, rest. split; [reflexivity|].
  cbn in D2. apply andb_true_iff in D2. apply D2.
Qed.

Lemma digit_not_sep (c : ascii) : is_digit c = true -> is_sep c = false.
Proof. destruct c as [[] [] [] [] [] [] [] []]; vm_compute; congruence. Qed.

Lemma season_component_relative (cfg : Config) (file : str) (d : EpisodeData) :
  get_episode_data cfg file = Some d ->
  startswith_sep (SEASON_PREFIX cfg ++ season_num d)
  = startswith_sep (SEASON_PREFIX cfg).
Proof.
  intros E. destruct (SEASON_PREFIX cfg) as [|c p]; [|reflexivity].
  destruct (season_num_starts_with_digit cfg file d E) as [c [rest [-> Hc]]].
  cbn. apply digit_not_sep. exact Hc.
Qed.

Lemma with_slash_sep_free (s : str) :
  s <> [] -> existsb is_sep s = false -> with_slash s = s ++ [sep].
Proof.
  intros Hs Hfree. unfold with_slash.
  destruct s as [|c s]; [contradiction|]. cbn [orb].
  destruct (endswith_sep (c :: s)) eqn:X; [|reflexivity].
  unfold endswith_sep in X. destruct (rev (c :: s)) as [|x r] eqn:R; [discriminate|].
  assert (Hin : In x (c :: s)).
  { apply in_rev. rewrite R. left; reflexivity. }
  assert (Hex : existsb is_sep (c :: s) = true).
  { apply existsb_exists. exists x. split; assumption. }
  congruence.
Qed.

Lemma digit_not_extsep (c : ascii) : is_digit c = true -> c <> extsep.
Proof. intros D ->. vm_compute in D. discriminate. Qed.

(** A name that holds a digit is neither [.] nor [..]. *)
Lemma digit_inside_not_dots (s : str) (c : ascii) :
  In c s -> is_digit c = true ->
  Str.eqb s (of_string ".") = false /\ Str.eqb s (of_string "..") = false.
Proof.
  intros I D. pose proof (digit_not_extsep c D) as N. unfold extsep in N.
  split; apply str_eqb_neq; intros ->; cbn in I;
    repeat (destruct I as [I|I]; [symmetry in I; contradiction|]); exact I.
Qed.

(** With the dot in the strip set, the show name is empty or a plain name. *)
Lemma series_name_plain (cfg : Config) (file : str) (d : EpisodeData) :
  get_episode_data cfg file = Some d ->
  mem extsep (STRIP_CHARS cfg) = true ->
  series_name d = [] \/ is_plain_name (series_name d) = true.
Proof.
  intros E Hdot. pose proof (series_name_sep_free cfg file d E) as Hsep.
  destruct (get_episode_data_some cfg file d E)
    as [pat [g1 [g2 [g3 [rest [_ [_ Hd]]]]]]].
  assert (Hs : series_name d = strip (STRIP_CHARS cfg) g1) by (rewrite Hd; reflexivity).
  destruct (series_name d) as [|c r] eqn:Hn; [left; reflexivity|right].
  symmetry in Hs. apply strip_head in Hs.
  assert (Hc : c <> extsep) by (intros ->; congruence).
  unfold is_plain_name. rewrite Hsep.
  assert (H1 : Str.eqb (c :: r) (of_string ".") = false).
  { apply str_eqb_neq. intros X. injection X as X _. contradiction. }
  assert (H2 : Str.eqb (c :: r) (of_string "..") = false).
  { apply str_eqb_neq. intros X. injection X as X _. contradiction. }
  rewrite H1, H2. reflexivity.
Qed.

(** A season prefix without separator and the two digits of the season make
    a plain name. *)
Lemma season_component_plain (cfg : Config) (file : str) (d : EpisodeData) :
  get_episode_data cfg file = Some d ->
  existsb is_sep (SEASON_PREFIX cfg) = false ->
  is_plain_name (SEASON_PREFIX cfg ++ season_num d) = true.
Proof.
  intros E Hp.
  destruct (get_episode_data_digits cfg file d E)
    as [season [_ [Ds [Ls [_ [_ [_ [_ [_ [Es _]]]]]]]]]].
  destruct (zero_pad2_shape season Ds Ls) as [L2 D2]. rewrite <- Es in L2, D2.
  destruct (season_num d) as [|c rest]; [discriminate|].
  cbn in D2. apply andb_true_iff in D2. destruct D2 as [Dc Dr].
  assert (Hin : In c (SEASON_PREFIX cfg ++ c :: rest))
    by (apply in_or_app; right; left; reflexivity).
  destruct (digit_inside_not_dots _ c Hin Dc) as [H1 H2].
  assert (Hsep : existsb is_sep (SEASON_PREFIX cfg ++ c :: rest) = false).
  { rewrite existsb_app, Hp. cbn [orb].
    destruct (existsb is_sep (c :: rest)) eqn:X; [|reflexivity].
    apply existsb_exists in X. destruct X as [x [Hx Sx]].
    assert (Dx : is_digit x = true).
    { destruct Hx as [<-|Hx]; [exact Dc|].
      rewrite forallb_forall in Dr. apply Dr; exact Hx. }
    rewrite (digit_not_sep x Dx) in Sx. discriminate. }
  assert (H0 : Str.eqb (SEASON_PREFIX cfg ++ c :: rest) [] = false).
  { apply str_eqb_neq. intros X. apply app_eq_nil in X.
    destruct X as [_ X]. discriminate. }
  unfold is_plain_name. rewrite H0, Hsep, H1, H2. reflexivity.
Qed.

(** X12.  The season directory of an episode found by [get_episode_data],
    as a text.  When the configured season prefix does not begin with a
    separator, it is the series root, the show name and the season prefix
    followed by the two-digit season, joined by single separators; with an
    empty show name the season component follows the series root directly.
    When the prefix begins with a separator, the series root and the show
    are dropped: the directory is the prefix followed by the season.  When
    the prefix holds no separator at all and the dot is in the strip set, as
    in the settings the script defines, the show name is empty or a plain
    name and the season component is a plain name, neither of them [.] or
    [..]: the season directory then lies one or two levels below the series
    root.  Without these two conditions nothing keeps the directory below
    the series root: a prefix may climb with [..], and a show name may be
    [..] itself. *)
Theorem season_dir_is_under_series_root
  (cfg : Config) (file : str) (d : EpisodeData) :
  get_episode_data cfg file = Some d ->
  (startswith_sep (SEASON_PREFIX cfg) = false ->
   season_dir_of cfg (series_name d) (season_num d)
   = with_slash (DIR_SERIES cfg) ++ with_slash (series_name d)
     ++ SEASON_PREFIX cfg ++ season_num d)
  /\ (series_name d = [] -> startswith_sep (SEASON_PREFIX cfg) = false ->
      season_dir_of cfg (series_name d) (season_num d)
      = with_slash (DIR_SERIES cfg) ++ SEASON_PREFIX cfg ++ season_num d)
  /\ (startswith_sep (SEASON_PREFIX cfg) = true ->
      season_dir_of cfg (series_name d) (season_num d)
      = SEASON_PREFIX cfg ++ season_num d)
  /\ (existsb is_sep (SEASON_PREFIX cfg) = false ->
      mem extsep (STRIP_CHARS cfg) = true ->
      exists season_component : str,
        season_component = SEASON_PREFIX cfg ++ season_num d
        /\ is_plain_name season_component = true
        /\ ((series_name d = []
             /\ season_dir_of cfg (series_name d) (season_num d)
                = with_slash (DIR_SERIES cfg) ++ season_component)
            \/ (is_plain_name (series_name d) = true
                /\ season_dir_of cfg (series_name d) (season_num d)
                   = with_slash (DIR_SERIES cfg) ++ series_name d
                     ++ sep :: season_component))).
Proof.
  intros E.
  pose proof (sep_free_relative _ (series_name_sep_free cfg file d E)) as Hn.
  pose proof (season_component_relative cfg file d E) as Hc.
  assert (Hrel : startswith_sep (SEASON_PREFIX cfg) = false ->
                 season_dir_of cfg (series_name d) (season_num d)
                 = with_slash (DIR_SERIES cfg) ++ with_slash (series_name d)
                   ++ SEASON_PREFIX cfg ++ season_num d).
  { intros Hp. unfold season_dir_of. apply join3_relative; [exact Hn|].
    rewrite Hc. exact Hp. }
  split; [exact Hrel|]. split; [|split].
  - intros Hempty Hp. rewrite (Hrel Hp), Hempty. reflexivity.
  - intros Hp. unfold season_dir_of, Path.join3. apply join_absolute.
    rewrite Hc. exact Hp.
  - intros Hp Hdot.
    pose proof (sep_free_relative _ Hp) as Hp'.
    exists (SEASON_PREFIX cfg ++ season_num d).
    split; [reflexivity|].
    split; [apply (season_component_plain cfg file d E Hp)|].
    rewrite (Hrel Hp').
    destruct (series_name_plain cfg file d E Hdot) as [Hempty|Hplain].
    + left. split; [exact Hempty|]. rewrite Hempty. reflexivity.
    + right. split; [exact Hplain|].
      pose proof (series_name_sep_free cfg file d E) as Hfree.
      destruct (series_name d) as [|c r] eqn:Hname; [discriminate|].
      rewrite (with_slash_sep_free (c :: r) ltac:(discriminate) Hfree).
      rewrite <- app_assoc. reflexivity.
Qed.

(** ** The events of a job *)

Section JobFacts.

Variable sys : System.

Lemma emits_ret {A : Type} (allowed : Event -> Prop) (a : A) :
  emits allowed (ret (sys := sys) a).
Proof.
  intros st st' r E. injection E as <- <-. exists [].
  rewrite app_nil_r. split; [reflexivity|constructor].
Qed.

Lemma emits_lift {A : Type} (allowed : Event -> Prop) (x : result A) :
  emits allowed (lift (sys := sys) x).
Proof.
  intros st st' r E. injection E as <- <-. exists [].
  rewrite app_nil_r. split; [reflexivity|constructor].
Qed.

Lemma emits_log (allowed : Event -> Prop) (e : Event) :
  allowed e -> emits allowed (emit (sys := sys) e).
Proof.
  intros H st st' r E. injection E as <- <-. exists [e].
  split; [reflexivity|]. constructor; [exact H|constructor].
Qed.

(** Sequencing, where the continuation may rely on a property of the value
    the first computation returns. *)
Lemma emits_bind {A B : Type} (allowed : Event -> Prop) (Q : A -> Prop)
  (m : M sys A) (k : A -> M sys B) :
  emits allowed m ->
  (forall st st' a, m st = (st', Ok a) -> Q a) ->
  (forall a, Q a -> emits allowed (k a)) ->
  emits allowed (bind m k).
Proof.
  intros Hm HQ Hk st st' r. unfold bind.
  destruct (m st) as [st1 [a|e]] eqn:Em; intros E.
  - destruct (Hm _ _ _ Em) as [evs1 [T1 H1]].
    destruct (Hk a (HQ _ _ _ Em) _ _ _ E) as [evs2 [T2 H2]].
    exists (evs1 ++ evs2). split.
    + rewrite T2, T1, <- app_assoc. reflexivity.
    + apply Forall_app. split; assumption.
  - injection E as <- <-. exact (Hm _ _ _ Em).
Qed.

Lemma emits_weaken {A : Type} (P Q : Event -> Prop) (m : M sys A) :
  (forall e, P e -> Q e) -> emits P m -> emits Q m.
Proof.
  intros H Hm st st' r E. destruct (Hm _ _ _ E) as [evs [T F]].
  exists evs. split; [exact T|]. apply (Forall_impl _ H). exact F.
Qed.

Lemma move_torrent_file_emits (cfg : Config) (source_file target_dir : str) :
  emits (fun e => is_mutation e = true ->
                  e = CallCopyfile (source_of cfg source_file)
                                   (target_of cfg source_file target_dir))
        (move_torrent_file sys cfg source_file target_dir).
Proof.
  intros st st' r. rewrite move_torrent_file_cases. cbv zeta.
  destruct (path_exists sys (world st) _);
    [|destruct (DRY_RUN cfg);
      [|destruct (snd (copyfile sys (world st) _ _))]];
    intros E; injection E as <- <-; cbn [trace];
    eexists; (split; [reflexivity|]);
    repeat (constructor; [cbn; congruence|]); constructor.
Qed.

Lemma move_torrent_file_never_raises (cfg : Config) (source_file target_dir : str)
  (st : State sys) :
  exists moved, snd (move_torrent_file sys cfg source_file target_dir st) = Ok moved.
Proof.
  rewrite move_torrent_file_cases. cbv zeta.
  destruct (path_exists sys (world st) _);
    [|destruct (DRY_RUN cfg);
      [|destruct (snd (copyfile sys (world st) _ _))]];
    eexists; reflexivity.
Qed.

Lemma get_season_dir_emits (cfg : Config) (series_name_ season_num_ : str) :
  emits (fun e => is_mutation e = true ->
                  e = CallMakedirs (season_dir_of cfg series_name_ season_num_))
        (get_season_dir sys cfg series_name_ season_num_).
Proof.
  intros st st' r. rewrite get_season_dir_cases. cbv zeta.
  destruct (path_exists sys (world st) _); [|destruct (DRY_RUN cfg)];
    intros E; injection E as <- <-; cbn [trace].
  - exists []. rewrite app_nil_r. split; [reflexivity|constructor].
  - eexists. split; [reflexivity|].
    repeat (constructor; [cbn; congruence|]); constructor.
  - eexists. split; [reflexivity|].
    repeat (constructor; [cbn; congruence|]); constructor.
Qed.

Lemma get_season_dir_value (cfg : Config) (series_name_ season_num_ : str)
  (st st' : State sys) (dir : str) :
  get_season_dir sys cfg series_name_ season_num_ st = (st', Ok dir) ->
  dir = season_dir_of cfg series_name_ season_num_.
Proof.
  rewrite get_season_dir_cases. cbv zeta.
  destruct (path_exists sys (world st) _); [|destruct (DRY_RUN cfg)].
  - intros E. injection E as _ <-. reflexivity.
  - intros E. injection E as _ <-. reflexivity.
  - destruct (snd (makedirs sys (world st) _)); [|discriminate].
    intros E. injection E as _ <-. reflexivity.
Qed.

Lemma get_season_dir_raises (cfg : Config) (series_name_ season_num_ : str)
  (st st' : State sys) (e : Exn) :
  get_season_dir sys cfg series_name_ season_num_ st = (st', Raise e) ->
  e = OSError /\ DRY_RUN cfg = false /\ ends_with_makedirs (trace st').
Proof.
  rewrite get_season_dir_cases. cbv zeta.
  destruct (path_exists sys (world st) _); [discriminate|].
  destruct (DRY_RUN cfg); [discriminate|].
  destruct (snd (makedirs sys (world st) _)); [discriminate|].
  intros E. injection E as <- <-. repeat split. cbn [trace].
  exists (trace st ++ [LogCreatingSeasonDir]), (season_dir_of cfg series_name_ season_num_).
  rewrite <- app_assoc. reflexivity.
Qed.

Lemma episode_events (cfg : Config) (video_files : list File) (e : EpisodeData) :
  episode_of_job cfg video_files e ->
  emits (job_event cfg video_files)
    (bind (get_season_dir sys cfg (series_name e) (season_num e))
          (fun season_dir => move_torrent_file sys cfg (filename e) season_dir)).
Proof.
  intros [f [Hin G]].
  assert (Fn : filename e = name f).
  { destruct (get_episode_data_digits cfg _ e G)
      as [_ [_ [_ [_ [_ [_ [_ [_ [_ [_ [_ Fn]]]]]]]]]]]. exact Fn. }
  apply (emits_bind _ (fun dir => dir = season_dir_of cfg (series_name e) (season_num e))).
  - eapply emits_weaken; [|apply get_season_dir_emits].
    intros ev H. destruct ev; cbn; try exact I.
    + specialize (H eq_refl). injection H as ->. exists f. split; [exact Hin|].
      exists e. split; [exact G|reflexivity].
    + specialize (H eq_refl). discriminate.
    + specialize (H eq_refl). discriminate.
  - intros st st' dir. apply get_season_dir_value.
  - intros dir ->.
    eapply emits_weaken; [|apply move_torrent_file_emits].
    intros ev H. destruct ev; cbn; try exact I.
    + specialize (H eq_refl). discriminate.
    + specialize (H eq_refl). injection H as -> ->. exists f.
      split; [exact Hin|]. rewrite Fn. split; [reflexivity|]. right.
      exists (season_dir_of cfg (series_name e) (season_num e)).
      split; [|reflexivity]. exists e. split; [exact G|reflexivity].
    + specialize (H eq_refl). discriminate.
Qed.

Lemma move_episodes_emits (cfg : Config) (video_files : list File)
  (episodes : list EpisodeData) :
  Forall (episode_of_job cfg video_files) episodes ->
  forall moved, emits (job_event cfg video_files)
                  (move_episodes sys cfg episodes moved).
Proof.
  induction episodes as [|e rest IH]; intros F moved.
  - apply emits_ret.
  - inversion F as [|? ? He Hrest]; subst.
    intros st st' r E.
    pose proof (episode_events cfg video_files e He st) as Hstep.
    cbn [move_episodes] in E. unfold bind at 1 in E.
    unfold bind in Hstep.
    destruct (get_season_dir sys cfg (series_name e) (season_num e) st)
      as [st1 [dir|x]] eqn:D.
    + unfold bind at 1 in E.
      destruct (move_torrent_file sys cfg (filename e) dir st1)
        as [st2 [[|]|x]] eqn:Mv.
      * destruct (Hstep _ _ eq_refl) as [evs1 [T1 F1]].
        destruct (IH Hrest true _ _ _ E) as [evs2 [T2 F2]].
        exists (evs1 ++ evs2). split.
        -- rewrite T2, T1, <- app_assoc. reflexivity.
        -- apply Forall_app. split; assumption.
      * injection E as <- <-. exact (Hstep _ _ eq_refl).
      * injection E as <- <-. exact (Hstep _ _ eq_refl).
    + injection E as <- <-. exact (Hstep _ _ eq_refl).
Qed.

Lemma move_seasons_emits (cfg : Config) (video_files : list File)
  (seasons_ : Seasons) :
  (forall key bucket, In (key, bucket) seasons_ ->
     Forall (episode_of_job cfg video_files) bucket) ->
  forall moved, emits (job_event cfg video_files)
                  (move_seasons sys cfg seasons_ moved).
Proof.
  induction seasons_ as [|[key bucket] rest IH]; intros H moved.
  - apply emits_ret.
  - cbn [move_seasons].
    apply (emits_bind _ (fun _ => True)).
    + apply move_episodes_emits. apply (H key). left. reflexivity.
    + intros; exact I.
    + intros [moved' broke] _. destruct broke; [apply emits_ret|].
      apply IH. intros k b Hin. apply (H k). right. exact Hin.
Qed.

Lemma series_episodes_of_job (cfg : Config) (video_files : list File)
  (data : SeriesData) :
  get_series_data cfg video_files = Ok (Some data) ->
  forall key bucket, In (key, bucket) (seasons data) ->
    Forall (episode_of_job cfg video_files) bucket.
Proof.
  intros E key bucket Hin. apply get_series_data_success in E.
  destruct E as [first [rest [P [_ ->]]]]. cbn [seasons] in Hin.
  destruct (group_by_season_facts (first :: rest)) as [_ [Hb _]].
  destruct (Hb key bucket Hin) as [-> _].
  destruct (parse_all_facts cfg video_files _ P) as [_ [_ Hf]].
  apply Forall_forall. intros e He. apply filter_In in He.
  exact (Hf e (proj1 He)).
Qed.

Lemma film_copy_is_job_event (cfg : Config) (video_files : list File) (f : File) :
  In f video_files ->
  emits (job_event cfg video_files)
        (move_torrent_file sys cfg (name f) (DIR_FILM cfg)).
Proof.
  intros Hin. eapply emits_weaken; [|apply move_torrent_file_emits].
  intros ev H. destruct ev; cbn; try exact I.
  - specialize (H eq_refl). discriminate.
  - specialize (H eq_refl). injection H as -> ->. exists f.
    split; [exact Hin|]. split; [reflexivity|]. left. reflexivity.
  - specialize (H eq_refl). discriminate.
Qed.

Lemma relocate_emits (cfg : Config) (video_files : list File)
  (torrent_type : TorrentType) (type_data : TypeData) :
  get_torrent_type cfg video_files = Ok (torrent_type, type_data) ->
  emits (job_event cfg video_files)
        (relocate sys cfg video_files torrent_type type_data).
Proof.
  intros E.
  pose proof (proj1 (get_torrent_type_cases cfg video_files) _ _ E) as C.
  destruct torrent_type; cbn [relocate].
  - apply emits_ret.
  - destruct C as [_ [f [-> _]]]. apply film_copy_is_job_event. left. reflexivity.
  - destruct C as [_ [first [second [-> _]]]].
    destruct (size first <? size second)%N; apply film_copy_is_job_event;
      cbn; auto.
  - destruct C as [f [d [-> [G ->]]]].
    assert (Fn : filename d = name f).
    { destruct (get_episode_data_digits cfg _ d G)
        as [_ [_ [_ [_ [_ [_ [_ [_ [_ [_ [_ Fn]]]]]]]]]]]. exact Fn. }
    apply episode_events. exists f. split; [left; reflexivity|exact G].
  - destruct C as [data [-> [D _]]]. apply move_seasons_emits.
    exact (series_episodes_of_job cfg video_files data D).
  - destruct C as [data [-> [D _]]]. apply move_seasons_emits.
    exact (series_episodes_of_job cfg video_files data D).
Qed.

Lemma process_torrent_emits (cfg : Config) (torrent : Torrent) :
  emits (job_event cfg (get_video_files (files torrent)))
        (process_torrent sys cfg torrent).
Proof.
  unfold process_torrent.
  destruct (existsb _ TORRENT_COMPLETE_STATUS); [|apply emits_ret].
  destruct (get_video_files (files torrent)) as [|f l] eqn:V; [apply emits_ret|].
  apply (emits_bind _ (fun c => get_torrent_type cfg (f :: l) = Ok c)).
  - apply emits_lift.
  - intros st st' c H. unfold lift in H. injection H as _ H. exact H.
  - intros [ty td] H. apply relocate_emits. exact H.
Qed.

(** X13.  Whatever processing a torrent does outside the process, it does
    to the video files of that torrent: it copies such a file from the
    download directory, under its base name, into the film directory or
    into the season directory of the episode found in its name; it creates
    such season directories; it requests no removal. *)
Theorem job_touches_only_its_video_files
  (cfg : Config) (torrent : Torrent) (st st' : State sys) (r : result bool) :
  process_torrent sys cfg torrent st = (st', r) ->
  exists evs,
    trace st' = trace st ++ evs
    /\ Forall (job_event cfg (get_video_files (files torrent))) evs.
Proof. apply process_torrent_emits. Qed.

(** ** Exceptions while relocating *)

Lemma move_torrent_file_ok (cfg : Config) (source_file target_dir : str)
  (st st' : State sys) (e : Exn) :
  move_torrent_file sys cfg source_file target_dir st <> (st', Raise e).
Proof.
  destruct (move_torrent_file_never_raises cfg source_file target_dir st)
    as [moved H].
  intros E. rewrite E in H. discriminate.
Qed.

Lemma move_episodes_raises (cfg : Config) (episodes : list EpisodeData) :
  forall (moved : bool) (st st' : State sys) (e : Exn),
  move_episodes sys cfg episodes moved st = (st', Raise e) ->
  e = OSError /\ DRY_RUN cfg = false /\ ends_with_makedirs (trace st').
Proof.
  induction episodes as [|ep rest IH]; intros moved st st' e.
  - discriminate.
  - rewrite move_episodes_cons.
    destruct (get_season_dir sys cfg _ _ st) as [st1 [dir|x]] eqn:D.
    + destruct (move_torrent_file sys cfg _ dir st1) as [st2 [[|]|x]] eqn:Mv.
      * apply IH.
      * discriminate.
      * exfalso. exact (move_torrent_file_ok _ _ _ _ _ _ Mv).
    + intros E. injection E as <- <-. exact (get_season_dir_raises _ _ _ _ _ _ D).
Qed.

Lemma move_seasons_raises (cfg : Config) (seasons_ : Seasons) :
  forall (moved : bool) (st st' : State sys) (e : Exn),
  move_seasons sys cfg seasons_ moved st = (st', Raise e) ->
  e = OSError /\ DRY_RUN cfg = false /\ ends_with_makedirs (trace st').
Proof.
  induction seasons_ as [|[key bucket] rest IH]; intros moved st st' e.
  - discriminate.
  - rewrite move_seasons_cons.
    destruct (move_episodes sys cfg bucket moved st) as [st1 [[m [|]]|x]] eqn:Ep.
    + discriminate.
    + apply IH.
    + intros E. injection E as <- <-. exact (move_episodes_raises _ _ _ _ _ _ Ep).
Qed.

Lemma relocate_raises (cfg : Config) (video_files : list File)
  (torrent_type : TorrentType) (type_data : TypeData)
  (st st' : State sys) (e : Exn) :
  get_torrent_type cfg video_files = Ok (torrent_type, type_data) ->
  relocate sys cfg video_files torrent_type type_data st = (st', Raise e) ->
  e = OSError /\ DRY_RUN cfg = false /\ ends_with_makedirs (trace st').
Proof.
  intros C R.
  pose proof (proj1 (get_torrent_type_cases cfg video_files) _ _ C) as H.
  destruct torrent_type; cbn [relocate] in R.
  - discriminate.
  - destruct H as [_ [f [-> _]]]. exfalso. exact (move_torrent_file_ok _ _ _ _ _ _ R).
  - destruct H as [_ [first [second [-> _]]]].
    exfalso. exact (move_torrent_file_ok _ _ _ _ _ _ R).
  - destruct H as [f [d [-> [G ->]]]]. unfold bind in R.
    destruct (get_season_dir sys cfg _ _ st) as [st1 [dir|x]] eqn:D.
    + exfalso. exact (move_torrent_file_ok _ _ _ _ _ _ R).
    + injection R as <- <-. exact (get_season_dir_raises _ _ _ _ _ _ D).
  - destruct H as [data [-> _]]. exact (move_seasons_raises _ _ _ _ _ _ R).
  - destruct H as [data [-> _]]. exact (move_seasons_raises _ _ _ _ _ _ R).
Qed.

Lemma process_torrent_raises (cfg : Config) (torrent : Torrent)
  (st st' : State sys) (e : Exn) :
  process_torrent sys cfg torrent st = (st', Raise e) ->
  (st' = st /\ get_torrent_type cfg (get_video_files (files torrent)) = Raise e)
  \/ (e = OSError /\ DRY_RUN cfg = false /\ ends_with_makedirs (trace st')).
Proof.
  unfold process_torrent.
  destruct (existsb _ TORRENT_COMPLETE_STATUS); [|discriminate].
  destruct (get_video_files (files torrent)) as [|f l] eqn:V; [discriminate|].
  unfold bind, lift.
  destruct (get_torrent_type cfg (f :: l)) as [[ty td]|x] eqn:C.
  - intros R. right. exact (relocate_raises _ _ _ _ _ _ _ C R).
  - intros R. injection R as <- <-. left. split; reflexivity.
Qed.

(** X14.  Processing a torrent raises in two ways only.  Either the
    classifier raised, a division error of the sample heuristic or the
    [TypeError] of [get_series_data], before anything was done; or creating
    a season directory failed, which cannot happen in a dry run, and the
    failed call is the last thing done.  A copy that fails never raises:
    [move_torrent_file] always returns.  In particular no index of
    [video_files] is ever out of range and [type_data] is never subscripted
    when it is [None]. *)
Theorem processing_raises_only_in_classifier_or_makedirs
  (cfg : Config) (torrent : Torrent) (st st' : State sys) (e : Exn) :
  process_torrent sys cfg torrent st = (st', Raise e) ->
  ((st' = st
    /\ get_torrent_type cfg (get_video_files (files torrent)) = Raise e
    /\ (e = ZeroDivisionError \/ e = OverflowError \/ e = TypeError))
   \/ (e = OSError /\ DRY_RUN cfg = false /\ ends_with_makedirs (trace st')))
  /\ e <> IndexError
  /\ forall source_file target_dir st0,
       exists moved,
         snd (move_torrent_file sys cfg source_file target_dir st0) = Ok moved.
Proof.
  intros R.
  assert (H : (st' = st
               /\ get_torrent_type cfg (get_video_files (files torrent)) = Raise e
               /\ (e = ZeroDivisionError \/ e = OverflowError \/ e = TypeError))
              \/ (e = OSError /\ DRY_RUN cfg = false
                  /\ ends_with_makedirs (trace st'))).
  { destruct (process_torrent_raises _ _ _ _ _ R) as [[-> C]|H]; [left|right; exact H].
    split; [reflexivity|]. split; [exact C|].
    destruct (proj2 (get_torrent_type_cases cfg _) e C)
      as [[_ [_ [->| ->]]]|[_ [_ ->]]]; auto. }
  split; [exact H|]. split.
  - destruct H as [[_ [_ [->|[->| ->]]]]|[-> _]]; discriminate.
  - intros source_file target_dir st0. apply move_torrent_file_never_raises.
Qed.

(** ** The run as a whole *)

Lemma job_event_no_removal (cfg : Config) (video_files : list File) (e : Event) :
  job_event cfg video_files e -> is_removal e = false.
Proof. destruct e; cbn; try reflexivity. contradiction. Qed.

Lemma collect_ids_emits (cfg : Config) (torrents : list Torrent) :
  forall ids0, emits (fun e => is_removal e = false)
                 (collect_ids sys cfg torrents ids0).
Proof.
  induction torrents as [|torrent rest IH]; intros ids0; cbn [collect_ids].
  - apply emits_ret.
  - apply (emits_bind _ (fun _ => True)).
    + eapply emits_weaken; [|apply process_torrent_emits].
      apply job_event_no_removal.
    + intros; exact I.
    + intros moved _. destruct (moved && is_finished torrent); [|apply IH].
      apply (emits_bind _ (fun _ => True)).
      * apply emits_log. reflexivity.
      * intros; exact I.
      * intros _ _. apply IH.
Qed.

(** X15.  The removal request is made at most once, after every torrent
    has been processed, for all the collected ids at once.  When processing
    any torrent raises, the run ends there with that exception and nothing
    is removed, not even the torrents relocated before; when no id was
    collected nothing is requested; in a dry run the request is logged as
    skipped. *)
Theorem removal_is_one_final_request
  (cfg : Config) (torrents : list Torrent) (st : State sys) :
  let '(st1, collected) := collect_ids sys cfg torrents [] st in
  (exists evs, trace st1 = trace st ++ evs
               /\ Forall (fun e => is_removal e = false) evs)
  /\ main sys cfg (Some torrents) st
     = match collected with
       | Raise e => (st1, Raise e)
       | Ok [] => (st1, Ok 0%Z)
       | Ok ids =>
           if DRY_RUN cfg
           then ({| world := world st1;
                    trace := trace st1 ++ [LogRemovingFinished; LogSkippingDryRun] |},
                 Ok 0%Z)
           else ({| world := fst (remove_torrent sys (world st1) ids);
                    trace := trace st1
                             ++ [LogRemovingFinished; CallRemoveTorrent ids] |},
                 if snd (remove_torrent sys (world st1) ids)
                 then Ok 0%Z else Raise OSError)
       end.
Proof.
  destruct (collect_ids sys cfg torrents [] st) as [st1 collected] eqn:C.
  split; [exact (collect_ids_emits cfg torrents [] _ _ _ C)|].
  cbn [main]. unfold bind at 1. rewrite C.
  destruct collected as [[|id ids]|e]; [reflexivity| |reflexivity].
  cbv [bind emit is_dry_run call ret]. cbn [world trace].
  destruct (DRY_RUN cfg); cbn [negb world trace].
  - rewrite <- app_assoc. reflexivity.
  - destruct (remove_torrent sys (world st1) (id :: ids)) as [w [|]];
      cbn [fst snd]; rewrite <- app_assoc; reflexivity.
Qed.

Lemma process_torrent_skips (cfg : Config) (torrent : Torrent) (st : State sys) :
  is_candidate torrent = false ->
  process_torrent sys cfg torrent st = (st, Ok false).
Proof.
  unfold is_candidate, process_torrent.
  destruct (existsb _ TORRENT_COMPLETE_STATUS); [|reflexivity].
  destruct (get_video_files (files torrent)); [reflexivity|discriminate].
Qed.

Lemma collect_ids_candidates (cfg : Config) (torrents : list Torrent) :
  forall ids0 st,
  collect_ids sys cfg torrents ids0 st
  = collect_ids sys cfg (filter is_candidate torrents) ids0 st.
Proof.
  induction torrents as [|torrent rest IH]; intros ids0 st; [reflexivity|].
  cbn [filter]. destruct (is_candidate torrent) eqn:K.
  - cbn [collect_ids]. unfold bind at 1 3.
    destruct (process_torrent sys cfg torrent st) as [st1 [moved|e]];
      [|reflexivity].
    destruct (moved && is_finished torrent); [|apply IH].
    unfold bind, emit. apply IH.
  - cbn [collect_ids]. unfold bind at 1.
    rewrite (process_torrent_skips cfg torrent st K). cbn [andb]. apply IH.
Qed.

(** X16.  Torrents that are not seeding or stopped, and torrents without a
    video file, have no part in a run: the run is the same, event for
    event, without them.  A run over such torrents only, like a run that
    could not connect, does nothing and returns 0. *)
Theorem torrents_without_complete_video_are_ignored
  (cfg : Config) (torrents : list Torrent) (st : State sys) :
  main sys cfg (Some torrents) st
  = main sys cfg (Some (filter is_candidate torrents)) st
  /\ (forallb (fun torrent => negb (is_candidate torrent)) torrents = true ->
      main sys cfg (Some torrents) st = (st, Ok 0%Z))
  /\ main sys cfg None st = (st, Ok 0%Z).
Proof.
  assert (H : main sys cfg (Some torrents) st
              = main sys cfg (Some (filter is_candidate torrents)) st).
  { cbn [main]. unfold bind at 1 3. rewrite collect_ids_candidates. reflexivity. }
  split; [exact H|]. split; [|reflexivity].
  intros Hnone. rewrite H.
  assert (E : filter is_candidate torrents = []).
  { clear H. induction torrents as [|t l IH]; [reflexivity|].
    cbn [forallb] in Hnone. apply andb_true_iff in Hnone.
    destruct Hnone as [Ht Hl]. cbn [filter].
    destruct (is_candidate t); [discriminate|]. exact (IH Hl). }
  rewrite E. reflexivity.
Qed.

Lemma collect_ids_order (cfg : Config) (torrents : list Torrent) :
  forall (ids0 : list Z) (st st' : State sys) (ids : list Z),
  collect_ids sys cfg torrents ids0 st = (st', Ok ids) ->
  exists kept,
    subsequence kept torrents
    /\ ids = ids0 ++ map torrent_id kept
    /\ Forall (fun torrent => is_finished torrent = true
                              /\ is_candidate torrent = true) kept.
Proof.
  induction torrents as [|torrent rest IH]; intros ids0 st st' ids.
  - cbn. intros E; injection E as <- <-. exists [].
    rewrite app_nil_r. repeat split; constructor.
  - cbn [collect_ids]. unfold bind at 1.
    destruct (process_torrent sys cfg torrent st) as [st1 [moved|e]] eqn:P;
      [|discriminate].
    destruct (moved && is_finished torrent) eqn:B.
    + apply andb_true_iff in B. destruct B as [-> Fin].
      unfold bind, emit. intros E. apply IH in E.
      destruct E as [kept [S [-> F]]].
      exists (torrent :: kept). split; [constructor; exact S|].
      split; [cbn [map]; rewrite <- app_assoc; reflexivity|].
      constructor; [|exact F]. split; [exact Fin|].
      destruct (is_candidate torrent) eqn:K; [reflexivity|].
      rewrite (process_torrent_skips cfg torrent st K) in P. discriminate.
    + intros E. apply IH in E. destruct E as [kept [S [-> F]]].
      exists kept. split; [constructor; exact S|]. split; [reflexivity|exact F].
Qed.

Lemma subsequence_map {A B : Type} (f : A -> B) (l1 l2 : list A) :
  subsequence l1 l2 -> subsequence (map f l1) (map f l2).
Proof. induction 1; cbn [map]; constructor; assumption. Qed.

Lemma subsequence_In {A : Type} (l1 l2 : list A) (x : A) :
  subsequence l1 l2 -> In x l1 -> In x l2.
Proof.
  induction 1 as [|y l1 l2 S IH|y l1 l2 S IH]; cbn [In]; auto.
  intros [->|H]; auto.
Qed.

Lemma subsequence_NoDup {A : Type} (l1 l2 : list A) :
  subsequence l1 l2 -> NoDup l2 -> NoDup l1.
Proof.
  induction 1 as [|y l1 l2 S IH|y l1 l2 S IH]; intros ND.
  - constructor.
  - inversion ND; subst. apply IH. assumption.
  - inversion ND as [|? ? Hnot ND']; subst. constructor; [|apply IH; exact ND'].
    intros Hin. apply Hnot. exact (subsequence_In _ _ _ S Hin).
Qed.

(** X17.  The removal list names torrents in the order in which the client
    listed them: it is the list of the ids of the torrents with some left
    out, each torrent kept being finished, complete and with a video file.
    When the client's ids are distinct no id is listed twice. *)
Theorem removal_list_keeps_torrent_order
  (cfg : Config) (torrents : list Torrent) (st st' : State sys) (ids : list Z) :
  collect_ids sys cfg torrents [] st = (st', Ok ids) ->
  (exists kept,
     subsequence kept torrents
     /\ ids = map torrent_id kept
     /\ Forall (fun torrent => is_finished torrent = true
                               /\ is_candidate torrent = true) kept)
  /\ subsequence ids (map torrent_id torrents)
  /\ (NoDup (map torrent_id torrents) -> NoDup ids).
Proof.
  intros E. destruct (collect_ids_order cfg torrents [] st st' ids E)
    as [kept [S [-> F]]]. cbn [app].
  pose proof (subsequence_map torrent_id _ _ S) as Sm.
  split; [exists kept; repeat split; assumption|].
  split; [exact Sm|]. apply subsequence_NoDup. exact Sm.
Qed.

(** ** A movie and its sample *)

(** X18.  When the classifier finds a movie with sample, the two sizes
    differ and the relocation is that of the strictly larger file into the
    film directory: the smaller file is never copied. *)
Theorem movie_with_sample_relocates_the_larger_file
  (cfg : Config) (first second : File) (type_data : TypeData) :
  get_torrent_type cfg [first; second] = Ok (MOVIE_WITH_SAMPLE, type_data) ->
  let movie := if (size first <? size second)%N then second else first in
  let sample := if (size first <? size second)%N then first else second in
  (size sample < size movie)%N
  /\ relocate sys cfg [first; second] MOVIE_WITH_SAMPLE type_data
     = move_torrent_file sys cfg (name movie) (DIR_FILM cfg)
  /\ forall st st' r,
       relocate sys cfg [first; second] MOVIE_WITH_SAMPLE type_data st = (st', r) ->
       exists evs,
         trace st' = trace st ++ evs
         /\ Forall (fun e => is_mutation e = true ->
                             e = CallCopyfile (source_of cfg (name movie))
                                   (target_of cfg (name movie) (DIR_FILM cfg)))
                   evs.
Proof.
  intros C. cbv zeta.
  apply get_torrent_type_sample in C. destruct C as [S _].
  assert (Hne : size first <> size second).
  { intros E. exact (is_movie_with_sample_equal_sizes first second E S). }
  split; [|split].
  - destruct (N.ltb_spec (size first) (size second)); lia.
  - reflexivity.
  - intros st st' r. cbn [relocate]. apply move_torrent_file_emits.
Qed.

(** ** Two files of one base name *)

(** X19.  The target of a relocation is the target directory followed by
    the base name of the file, whatever directories the name of the file
    holds.  So in a world where a copy that returns leaves its target in
    place, once a file has been relocated into a directory a second file of
    the same base name is never copied there: it is reported as already
    existing, and as moved. *)
Theorem same_base_name_is_copied_once
  (cfg : Config) (file1 file2 target_dir : str) (st st1 : State sys) :
  (forall w source target,
     snd (copyfile sys w source target) = true ->
     path_exists sys (fst (copyfile sys w source target)) target = true) ->
  Path.basename file1 = Path.basename file2 ->
  DRY_RUN cfg = false ->
  move_torrent_file sys cfg file1 target_dir st = (st1, Ok true) ->
  target_of cfg file1 target_dir
  = with_slash target_dir ++ Path.basename file1
  /\ move_torrent_file sys cfg file2 target_dir st1
     = ({| world := world st1;
           trace := trace st1
                    ++ [LogAlreadyExists (target_of cfg file1 target_dir)] |},
        Ok true).
Proof.
  intros Hcopy Hbase Hdry Hfirst. split.
  - unfold target_of. apply join_relative, sep_free_relative, basename_no_sep.
  - assert (Ht : target_of cfg file2 target_dir = target_of cfg file1 target_dir)
      by (unfold target_of; rewrite Hbase; reflexivity).
    assert (Hex : path_exists sys (world st1) (target_of cfg file1 target_dir) = true).
    { rewrite move_torrent_file_cases in Hfirst. cbv zeta in Hfirst.
      rewrite Hdry in Hfirst.
      destruct (path_exists sys (world st) (target_of cfg file1 target_dir)) eqn:X.
      - injection Hfirst as <-. exact X.
      - destruct (snd (copyfile sys (world st) _ _)) eqn:Y; [|discriminate].
        injection Hfirst as <-. cbn [world]. apply Hcopy. exact Y. }
    rewrite move_torrent_file_cases. cbv zeta. rewrite Ht, Hex. reflexivity.
Qed.

End JobFacts.

(** ** A series is moved when every episode is *)

Section SeriesFacts.

Variable sys : System.

Lemma attempts_app (a b : list Event) : attempts (a ++ b) = attempts a + attempts b.
Proof. unfold attempts. rewrite filter_app, length_app. reflexivity. Qed.

Lemma move_torrent_file_attempt (cfg : Config) (source_file target_dir : str)
  (st st' : State sys) (r : result bool) :
  move_torrent_file sys cfg source_file target_dir st = (st', r) ->
  exists evs,
    trace st' = trace st ++ evs /\ attempts evs = 1
    /\ ((r = Ok true /\ quiet evs)
        \/ (r = Ok false /\ exists evs0 target, evs = evs0 ++ [LogErrorMoving target])).
Proof.
  rewrite move_torrent_file_cases. cbv zeta.
  destruct (path_exists sys (world st) _);
    [|destruct (DRY_RUN cfg);
      [|destruct (snd (copyfile sys (world st) _ _))]];
    intros E; injection E as <- <-; cbn [trace];
    eexists; (split; [reflexivity|]); (split; [reflexivity|]).
  - left. split; reflexivity.
  - left. split; reflexivity.
  - left. split; reflexivity.
  - right. split; [reflexivity|].
    eexists [_; _], _. reflexivity.
Qed.

Lemma get_season_dir_no_attempt (cfg : Config) (series_name_ season_num_ : str)
  (st st' : State sys) (r : result str) :
  get_season_dir sys cfg series_name_ season_num_ st = (st', r) ->
  exists evs, trace st' = trace st ++ evs /\ attempts evs = 0 /\ quiet evs.
Proof.
  rewrite get_season_dir_cases. cbv zeta.
  destruct (path_exists sys (world st) _); [|destruct (DRY_RUN cfg)];
    intros E; injection E as <- <-; cbn [trace].
  - exists []. rewrite app_nil_r. repeat split.
  - eexists. repeat split.
  - eexists. repeat split.
Qed.

Lemma move_episodes_attempts (cfg : Config) (episodes : list EpisodeData) :
  forall (moved : bool) (st st' : State sys) (moved' broke : bool),
  move_episodes sys cfg episodes moved st = (st', Ok (moved', broke)) ->
  exists evs,
    trace st' = trace st ++ evs
    /\ if broke
       then moved' = false
            /\ exists evs0 target, evs = evs0 ++ [LogErrorMoving target]
       else attempts evs = List.length episodes /\ quiet evs
            /\ moved' = match episodes with [] => moved | _ :: _ => true end.
Proof.
  induction episodes as [|e rest IH]; intros moved st st' moved' broke.
  - cbn. intros E; injection E as <- <- <-. exists [].
    rewrite app_nil_r. repeat split.
  - rewrite move_episodes_cons.
    destruct (get_season_dir sys cfg _ _ st) as [st1 [dir|x]] eqn:D;
      [|discriminate].
    destruct (get_season_dir_no_attempt _ _ _ _ _ _ D) as [evs1 [T1 [A1 Q1]]].
    destruct (move_torrent_file sys cfg _ dir st1) as [st2 [[|]|x]] eqn:Mv;
      [| |discriminate].
    + destruct (move_torrent_file_attempt _ _ _ _ _ _ Mv)
        as [evs2 [T2 [A2 [[_ Q2]|[X _]]]]]; [|discriminate].
      intros E. destruct (IH _ _ _ _ _ E) as [evs3 [T3 H3]].
      exists (evs1 ++ evs2 ++ evs3). split.
      * rewrite T3, T2, T1, <- !app_assoc. reflexivity.
      * destruct broke.
        -- destruct H3 as [-> [evs0 [target ->]]]. split; [reflexivity|].
           exists (evs1 ++ evs2 ++ evs0), target. rewrite <- !app_assoc. reflexivity.
        -- destruct H3 as [A3 [Q3 M3]]. rewrite !attempts_app, A1, A2, A3.
           split; [reflexivity|]. split.
           ++ apply quiet_app; [exact Q1|apply quiet_app; assumption].
           ++ destruct rest; exact M3.
    + destruct (move_torrent_file_attempt _ _ _ _ _ _ Mv)
        as [evs2 [T2 [A2 [[X _]|[_ [evs0 [target ->]]]]]]]; [discriminate|].
      intros E. injection E as <- <- <-.
      exists (evs1 ++ evs0 ++ [LogErrorMoving target]). split.
      * rewrite T2, T1, <- !app_assoc. reflexivity.
      * split; [reflexivity|]. exists (evs1 ++ evs0), target.
        rewrite <- !app_assoc. reflexivity.
Qed.

Lemma move_seasons_attempts (cfg : Config) (seasons_ : Seasons) :
  forall (moved : bool) (st st' : State sys) (moved' : bool),
  move_seasons sys cfg seasons_ moved st = (st', Ok moved') ->
  exists evs,
    trace st' = trace st ++ evs
    /\ ((attempts evs = List.length (List.concat (map snd seasons_))
         /\ quiet evs
         /\ moved' = match List.concat (map snd seasons_) with
                     | [] => moved
                     | _ :: _ => true
                     end)
        \/ (moved' = false
            /\ exists evs0 target, evs = evs0 ++ [LogErrorMoving target])).
Proof.
  induction seasons_ as [|[key bucket] rest IH]; intros moved st st' moved'.
  - cbn. intros E; injection E as <- <-. exists []. rewrite app_nil_r.
    split; [reflexivity|]. left. repeat split.
  - rewrite move_seasons_cons.
    destruct (move_episodes sys cfg bucket moved st) as [st1 [[m1 broke]|x]] eqn:Ep;
      [|discriminate].
    destruct (move_episodes_attempts _ _ _ _ _ _ _ Ep) as [evs1 [T1 H1]].
    destruct broke.
    + intros E; injection E as <- <-. exists evs1. split; [exact T1|].
      right. exact H1.
    + destruct H1 as [A1 [Q1 M1]]. intros E.
      destruct (IH _ _ _ _ E) as [evs2 [T2 H2]].
      exists (evs1 ++ evs2). split; [rewrite T2, T1, <- app_assoc; reflexivity|].
      destruct H2 as [[A2 [Q2 M2]]|[-> [evs0 [target ->]]]].
      * left. cbn [map snd List.concat]. rewrite attempts_app, length_app, A1, A2.
        split; [reflexivity|]. split; [apply quiet_app; assumption|].
        rewrite M2, M1. destruct bucket; [reflexivity|].
        cbn [app]. destruct (List.concat (map snd rest)); reflexivity.
      * right. split; [reflexivity|]. exists (evs1 ++ evs0), target.
        rewrite <- app_assoc. reflexivity.
Qed.

Lemma quiet_no_final_error (evs0 : list Event) (target : str) :
  ~ quiet (evs0 ++ [LogErrorMoving target]).
Proof.
  unfold quiet. rewrite forallb_app. cbn. rewrite andb_false_r. discriminate.
Qed.

(** X22.  A season or a series is reported as moved exactly when every one
    of its video files was attempted, in turn, and no attempt failed: there
    are then as many relocation attempts as video files and no "Error
    moving" line.  It is reported as not moved exactly when an attempt
    failed, and the failure is then the last thing done.  So the value of
    [moved], though overwritten by each attempt, stands for all of them. *)
Theorem series_is_moved_when_every_episode_is
  (cfg : Config) (video_files : list File) (torrent_type : TorrentType)
  (data : SeriesData) (st st' : State sys) (moved : bool) :
  get_torrent_type cfg video_files = Ok (torrent_type, SeriesInfo data) ->
  relocate sys cfg video_files torrent_type (SeriesInfo data) st = (st', Ok moved) ->
  exists evs,
    trace st' = trace st ++ evs
    /\ (moved = true <->
        attempts evs = List.length video_files /\ quiet evs)
    /\ (moved = false <->
        exists evs0 target, evs = evs0 ++ [LogErrorMoving target]).
Proof.
  intros C R.
  pose proof (proj1 (get_torrent_type_cases cfg video_files) _ _ C) as H.
  assert (Hs : get_series_data cfg video_files = Ok (Some data)
               /\ relocate sys cfg video_files torrent_type (SeriesInfo data)
                  = move_seasons sys cfg (seasons data) false).
  { destruct torrent_type; cbn in H.
    - destruct H as [H _]; discriminate.
    - destruct H as [H _]; discriminate.
    - destruct H as [H _]; discriminate.
    - destruct H as [f [d [_ [_ H]]]]; discriminate.
    - destruct H as [d [E [D _]]]. injection E as <-. split; [exact D|reflexivity].
    - destruct H as [d [E [D _]]]. injection E as <-. split; [exact D|reflexivity]. }
  destruct Hs as [D Hr]. rewrite Hr in R.
  destruct (move_seasons_attempts _ _ _ _ _ _ R) as [evs [T Hm]].
  assert (Htotal : List.length (List.concat (map snd (seasons data)))
                   = List.length video_files /\ video_files <> []).
  { apply get_series_data_success in D.
    destruct D as [first [rest [P [_ ->]]]]. cbn [seasons].
    destruct (group_by_season_facts (first :: rest)) as [_ [_ [_ Hl]]].
    destruct (parse_all_facts cfg video_files _ P) as [L _].
    split; [rewrite Hl; exact L|].
    intros ->. discriminate. }
  destruct Htotal as [Htotal Hne].
  exists evs. split; [exact T|].
  destruct Hm as [[A [Q M]]|[-> [evs0 [target ->]]]].
  - assert (Mt : moved = true).
    { rewrite M. destruct (List.concat (map snd (seasons data))) eqn:X;
        [|reflexivity].
      exfalso. cbn in Htotal.
      destruct video_files; [contradiction|discriminate]. }
    clear M. rewrite Mt. split.
    + split; [intros _; split; [rewrite A; exact Htotal|exact Q]|reflexivity].
    + split; [discriminate|]. intros [evs0 [target ->]].
      exfalso. exact (quiet_no_final_error _ _ Q).
  - split.
    + split; [discriminate|]. intros [_ Q].
      exfalso. exact (quiet_no_final_error _ _ Q).
    + split; [intros _; eauto|reflexivity].
Qed.

End SeriesFacts.

(** ** Loading the configuration *)

Module LoaderFacts.

Import Loader.

Lemma subscript_present (items : list (Value * Value)) (key : str) :
  holds (VDict items) key = true ->
  exists v, subscript (VDict items) key = inl v.
Proof.
  unfold holds, contains, subscript. intros H.
  destruct (find (fun item => is_str key (fst item)) items) as [item|] eqn:F.
  - exists (snd item). reflexivity.
  - apply existsb_exists in H. destruct H as [item [Hin Hk]].
    pose proof (find_none _ _ F item Hin) as N. cbv beta in N. congruence.
Qed.

Lemma subscript_absent (items : list (Value * Value)) (key : str) :
  holds (VDict items) key = false ->
  subscript (VDict items) key = inr PyKeyError.
Proof.
  unfold holds, contains, subscript. intros H.
  destruct (find (fun item => is_str key (fst item)) items) as [item|] eqn:F;
    [|reflexivity].
  apply find_some in F. destruct F as [Hin Hk].
  assert (X : existsb (fun item => is_str key (fst item)) items = true)
    by (apply existsb_exists; exists item; split; assumption).
  congruence.
Qed.

(** One guarded assignment, in terms of what the configuration holds. *)
Lemma load_key_cases (config : Value) (section key : str) (which : Setting)
  (g : Settings) :
  load_key config section key which g
  = match subscript config section with
    | inr exn => (g, Some exn)
    | inl table =>
        match contains table key with
        | inr exn => (g, Some exn)
        | inl false => (g, None)
        | inl true =>
            match subscript table key with
            | inl v => (assign which v g, None)
            | inr exn => (g, Some exn)
            end
        end
    end.
Proof.
  unfold load_key, eval, skip.
  destruct (subscript config section) as [table|exn]; [|reflexivity].
  destruct (contains table key) as [[|]|exn]; reflexivity.
Qed.

Lemma load_key_loadable (config table : Value) (section key : str)
  (keys : list str) (which : Setting) (g : Settings) :
  subscript config section = inl table ->
  loadable table keys = true -> In key keys ->
  load_key config section key which g
  = (match lookup config section key with
     | Some v => assign which v g
     | None => g
     end, None).
Proof.
  intros S L Hin. rewrite load_key_cases. unfold lookup. rewrite S.
  destruct table as [| | | |s|items|items|items]; try discriminate.
  - cbn [loadable] in L. rewrite forallb_forall in L. specialize (L key Hin).
    unfold holds in L. cbn [contains] in *.
    destruct (is_substring key s); [discriminate|reflexivity].
  - cbn [loadable] in L. rewrite forallb_forall in L. specialize (L key Hin).
    unfold holds in L. cbn [contains] in *.
    destruct (existsb (is_str key) items); [discriminate|reflexivity].
  - cbn [loadable] in L. rewrite forallb_forall in L. specialize (L key Hin).
    unfold holds in L. cbn [contains] in *.
    destruct (existsb (is_str key) items); [discriminate|reflexivity].
  - destruct (holds (VDict items) key) eqn:H.
    + destruct (subscript_present items key H) as [v Hv].
      unfold holds in H. destruct (contains (VDict items) key) as [[|]|];
        try discriminate. rewrite Hv. reflexivity.
    + unfold holds in H. cbn [contains] in *. rewrite H. reflexivity.
Qed.

Lemma apply_keys_absent (config : Value) (section : str)
  (keys : list (str * Setting)) :
  (forall key, lookup config section key = None) ->
  forall g, apply_keys config section keys g = g.
Proof.
  intros H. unfold apply_keys.
  induction keys as [|key keys IH]; intros g; [reflexivity|].
  cbn [fold_left].
  replace (apply_key config section g key) with g
    by (unfold apply_key; rewrite H; reflexivity).
  apply IH.
Qed.

Lemma load_keys_dict (config : Value) (section : str) (items : list (Value * Value))
  (keys : list (str * Setting)) :
  subscript config section = inl (VDict items) ->
  forall g, load_keys config section keys g
            = (apply_keys config section keys g, None).
Proof.
  intros S. unfold load_keys, apply_keys.
  induction keys as [|[key which] keys IH]; intros g; [reflexivity|].
  cbn [fold_right fold_left fst snd]. unfold seq at 1.
  rewrite (load_key_loadable config (VDict items) section key [key] which g S
             eq_refl (or_introl eq_refl)).
  apply IH.
Qed.

Lemma load_keys_searchable (config table : Value) (section : str)
  (keys : list (str * Setting)) :
  subscript config section = inl table ->
  searchable table = true ->
  forall g,
    if loadable table (map fst keys)
    then load_keys config section keys g = (apply_keys config section keys g, None)
    else snd (load_keys config section keys g) = Some PyTypeError.
Proof.
  intros S K. unfold load_keys, apply_keys.
  induction keys as [|[key which] keys IH]; intros g.
  - destruct table; try discriminate; reflexivity.
  - cbn [fold_right fold_left fst snd map].
    assert (Hl : loadable table (key :: map fst keys)
                 = negb (holds table key) && loadable table (map fst keys))
      by (destruct table; try discriminate; reflexivity).
    rewrite Hl. destruct (holds table key) eqn:H; cbn [negb andb].
    + unfold seq at 1. rewrite load_key_cases, S. unfold holds in H.
      destruct (contains table key) as [[|]|]; try discriminate.
      destruct table; try discriminate; reflexivity.
    + assert (E : load_key config section key which g = (g, None)).
      { rewrite load_key_cases, S. unfold holds in H.
        destruct table; try discriminate; cbn [contains] in *; rewrite H;
          reflexivity. }
      assert (Ek : lookup config section key = None).
      { unfold lookup. rewrite S. unfold holds in H.
        destruct table; try discriminate; cbn [contains] in *; rewrite H;
          reflexivity. }
      assert (Ea : apply_key config section g (key, which) = g)
        by (unfold apply_key; cbn [fst]; rewrite Ek; reflexivity).
      specialize (IH g).
      destruct (loadable table (map fst keys)); unfold seq; rewrite E, ?Ea;
        exact IH.
Qed.

Lemma load_keys_scalar (config table : Value) (section : str)
  (key : str * Setting) (keys : list (str * Setting)) (g : Settings) :
  subscript config section = inl table ->
  loadable table [] = false ->
  load_keys config section (key :: keys) g = (g, Some PyTypeError).
Proof.
  intros S K. unfold load_keys. cbn [fold_right]. unfold seq.
  rewrite load_key_cases, S.
  destruct table; try discriminate; reflexivity.
Qed.

Lemma lookup_absent (config : Value) (section : str) :
  contains config section = inl false ->
  forall key, lookup config section key = None.
Proof.
  intros C key. unfold lookup.
  destruct config as [| | | |s|items|items|items]; try reflexivity.
  rewrite (subscript_absent items section); [reflexivity|].
  unfold holds. rewrite C. reflexivity.
Qed.

(** One section: either its assignments are made, or [TypeError] is
    raised. *)
Lemma load_section_cases (config : Value) (section : str)
  (key : str * Setting) (keys : list (str * Setting)) (g : Settings) :
  if section_ok config section (map fst (key :: keys))
  then load_section config section (key :: keys) g
       = (apply_keys config section (key :: keys) g, None)
  else snd (load_section config section (key :: keys) g) = Some PyTypeError.
Proof.
  unfold section_ok, load_section, eval.
  destruct (contains config section) as [[|]|exn] eqn:C.
  - destruct (subscript config section) as [table|exn] eqn:S.
    + destruct table as [| | | |s|items|items|items];
        try (cbn [loadable];
             rewrite (load_keys_scalar config _ section key keys g S eq_refl);
             reflexivity).
      * exact (load_keys_searchable config _ section (key :: keys) S eq_refl g).
      * exact (load_keys_searchable config _ section (key :: keys) S eq_refl g).
      * exact (load_keys_searchable config _ section (key :: keys) S eq_refl g).
      * exact (load_keys_dict config section items (key :: keys) S g).
    + unfold load_keys. cbn [fold_right]. unfold seq.
      rewrite load_key_cases, S.
      destruct config as [| | | |s|items|items|items];
        try discriminate; try (injection S as <-; reflexivity).
      destruct (subscript_present items section) as [v Hv];
        [unfold holds; rewrite C; reflexivity|congruence].
  - rewrite apply_keys_absent by (apply lookup_absent; exact C). reflexivity.
  - destruct config; try discriminate; injection C as <-; reflexivity.
Qed.

Lemma load_section_raises (config : Value) (section : str)
  (keys : list (str * Setting)) (g : Settings) (exn : PyExn) :
  snd (load_section config section keys g) = Some exn -> exn = PyTypeError.
Proof.
  destruct keys as [|key keys].
  - unfold load_section, eval, load_keys.
    destruct (contains config section) as [[|]|x] eqn:C; cbn; try discriminate.
    intros E. injection E as <-.
    destruct config; try discriminate; injection C as <-; reflexivity.
  - pose proof (load_section_cases config section key keys g) as H.
    destruct (section_ok config section (map fst (key :: keys))).
    + rewrite H. discriminate.
    + rewrite H. intros E. injection E as <-. reflexivity.
Qed.

Lemma load_config_cases (config : Value) (g : Settings) :
  if well_formed config
  then load_config (Some config) g = (overridden config g, None)
  else snd (load_config (Some config) g) = Some PyTypeError.
Proof.
  unfold well_formed, load_config, overridden, SECTIONS.
  cbn [forallb fold_right fold_left fst snd].
  repeat match goal with
  | |- context [section_ok config ?s (map fst (?k :: ?ks))] =>
      let H := fresh "H" in
      pose proof (fun g => load_section_cases config s k ks g) as H;
      destruct (section_ok config s (map fst (k :: ks)));
      cbn [andb]
  end;
  unfold seq, skip;
  repeat match goal with
  | H : forall g, load_section _ _ _ g = _ |- _ => rewrite H; clear H
  end;
  try reflexivity;
  match goal with
  | H : forall g, snd (load_section _ _ _ g) = _ |- _ =>
      let X := fresh "X" in
      match goal with
      | |- context [load_section ?c ?s ?ks ?g0] =>
          pose proof (H g0) as X;
          destruct (load_section c s ks g0) as [g1 [e1|]];
          cbn [snd] in X; [exact X || (injection X as ->; reflexivity)|discriminate]
      end
  end.
Qed.

Lemma get_assign (w w' : Setting) (v : Value) (g : Settings) :
  get w (assign w' v g) = if setting_eqb w w' then v else get w g.
Proof. destruct w, w'; reflexivity. Qed.

Lemma get_apply_key (config : Value) (section key : str) (w w' : Setting)
  (g : Settings) :
  get w (apply_key config section g (key, w'))
  = if setting_eqb w w'
    then match lookup config section key with
         | Some v => v
         | None => get w g
         end
    else get w g.
Proof.
  unfold apply_key. cbn [fst snd].
  destruct (lookup config section key) as [v|].
  - apply get_assign.
  - destruct (setting_eqb w w'); reflexivity.
Qed.

Lemma overridden_get (config : Value) (g : Settings)
  (section : str) (keys : list (str * Setting)) (key : str) (which : Setting) :
  In (section, keys) SECTIONS -> In (key, which) keys ->
  get which (overridden config g)
  = match lookup config section key with
    | Some v => v
    | None => get which g
    end.
Proof.
  unfold SECTIONS. intros [E|[E|[E|[]]]]; injection E as <- <-;
    cbn [In]; intros Hk;
    repeat (destruct Hk as [E|Hk]; [injection E as <- <-|]);
    try contradiction;
    unfold overridden, apply_keys, SECTIONS; cbn [fold_left fst snd];
    rewrite !get_apply_key; reflexivity.
Qed.

Lemma setting_has_key (which : Setting) :
  exists section keys key,
    In (section, keys) SECTIONS /\ In (key, which) keys.
Proof.
  unfold SECTIONS.
  destruct which; do 3 eexists; cbn [In];
    first
      [ solve [split; [left; reflexivity
                      |solve [repeat first [left; reflexivity | right]]]]
      | solve [split; [right; left; reflexivity
                      |solve [repeat first [left; reflexivity | right]]]]
      | solve [split; [right; right; left; reflexivity
                      |solve [repeat first [left; reflexivity | right]]]] ].
Qed.

Lemma settings_ext (g1 g2 : Settings) :
  (forall which, get which g1 = get which g2) -> g1 = g2.
Proof.
  intros H. destruct g1, g2.
  pose proof (H SetHost). pose proof (H SetPort). pose proof (H SetUser).
  pose proof (H SetPass). pose proof (H SetDownload). pose proof (H SetFilm).
  pose proof (H SetSeries). pose proof (H SetSeasonPrefix).
  pose proof (H SetStripChars). cbn in *. congruence.
Qed.

Lemma overridden_idempotent (config : Value) (g : Settings) :
  overridden config (overridden config g) = overridden config g.
Proof.
  apply settings_ext. intros which.
  destruct (setting_has_key which) as [section [keys [key [Hs Hk]]]].
  rewrite (overridden_get config (overridden config g) _ _ _ _ Hs Hk).
  rewrite (overridden_get config g _ _ _ _ Hs Hk).
  destruct (lookup config section key); reflexivity.
Qed.

(** X20.  On a configuration in which each of the three sections can be
    looked for, and each section found is a table that can be searched for
    its keys, [load_config] returns normally and each of the nine settings
    is the value found at its section and key, or keeps its value when
    nothing is found there; anything else in the configuration is ignored.
    Loading the same configuration again changes nothing, and without a
    configuration file the settings stay as they are: with the values the
    script defines, the rest of the program runs on the default
    configuration. *)
Theorem load_config_overrides_key_by_key (config : Value) (g : Settings) :
  well_formed config = true ->
  (exists g', load_config (Some config) g = (g', None)
     /\ (forall section keys key which,
           In (section, keys) SECTIONS -> In (key, which) keys ->
           get which g' = match lookup config section key with
                          | Some v => v
                          | None => get which g
                          end)
     /\ load_config (Some config) g' = (g', None))
  /\ load_config None g = (g, None)
  /\ forall SCRIPT_PATH dry_run,
       to_config (defaults SCRIPT_PATH) dry_run
       = Some (with_dry_run dry_run (default_config SCRIPT_PATH)).
Proof.
  intros W. split; [|split; reflexivity].
  pose proof (load_config_cases config) as H. rewrite W in H.
  exists (overridden config g). split; [apply H|]. split.
  - intros section keys key which. apply overridden_get.
  - rewrite H, overridden_idempotent. reflexivity.
Qed.

(** X21.  [load_config] raises nothing but [TypeError], and raises it
    exactly when the configuration is not of the shape above.  So it raises
    on an empty configuration file, for which [yaml.safe_load] returns
    [None], before any setting is changed, and on a section written
    without entries. *)
Theorem load_config_raises_type_error (config : Value) (g : Settings) :
  (snd (load_config (Some config) g) = None <-> well_formed config = true)
  /\ (forall exn, snd (load_config (Some config) g) = Some exn ->
        exn = PyTypeError)
  /\ (is_scalar config = true ->
      load_config (Some config) g = (g, Some PyTypeError))
  /\ (forall section keys table,
        In (section, keys) SECTIONS ->
        holds config section = true ->
        subscript config section = inl table ->
        is_scalar table = true ->
        snd (load_config (Some config) g) = Some PyTypeError).
Proof.
  pose proof (load_config_cases config g) as H.
  split; [|split; [|split]].
  - destruct (well_formed config).
    + rewrite H. split; reflexivity.
    + rewrite H. split; discriminate.
  - intros exn. destruct (well_formed config).
    + rewrite H. discriminate.
    + rewrite H. intros E. injection E as <-. reflexivity.
  - intros S. destruct config; try discriminate; reflexivity.
  - intros section keys table Hin Hh S T.
    assert (W : well_formed config = false).
    { unfold well_formed. destruct (forallb _ SECTIONS) eqn:F; [|reflexivity].
      rewrite forallb_forall in F. specialize (F _ Hin). cbn [fst snd] in F.
      unfold section_ok in F. unfold holds in Hh.
      destruct (contains config section) as [[|]|]; try discriminate.
      rewrite S in F.
      destruct table; try discriminate. }
    rewrite W in H. exact H.
Qed.

End LoaderFacts.

(* ================================================================= *)
(** * Runs of the model on concrete inputs *)

Module Examples.

Import Sim Scenario.

(** C1 as stated fails: two files, neither matching a pattern, of sizes 100
    and 1000 are a movie with sample, not unknown. *)
Lemma unmatched_files_can_be_movie_with_sample :
  ~ (forall (cfg : Config) (video_files : list File),
       2 <= List.length video_files ->
       (exists f, In f video_files /\ get_episode_data cfg (name f) = None) ->
       exists type_data,
         get_torrent_type cfg video_files = Ok (UNKNOWN, type_data)).
Proof.
  intros claim.
  destruct (claim cfg sample_job) as [type_data E].
  - cbn. lia.
  - exists (file "sample.mkv" 100). split; [left; reflexivity|].
    vm_compute. reflexivity.
  - vm_compute in E. discriminate.
Qed.

Lemma unmatched_file_never_grouped_witness :
  (is_movie_with_sample sample_job = Ok true ->
   get_torrent_type cfg sample_job = Ok (MOVIE_WITH_SAMPLE, NoData))
  /\ (is_movie_with_sample sample_job = Ok false ->
      forall torrent_type type_data,
        get_torrent_type cfg sample_job = Ok (torrent_type, type_data) ->
        torrent_type = UNKNOWN /\ type_data = NoData).
Proof.
  apply unmatched_file_never_grouped.
  - cbn. lia.
  - exists (file "sample.mkv" 100). split; [left; reflexivity|].
    vm_compute. reflexivity.
Defined.

(** Outside the sample case, the first file that matches no pattern makes
    [get_series_data] subscript [False]: the classifier raises. *)
Example unmatched_files_raise :
  get_torrent_type cfg [file "a.mkv" 100; file "b.mkv" 100] = Raise TypeError.
Proof. vm_compute. reflexivity. Qed.

(** ... unless two different show names come first. *)
Example unmatched_after_mismatch_is_unknown :
  get_torrent_type cfg
    [file "A.S01E01.mkv" 100; file "B.S01E02.mkv" 100; file "c.mkv" 100]
  = Ok (UNKNOWN, NoData).
Proof. vm_compute. reflexivity. Qed.

(** C3 as stated fails: with a one-digit episode no pattern matches. *)
Lemma one_digit_episode_is_not_matched :
  ~ (forall (cfg : Config) (file pre sd ed post : str) (cS cE : ascii),
       Path.basename file = pre ++ cS :: sd ++ cE :: ed ++ post ->
       is_S cS = true -> is_E cE = true ->
       forallb is_digit sd = true -> 1 <= List.length sd <= 2 ->
       forallb is_digit ed = true -> 1 <= List.length ed <= 2 ->
       exists d, get_episode_data cfg file = Some d).
Proof.
  intros claim.
  destruct (claim cfg (of_string "Show.S3E7.mkv") (of_string "Show.")
              (of_string "3") (of_string "7") (of_string ".mkv")
              "S"%char "E"%char) as [d E];
    try reflexivity; try (cbn; lia).
  vm_compute in E. discriminate.
Qed.

Lemma SxxEyy_marker_gives_two_digit_numbers_witness :
  exists d,
    get_episode_data cfg (of_string "Show.S3E07.mkv") = Some d
    /\ filename d = of_string "Show.S3E07.mkv"
    /\ List.length (season_num d) = 2 /\ forallb is_digit (season_num d) = true
    /\ List.length (episode_num d) = 2 /\ forallb is_digit (episode_num d) = true
    /\ ((forall before after, of_string "Show." = before ++ after -> after <> [] ->
           starts_with_SxxEyy
             (after ++ "S"%char :: of_string "3" ++ "E"%char
                    :: of_string "07" ++ of_string ".mkv") = false) ->
        season_num d = zero_pad2 (of_string "3")
        /\ episode_num d = of_string "07").
Proof.
  apply (SxxEyy_marker_gives_two_digit_numbers cfg (of_string "Show.S3E07.mkv")
           (of_string "Show.") (of_string "3") (of_string "07")
           (of_string ".mkv") "S"%char "E"%char);
    try reflexivity; cbn; lia.
Defined.

(** The example of the specification. *)
Example Show_S3E07 :
  option_map (fun d => (series_name d, season_num d, episode_num d))
             (get_episode_data cfg (of_string "Show.S3E07.mkv"))
  = Some (of_string "Show", of_string "03", of_string "07").
Proof. vm_compute. reflexivity. Qed.

(** C5 as stated fails: a name that starts with its marker has an empty
    show name. *)
Lemma show_name_can_be_empty :
  ~ (forall (cfg : Config) (file : str) (d : EpisodeData),
       get_episode_data cfg file = Some d ->
       strip (STRIP_CHARS cfg) (series_name d) <> []).
Proof.
  intros claim.
  apply (claim cfg (of_string "S01E02.mkv")
           {| series_name := []; season_num := of_string "01";
              episode_num := of_string "02";
              filename := of_string "S01E02.mkv" |});
    vm_compute; reflexivity.
Qed.

Lemma show_name_is_stripped_witness :
  let d := {| series_name := of_string "Show"; season_num := of_string "03";
              episode_num := of_string "07";
              filename := of_string "Show.S3E07.mkv" |} in
  (forall c rest, series_name d = c :: rest -> mem c (STRIP_CHARS cfg) = false)
  /\ (forall init c, series_name d = init ++ [c] ->
      mem c (STRIP_CHARS cfg) = false)
  /\ exists pat group1 others,
       In pat SERIES_PATTERNS
       /\ Re.search pat (Path.basename (of_string "Show.S3E07.mkv"))
          = Some (group1 :: others)
       /\ series_name d = strip (STRIP_CHARS cfg) group1
       /\ (series_name d = [] <->
           forallb (fun c => mem c (STRIP_CHARS cfg)) group1 = true).
Proof.
  apply (show_name_is_stripped cfg (of_string "Show.S3E07.mkv")).
  vm_compute. reflexivity.
Defined.


Example equal_sizes_are_not_a_movie_with_sample :
  is_movie_with_sample [file "a.mkv" 1000; file "b.mkv" 1000] = Ok false.
Proof. vm_compute. reflexivity. Qed.

Lemma removal_list_sound_witness :
  (forall id, In id [7%Z] ->
     exists torrent st1 st2,
       In torrent [show_torrent] /\ torrent_id torrent = id
       /\ is_finished torrent = true
       /\ In (status torrent) TORRENT_COMPLETE_STATUS
       /\ get_video_files (files torrent) <> []
       /\ (exists torrent_type type_data,
             get_torrent_type cfg (get_video_files (files torrent))
               = Ok (torrent_type, type_data)
             /\ torrent_type <> UNKNOWN)
       /\ process_torrent sys cfg torrent st1 = (st2, Ok true)
       /\ last_attempt_succeeded sys cfg st2)
  /\ (NoDup (map torrent_id [show_torrent]) ->
      forall torrent, In torrent [show_torrent] ->
        is_finished torrent = false
        \/ get_video_files (files torrent) = []
        \/ (exists type_data,
              get_torrent_type cfg (get_video_files (files torrent))
                = Ok (UNKNOWN, type_data)) ->
        ~ In (torrent_id torrent) [7%Z]).
Proof.
  apply (removal_list_sound sys cfg [show_torrent] complete_disk
           (fst after_complete_run)).
  vm_compute. reflexivity.
Defined.

Lemma season_relocation_stops_at_first_failure_witness :
  exists evs,
    trace (fst after_failed_run) = trace incomplete_disk ++ evs /\
    forall before target after,
      evs = before ++ LogErrorMoving target :: after -> after = [].
Proof.
  apply (season_relocation_stops_at_first_failure sys cfg
           (get_video_files (files show_torrent)) SERIES show_data
           incomplete_disk (fst after_failed_run) (snd after_failed_run)).
  - right. reflexivity.
  - vm_compute. reflexivity.
Defined.

(** In that run the second episode fails and the second season is never
    touched. *)
Example failed_run_trace :
  snd after_failed_run = Ok false
  /\ filter is_mutation (trace (fst after_failed_run))
     = [CallMakedirs (of_string "/srv/series/Show/s01");
        CallCopyfile (of_string "/srv/downloads/Show/Show.S01E01.mkv")
                     (of_string "/srv/series/Show/s01/Show.S01E01.mkv");
        CallCopyfile (of_string "/srv/downloads/Show/Show.S01E02.mkv")
                     (of_string "/srv/series/Show/s01/Show.S01E02.mkv")].
Proof. vm_compute. split; reflexivity. Qed.

Lemma move_torrent_file_already_there_witness :
  move_torrent_file sys cfg (of_string "film.mkv") (DIR_FILM cfg) already_placed =
    ({| world := world already_placed;
        trace := trace already_placed
                 ++ [LogAlreadyExists
                       (Path.join (DIR_FILM cfg)
                          (Path.basename (of_string "film.mkv")))] |},
     Ok true).
Proof.
  apply (move_torrent_file_already_there sys cfg (of_string "film.mkv")
           (DIR_FILM cfg) already_placed).
  vm_compute. reflexivity.
Defined.

(** C9 as stated fails: when the copy fails, the flag of the real run is
    [False] and the flag of the dry run is [True]. *)
Lemma dry_run_flag_differs :
  ~ (forall (sys : System) (cfg : Config) (source_file target_dir : str)
            (st : State sys),
       snd (move_torrent_file sys (with_dry_run true cfg) source_file target_dir st)
       = snd (move_torrent_file sys (with_dry_run false cfg) source_file target_dir st)).
Proof.
  intros claim.
  specialize (claim sys cfg (of_string "Show/Show.S01E02.mkv")
                (of_string "/srv/series/Show/s01") incomplete_disk).
  vm_compute in claim. discriminate.
Qed.

Lemma dry_run_mutates_nothing_witness :
  let dry := with_dry_run true cfg in
  (forall st st' r,
     main sys dry (Some [show_torrent]) st = (st', r) ->
     world st' = world st /\
     exists evs, trace st' = trace st ++ evs /\ harmless evs)
  /\ (forall video_files,
        get_torrent_type dry video_files
        = get_torrent_type (with_dry_run false dry) video_files)
  /\ (forall source_file target_dir st,
        snd (move_torrent_file sys dry source_file target_dir st) = Ok true)
  /\ (forall source_file target_dir st,
        snd (move_torrent_file sys (with_dry_run false dry)
               source_file target_dir st) = Ok true
        <-> (path_exists sys (world st)
               (Path.join target_dir (Path.basename source_file)) = true
             \/ snd (copyfile sys (world st)
                       (Path.join (DIR_DOWNLOAD dry) source_file)
                       (Path.join target_dir (Path.basename source_file)))
                = true)).
Proof.
  apply (dry_run_mutates_nothing sys (with_dry_run true cfg)
           (Some [show_torrent])).
  reflexivity.
Defined.

(** The dry run of the incomplete disk logs every intended action, changes
    nothing and asks for no removal. *)
Example dry_run_on_incomplete_disk :
  let '(st', r) := main sys (with_dry_run true cfg) (Some [show_torrent])
                     incomplete_disk in
  r = Ok 0%Z /\ world st' = world incomplete_disk
  /\ filter is_mutation (trace st') = []
  /\ In LogTorrentFinished (trace st').
Proof. vm_compute. repeat split; auto 20. Qed.

Lemma sample_heuristic_threshold_witness :
  get_torrent_type cfg sample_job = Ok (MOVIE_WITH_SAMPLE, NoData)
  /\ is_movie_with_sample sample_job = Ok true.
Proof.
  destruct (sample_heuristic_threshold cfg (file "sample.mkv" 100)
              (file "movie.mkv" 1000)) as [_ [_ [Hten [_ Hexact]]]].
  split.
  - apply Hten; reflexivity.
  - apply Hexact; cbn [size file]; lia.
Defined.

(** Half as big again is 50.0 percent: no sample; the two names match no
    pattern, so the job is then grouped as a series and the grouping raises. *)
Example half_bigger_is_no_sample :
  normalized_size_diff 100 150 = Ok (Float.of_Z 50)
  /\ is_movie_with_sample half_bigger_job = Ok false
  /\ get_torrent_type cfg half_bigger_job = Raise TypeError.
Proof. vm_compute. repeat split. Qed.

(** Beyond [2 ^ 53] bytes the quotient is rounded: for the second file one
    byte more than twice the first, the floats see exactly 100 percent and
    signal a sample, where exact arithmetic sees more than 100, divides by
    ten and does not. *)
Example float_verdict_on_huge_sizes :
  is_movie_with_sample huge_job = Ok true
  /\ exact_verdict (2 ^ 53) (2 ^ 54 + 1) = false.
Proof. vm_compute. split; reflexivity. Qed.

(** ** Runs for the further properties *)


Lemma episode_data_reads_base_name_only_witness :
  Path.basename (of_string "Another.S09E09/Show.3x07.mkv")
  = Path.basename (of_string "tv/Show.3x07.mkv")
  /\ identity (get_episode_data cfg (of_string "Another.S09E09/Show.3x07.mkv"))
     = identity (get_episode_data cfg (of_string "tv/Show.3x07.mkv")).
Proof.
  split; [reflexivity|].
  apply (episode_data_reads_base_name_only cfg). reflexivity.
Defined.

(** A marker in a directory of the path is not seen. *)
Example marker_in_directory_is_not_seen :
  get_episode_data cfg (of_string "Show.S01E01/extras.mkv") = None
  /\ get_torrent_type cfg [file "Show.S01E01/extras.mkv" 10] = Ok (MOVIE, NoData).
Proof. vm_compute. split; reflexivity. Qed.

(** Capitals in the marker are accepted; the show name keeps its case. *)
Example capitals_are_matched :
  identity (get_episode_data cfg (of_string "SHOW.s01e01.mkv"))
  = Some (of_string "SHOW", of_string "01", of_string "01")
  /\ identity (get_episode_data cfg (lower_case (of_string "SHOW.s01e01.mkv")))
     = Some (of_string "show", of_string "01", of_string "01").
Proof. vm_compute. split; reflexivity. Qed.

Lemma NxNN_marker_is_an_episode_witness :
  exists d,
    get_episode_data cfg resolution_film = Some d
    /\ get_torrent_type cfg [{| name := resolution_film; size := 700 |}]
       = Ok (EPISODE, EpisodeInfo d).
Proof.
  destruct (NxNN_marker_is_an_episode cfg resolution_film
              (of_string "Film.19") (of_string "20") (of_string "10")
              (of_string "80.mkv") "x"%char
              ltac:(reflexivity) ltac:(reflexivity) ltac:(cbn; lia)
              ltac:(reflexivity) ltac:(reflexivity) ltac:(reflexivity))
    as [d [E T]].
  exists d. split; [exact E|]. apply T. reflexivity.
Defined.

(** The film with a frame size in its name becomes season 20, episode 10
    of the show [Film.19]. *)
Example frame_size_is_read_as_an_episode :
  identity (get_episode_data cfg resolution_film)
  = Some (of_string "Film.19", of_string "20", of_string "10").
Proof. vm_compute. reflexivity. Qed.

Lemma verbose_marker_is_an_episode_witness :
  exists d,
    get_episode_data cfg verbose_episode = Some d
    /\ get_torrent_type cfg [{| name := verbose_episode; size := 700 |}]
       = Ok (EPISODE, EpisodeInfo d).
Proof.
  destruct (verbose_marker_is_an_episode cfg verbose_episode
              (of_string "Show - ") (of_string "season") (of_string " ")
              (of_string "2") (of_string " - ") (of_string "Episode")
              (of_string " ") (of_string "5") (of_string ".avi")
              ltac:(reflexivity) ltac:(reflexivity) ltac:(reflexivity)
              ltac:(cbn; lia) ltac:(cbn; lia) ltac:(reflexivity)
              ltac:(reflexivity) ltac:(cbn; lia)
              ltac:(reflexivity) ltac:(cbn; lia))
    as [d [E T]].
  exists d. split; [exact E|]. apply T. reflexivity.
Defined.

Example verbose_episode_is_padded :
  identity (get_episode_data cfg verbose_episode)
  = Some (of_string "Show", of_string "02", of_string "05").
Proof. vm_compute. reflexivity. Qed.

(** Hidden files, capitals in the extension and directories with an
    extension are not video files. *)
Example video_files_by_extension :
  map name
    (get_video_files [file ".mkv" 1; file "a.MKV" 1; file "a.tar.mkv" 1;
                      file "dir.mkv/readme" 1; file "x/..avi" 1;
                      file "x/.a.avi" 1; file "b.mp4" 2])
  = [of_string "a.tar.mkv"; of_string "x/.a.avi"; of_string "b.mp4"].
Proof. vm_compute. reflexivity. Qed.

Lemma mixed_shows_are_not_a_series_witness :
  get_series_data cfg mixed_job = Ok None
  /\ get_torrent_type cfg mixed_job = Ok (UNKNOWN, NoData).
Proof.
  destruct (mixed_shows_are_not_a_series cfg mixed_job
              [ {| series_name := of_string "Show"; season_num := of_string "01";
                   episode_num := of_string "01";
                   filename := of_string "Show.S01E01.mkv" |};
                {| series_name := of_string "show"; season_num := of_string "01";
                   episode_num := of_string "02";
                   filename := of_string "show.S01E02.mkv" |};
                {| series_name := of_string "Show"; season_num := of_string "01";
                   episode_num := of_string "03";
                   filename := of_string "Show.S01E03.mkv" |} ]
              {| series_name := of_string "Show"; season_num := of_string "01";
                 episode_num := of_string "01";
                 filename := of_string "Show.S01E01.mkv" |}
              {| series_name := of_string "show"; season_num := of_string "01";
                 episode_num := of_string "02";
                 filename := of_string "show.S01E02.mkv" |})
    as [Hd [_ Hu]].
  - vm_compute. reflexivity.
  - left. reflexivity.
  - right. left. reflexivity.
  - vm_compute. discriminate.
  - split; [exact Hd|]. apply Hu. cbn. lia.
Defined.

(** The show of [show_torrent] grouped by season. *)
Example show_is_grouped_by_season :
  match get_series_data cfg (get_video_files (files show_torrent)) with
  | Ok (Some data) =>
      map (fun season => (fst season, map episode_num (snd season))) (seasons data)
      = [(of_string "01", [of_string "01"; of_string "02"]);
         (of_string "02", [of_string "01"])]
      /\ seasons_count data = 2
  | _ => False
  end.
Proof. vm_compute. split; reflexivity. Qed.

Lemma season_dir_is_under_series_root_witness :
  season_dir_of cfg (series_name Show_3x07) (season_num Show_3x07)
  = with_slash (DIR_SERIES cfg) ++ with_slash (series_name Show_3x07)
    ++ SEASON_PREFIX cfg ++ season_num Show_3x07
  /\ season_dir_of cfg (series_name Show_3x07) (season_num Show_3x07)
     = of_string "/srv/series/Show/s03"
  /\ is_plain_name (SEASON_PREFIX cfg ++ season_num Show_3x07) = true.
Proof.
  destruct (season_dir_is_under_series_root cfg (of_string "tv/Show.3x07.mkv")
              Show_3x07) as [H [_ [_ P]]]; [vm_compute; reflexivity|].
  split; [apply H; reflexivity|]. split; [vm_compute; reflexivity|].
  destruct (P eq_refl eq_refl) as [season_component [-> [Hplain _]]].
  exact Hplain.
Defined.

(** A season prefix that climbs with [..] takes the season directory out of
    the series root. *)
Example climbing_prefix_leaves_series_root :
  option_map series_name
    (get_episode_data climbing_prefix_config (of_string "Show.S01E01.mkv"))
  = Some (of_string "Show")
  /\ season_dir_of climbing_prefix_config (of_string "Show") (of_string "01")
     = of_string "/srv/series/Show/../../etc/x01".
Proof. vm_compute. split; reflexivity. Qed.

(** With a strip set that leaves dots in place, a file whose base name
    begins with two dots gives the show name [..]: its season directory is
    beside the series root, not below it. *)
Example dotted_show_name_leaves_series_root :
  option_map series_name
    (get_episode_data dots_kept_config (of_string "..S01E01.mkv"))
  = Some (of_string "..")
  /\ season_dir_of dots_kept_config (of_string "..") (of_string "01")
     = of_string "/srv/series/../s01".
Proof. vm_compute. split; reflexivity. Qed.

Lemma job_touches_only_its_video_files_witness :
  exists evs,
    trace (fst (process_torrent sys cfg show_torrent complete_disk))
    = trace complete_disk ++ evs
    /\ Forall (job_event cfg (get_video_files (files show_torrent))) evs.
Proof.
  apply (job_touches_only_its_video_files sys cfg show_torrent complete_disk
           (fst (process_torrent sys cfg show_torrent complete_disk))
           (snd (process_torrent sys cfg show_torrent complete_disk))).
  vm_compute. reflexivity.
Defined.

Lemma processing_raises_only_in_classifier_or_makedirs_witness :
  process_torrent sys cfg empty_file_torrent (start [])
  = (start [], Raise ZeroDivisionError)
  /\ ZeroDivisionError <> IndexError.
Proof.
  assert (H : process_torrent sys cfg empty_file_torrent (start [])
              = (start [], Raise ZeroDivisionError))
    by (vm_compute; reflexivity).
  destruct (processing_raises_only_in_classifier_or_makedirs sys cfg
              empty_file_torrent _ _ _ H) as [_ [Hne _]].
  split; assumption.
Defined.

(** A torrent that is still downloading leaves no trace in the run, and the
    removal is requested once, as the last thing done. *)
Example downloading_torrent_is_ignored :
  main sys cfg (Some [downloading_torrent; show_torrent]) complete_disk
  = main sys cfg (Some [show_torrent]) complete_disk
  /\ (let events :=
        trace (fst (main sys cfg (Some [downloading_torrent; show_torrent])
                      complete_disk)) in
      filter is_removal events = [CallRemoveTorrent [7%Z]]
      /\ firstn 1 (rev events) = [CallRemoveTorrent [7%Z]]).
Proof. vm_compute. repeat split. Qed.

Lemma removal_list_keeps_torrent_order_witness :
  subsequence [7%Z] (map torrent_id [downloading_torrent; show_torrent])
  /\ (NoDup (map torrent_id [downloading_torrent; show_torrent]) -> NoDup [7%Z]).
Proof.
  destruct (removal_list_keeps_torrent_order sys cfg
              [downloading_torrent; show_torrent] complete_disk
              (fst after_mixed_run) [7%Z]) as [_ H];
    [vm_compute; reflexivity|exact H].
Defined.

Lemma movie_with_sample_relocates_the_larger_file_witness :
  relocate sys cfg sample_job MOVIE_WITH_SAMPLE NoData
  = move_torrent_file sys cfg (of_string "movie.mkv") (DIR_FILM cfg).
Proof.
  destruct (movie_with_sample_relocates_the_larger_file sys cfg
              (file "sample.mkv" 100) (file "movie.mkv" 1000) NoData)
    as [_ [H _]]; [vm_compute; reflexivity|exact H].
Defined.

Lemma same_base_name_is_copied_once_witness :
  snd (move_torrent_file sys cfg second_disc (DIR_FILM cfg)
         (fst (move_torrent_file sys cfg first_disc (DIR_FILM cfg) disc_on_disk)))
  = Ok true
  /\ trace (fst (move_torrent_file sys cfg second_disc (DIR_FILM cfg)
                   (fst (move_torrent_file sys cfg first_disc (DIR_FILM cfg)
                           disc_on_disk))))
     = trace (fst (move_torrent_file sys cfg first_disc (DIR_FILM cfg) disc_on_disk))
       ++ [LogAlreadyExists (of_string "/srv/films/film.mkv")].
Proof.
  destruct (same_base_name_is_copied_once sys cfg first_disc second_disc
              (DIR_FILM cfg) disc_on_disk
              (fst (move_torrent_file sys cfg first_disc (DIR_FILM cfg)
                      disc_on_disk)))
    as [_ H].
  - intros w source target. cbn. destruct (has w source); cbn; [|discriminate].
    intros _. rewrite str_eqb_refl. reflexivity.
  - reflexivity.
  - reflexivity.
  - vm_compute. reflexivity.
  - rewrite H. split; reflexivity.
Defined.

Lemma load_config_overrides_key_by_key_witness :
  Loader.load_config (Some custom_config) (Loader.defaults (of_string "/srv"))
  = (custom_settings, None)
  /\ Loader.DIR_FILM custom_settings = Loader.VStr (of_string "/media/films")
  /\ Loader.DIR_SERIES custom_settings
     = Loader.DIR_SERIES (Loader.defaults (of_string "/srv")).
Proof.
  destruct (LoaderFacts.load_config_overrides_key_by_key custom_config
              (Loader.defaults (of_string "/srv")))
    as [[g' [Hl [Hget _]]] _]; [vm_compute; reflexivity|].
  unfold custom_settings. rewrite Hl. cbn [fst]. split; [reflexivity|]. split.
  - change (Loader.DIR_FILM g') with (Loader.get Loader.SetFilm g').
    rewrite (Hget (of_string "directories")
               [(of_string "download", Loader.SetDownload);
                (of_string "film", Loader.SetFilm);
                (of_string "series", Loader.SetSeries)]
               (of_string "film") Loader.SetFilm).
    + vm_compute. reflexivity.
    + right. left. reflexivity.
    + right. left. reflexivity.
  - change (Loader.DIR_SERIES g') with (Loader.get Loader.SetSeries g').
    rewrite (Hget (of_string "directories")
               [(of_string "download", Loader.SetDownload);
                (of_string "film", Loader.SetFilm);
                (of_string "series", Loader.SetSeries)]
               (of_string "series") Loader.SetSeries).
    + vm_compute. reflexivity.
    + right. left. reflexivity.
    + right. right. left. reflexivity.
Defined.

(** With [custom_config] the rest of the program runs on the film
    directory and the season prefix of the file. *)
Example custom_config_is_used :
  option_map (fun c => (DIR_FILM c, SEASON_PREFIX c))
             (Loader.to_config custom_settings false)
  = Some (of_string "/media/films", of_string "Season ").
Proof. vm_compute. reflexivity. Qed.

(** A section without entries stops the script with [TypeError], after the
    host of the section before it was taken over. *)
Example hollow_config_raises :
  Loader.well_formed hollow_config = false
  /\ snd (Loader.load_config (Some hollow_config) (Loader.defaults (of_string "/srv")))
     = Some Loader.PyTypeError
  /\ Loader.TRANS_HOST
       (fst (Loader.load_config (Some hollow_config)
               (Loader.defaults (of_string "/srv"))))
     = Loader.VStr (of_string "nas")
  /\ Loader.load_config (Some Loader.VNone) (Loader.defaults (of_string "/srv"))
     = (Loader.defaults (of_string "/srv"), Some Loader.PyTypeError).
Proof. vm_compute. repeat split. Qed.

Lemma series_is_moved_when_every_episode_is_witness :
  exists evs,
    trace (fst after_complete_relocation) = trace complete_disk ++ evs
    /\ attempts evs = List.length (get_video_files (files show_torrent))
    /\ quiet evs.
Proof.
  destruct (series_is_moved_when_every_episode_is sys cfg
              (get_video_files (files show_torrent)) SERIES show_data
              complete_disk (fst after_complete_relocation) true)
    as [evs [T [Ht _]]].
  - vm_compute. reflexivity.
  - vm_compute. reflexivity.
  - exists evs. split; [exact T|]. apply Ht. reflexivity.
Defined.

(** With the second episode missing, the relocation of the show stops on
    the failed attempt and reports that nothing can be removed. *)
Example failed_relocation_is_not_moved :
  snd after_failed_run = Ok false
  /\ attempts (trace (fst after_failed_run)) = 2.
Proof. vm_compute. split; reflexivity. Qed.

End Examples.
